(** * The TikTok extractor: API version negotiation and format reconciliation

    A shallow embedding of [yt_dlp/extractor/tiktok.py].  Python methods
    become functions in a small state-and-exception monad; the host
    application (HTTP transport, cookie jar, clock, random source) is the
    interface [Host].  Raw API payloads are given as records (the schema the
    code reads), constructed metadata dictionaries as [gmap string Val]. *)

From Stdlib Require Import ZArith QArith Qround Permutation Sorted.
From Stdlib Require Import Ascii String DecimalString.
From stdpp Require Import gmap strings list fin_maps pretty.

Local Open Scope Z_scope.
Local Open Scope string_scope.

(* ===================================================================== *)
(** ** Python values, results and exceptions                               *)
(* ===================================================================== *)

(** A value stored in a metadata dictionary.  [VNum] is a Python float,
    kept as an exact rational. *)
Inductive Val : Type :=
  | VNone
  | VBool (b : bool)
  | VInt (z : Z)
  | VNum (q : Q)
  | VStr (s : string).

(** [e.cause] of an [ExtractorError]: the exception it wraps, with its
    [str()]; a [json.JSONDecodeError] also carries [pos]. *)
Inductive Cause : Type :=
  | JSONDecodeError (cause_str : string) (pos : Z)
  | OtherCause (cause_str : string).

Record ExtractorError : Type := mkExtractorError {
  msg : string;
  cause : option Cause
}.

Inductive Exn : Type :=
  | EExtractorError (e : ExtractorError)
  | EUnsupportedError (url : string)
  | EKeyError (key : string)
  | EOtherError (descr : string).

(** What a Python call ends in: a returned value or a raised exception. *)
Inductive pyresult (A : Type) : Type :=
  | Return (a : A)
  | Raise (e : Exn).
Arguments Return {A} a.
Arguments Raise {A} e.

Definition str_of_cause (c : Cause) : string :=
  match c with
  | JSONDecodeError s _ => s
  | OtherCause s => s
  end.

(** [str(e.cause or e.msg)]: an exception object is truthy. *)
Definition str_cause_or_msg (e : ExtractorError) : string :=
  match cause e with
  | Some c => str_of_cause c
  | None => msg e
  end.

(** [isinstance(e.cause, json.JSONDecodeError) and e.cause.pos == 0] *)
Definition is_json_error_at_0 (e : ExtractorError) : bool :=
  match cause e with
  | Some (JSONDecodeError _ pos) => Z.eqb pos 0
  | _ => false
  end.

(** Truthiness of a string. *)
Definition str_truthy (s : string) : bool :=
  match s with
  | EmptyString => false
  | String _ _ => true
  end.

Definition AppVersion : Type := (string * string)%type.

(* ===================================================================== *)
(** ** The raw payloads                                                    *)
(* ===================================================================== *)

(** A stream address, e.g. [video_info['play_addr']]. *)
Record Addr : Type := mkAddr {
  url_key : option string;
  url_list : list string;
  data_size : option Z
}.

(** One entry of [video_info['bit_rate']]. *)
Record BitRate : Type := mkBitRate {
  br_play_addr : option Addr;
  br_gear_name : option string;
  br_bit_rate : option Z;
  br_is_bytevc1 : option bool;
  br_is_h265 : option bool;
  br_FPS : option Z
}.

Record Cover : Type := mkCover {
  cover_url_list : list string
}.

Record VideoInfo : Type := mkVideoInfo {
  play_addr : option Addr;
  download_addr : option Addr;
  play_addr_h264 : option Addr;
  play_addr_bytevc1 : option Addr;
  bit_rate : list BitRate;
  is_bytevc1 : option bool;
  is_h265 : option bool;
  width : option Z;
  height : option Z;
  has_watermark : bool;
  cover : option Cover;
  ai_dynamic_cover : option Cover;
  animated_cover : option Cover;
  ai_dynamic_cover_bak : option Cover;
  origin_cover : option Cover;
  dynamic_cover : option Cover
}.

Record MatchedSound : Type := mkMatchedSound {
  ms_title : option string;
  ms_author : option string
}.

Record MusicInfo : Type := mkMusicInfo {
  is_original_sound : bool;
  music_title : option string;
  owner_handle : option string;
  music_author : option string;
  matched_song : option MatchedSound;
  matched_pgc_sound : option MatchedSound
}.

(** One element of [..., 'auto_captions', ...]. *)
Record Caption : Type := mkCaption {
  caption_url_list : list string;
  language : option string
}.

Record Utterance : Type := mkUtterance {
  start_time : Z;
  end_time : Z;
  text : option string
}.

(** The JSON behind a caption URL: [None] when it has no ['utterances']. *)
Record CaptionJson : Type := mkCaptionJson {
  utterances : option (list Utterance)
}.

Record AwemeDetail : Type := mkAwemeDetail {
  aweme_id : string;
  video : VideoInfo;
  music : MusicInfo;
  author_uid : option string;
  desc : option string;
  (** per interaction sticker, its [auto_video_caption_info.auto_captions] *)
  interaction_stickers : list (list Caption)
}.

(** The body of an [aweme/v1] list or feed response. *)
Record ApiJson : Type := mkApiJson {
  aweme_list : list AwemeDetail;
  has_more : bool;
  cursor : option Val
}.

(* ===================================================================== *)
(** ** The host application                                                *)
(* ===================================================================== *)

(** The arguments of one [_download_json] call against the API. *)
Record ApiRequest : Type := mkApiRequest {
  req_url : string;
  req_video_id : string;
  req_fatal : bool;
  req_note : string;
  req_errnote : string;
  req_user_agent : string;
  req_query : gmap string Val
}.

(** What the extractor consumes from the host and does not look into.
    [World] is the host's own state: network, cookie jar, clock, random
    source. *)
Class Host : Type := {
  World : Type;
  (** [self._download_json(url, ..., query=...)] on an API endpoint; with
      [fatal=False] the host may return a falsy value ([None]). *)
  _download_json : ApiRequest -> World -> pyresult (option ApiJson) * World;
  (** [self._download_json(caption_url, ..., fatal=False)]: the parsed
      caption, or a falsy value on failure. *)
  _download_caption_json : string -> string -> World -> option CaptionJson * World;
  (** [self._request_webpage(HEADRequest(url), ...).geturl()] *)
  _head_geturl : string -> World -> pyresult string * World;
  _set_cookie : string -> string -> string -> World -> World;
  (** [self._get_cookies(url).get(name)], as the cookie's value *)
  _get_cookie : string -> string -> World -> option string;
  (** [random.choice(alphabet)] *)
  random_choice : string -> World -> ascii * World;
  (** [time.time()], in seconds *)
  time_time : World -> Q * World;
  (** [compat_urllib_parse_urlparse(url).hostname] *)
  url_hostname : string -> string;
  (** [url_or_none] *)
  url_or_none : string -> option string;
  (** the rank the host's format sorter gives a codec name *)
  codec_preference : option string -> Z
}.

(** Operator configuration ([self._downloader.params]). [''] stands for an
    extractor argument that was not passed: [_configuration_arg(key, [''])[0]]. *)
Record Params : Type := mkParams {
  arg_app_version : string;
  arg_manifest_app_version : string;
  (** [writesubtitles] or [listsubtitles] *)
  want_subtitles : bool
}.

(** The class attributes of an extractor class. *)
Record IEClass : Type := mkIEClass {
  _APP_VERSIONS : list AppVersion;
  _APP_NAME : string;
  _AID : Z;
  _API_HOSTNAME : string;
  _UPLOADER_URL_FORMAT : string;
  _WEBPAGE_HOST : string;
  _QUERY_NAME : string;
  _API_ENDPOINT : string
}.


(** What an extractor object holds in its own [__dict__]: the attribute
    [_WORKING_APP_VERSION] once [self._WORKING_APP_VERSION = ...] has run,
    and the messages [report_warning(..., only_once=True)] has printed. *)
Record Instance : Type := mkInstance {
  inst_WORKING_APP_VERSION : option AppVersion;
  inst_printed_messages : list string
}.

Definition fresh_instance : Instance :=
  {| inst_WORKING_APP_VERSION := None; inst_printed_messages := [] |}.

(** An extractor object: its identity, its class and the downloader's
    parameters it reads. *)
Record Self : Type := mkSelf {
  oid : nat;
  cls : IEClass;
  params : Params
}.

(** A trace of what the extractor asked of the host, oldest first.  The
    flag of [EvWarning] is [only_once]. *)
Inductive Event : Type :=
  | EvRequest (r : ApiRequest)
  | EvWarning (m : string) (only_once : bool)
  | EvDebug (m : string).

(* ===================================================================== *)
(** ** The state-and-exception monad                                       *)
(* ===================================================================== *)

Section Monad.
Context `{Host}.

Record State : Type := mkState {
  world : World;
  objects : gmap nat Instance;
  events : list Event
}.

Definition M (A : Type) : Type := State -> pyresult A * State.

Definition ret {A} (a : A) : M A := fun s => (Return a, s).

Definition raise {A} (e : Exn) : M A := fun s => (Raise e, s).

Definition bind {A B} (m : M A) (k : A -> M B) : M B := fun s =>
  match m s with
  | (Return a, s') => k a s'
  | (Raise e, s') => (Raise e, s')
  end.

(** [try: m  except Exception as e: h e] *)
Definition try_except {A} (m : M A) (h : Exn -> M A) : M A := fun s =>
  match m s with
  | (Return a, s') => (Return a, s')
  | (Raise e, s') => h e s'
  end.

Definition lift_world {A} (f : World -> A * World) : M A := fun s =>
  let (a, w) := f (world s) in
  (Return a, {| world := w; objects := objects s; events := events s |}).

Definition lift_world_result {A} (f : World -> pyresult A * World) : M A := fun s =>
  let (r, w) := f (world s) in
  (r, {| world := w; objects := objects s; events := events s |}).

Definition log (ev : Event) : M unit := fun s =>
  (Return tt, {| world := world s; objects := objects s; events := events s ++ [ev] |}).

Definition instance_of (self : Self) (s : State) : Instance :=
  default fresh_instance (objects s !! oid self).

Definition set_instance (self : Self) (i : Instance) : M unit := fun s =>
  (Return tt, {| world := world s; objects := <[oid self := i]> (objects s); events := events s |}).

End Monad.

Declare Scope py_scope.
Delimit Scope py_scope with py.
Notation "x <- m ;; k" := (bind m (fun x => k))
  (at level 100, m at next level, right associativity) : py_scope.
Notation "m ;;; k" := (bind m (fun _ => k))
  (at level 100, right associativity) : py_scope.
Local Open Scope py_scope.

(* ===================================================================== *)
(** ** TikTokBaseIE: the API access negotiator                             *)
(* ===================================================================== *)

(** [TikTokBaseIE._WORKING_APP_VERSION = None], the class attribute; no
    statement of the module assigns to it. *)
Definition class_WORKING_APP_VERSION : option AppVersion := None.

Definition lone_override_warning : string :=
  "Only one of the two required version params are passed as extractor arguments".

Definition string_digits : string := "0123456789".
Definition hexdigits : string := "0123456789abcdef".

(** [int(x)] of a float: truncation towards zero. *)
Definition int_of_float (q : Q) : Z := Z.quot (Qnum q) (Zpos (Qden q)).

Section Negotiator.
Context `{Host}.

(** Reading [self._WORKING_APP_VERSION]: the instance attribute when the
    object has one, the class attribute otherwise. *)
Definition get_WORKING_APP_VERSION (self : Self) : M (option AppVersion) := fun s =>
  (Return match inst_WORKING_APP_VERSION (instance_of self s) with
          | Some v => Some v
          | None => class_WORKING_APP_VERSION
          end, s).

(** [self._WORKING_APP_VERSION = v]: an assignment through [self] writes
    the object's own attribute. *)
Definition set_WORKING_APP_VERSION (self : Self) (v : AppVersion) : M unit := fun s =>
  set_instance self
    {| inst_WORKING_APP_VERSION := Some v;
       inst_printed_messages := inst_printed_messages (instance_of self s) |} s.

(** Modelled from the spec: [InfoExtractor.report_warning] is host code;
    with [only_once] a message the object has already printed is dropped. *)
Definition report_warning (self : Self) (m : string) (only_once : bool) : M unit := fun s =>
  let i := instance_of self s in
  if only_once then
    if bool_decide (m ∈ inst_printed_messages i) then (Return tt, s)
    else (set_instance self
            {| inst_WORKING_APP_VERSION := inst_WORKING_APP_VERSION i;
               inst_printed_messages := m :: inst_printed_messages i |} ;;;
          log (EvWarning m true)) s
  else log (EvWarning m false) s.

Definition write_debug (m : string) : M unit := log (EvDebug m).

(** [''.join(random.choice(alphabet) for _ in range(n))] *)
Fixpoint random_string (alphabet : string) (n : nat) : M string :=
  match n with
  | O => ret ""
  | S n' =>
      c <- lift_world (random_choice alphabet) ;;
      rest <- random_string alphabet n' ;;
      ret (String c rest)
  end.

Definition _call_api_impl (self : Self) (ep : string) (query : gmap string Val)
    (manifest_app_version : string) (video_id : string) (fatal : bool)
    (note errnote : string) : M (option ApiJson) :=
  odin_tt <- random_string hexdigits 160 ;;
  lift_world (fun w => (tt, _set_cookie (_API_HOSTNAME (cls self)) "odin_tt" odin_tt w)) ;;;
  sid_tt <- lift_world (fun w => (_get_cookie (_WEBPAGE_HOST (cls self)) "sid_tt" w, w)) ;;
  match sid_tt with
  | Some v => lift_world (fun w => (tt, _set_cookie (_API_HOSTNAME (cls self)) "sid_tt" v w))
  | None => ret tt
  end ;;;
  let r := {| req_url := "https://" ++ _API_HOSTNAME (cls self) ++ "/aweme/v1/" ++ ep ++ "/";
              req_video_id := video_id;
              req_fatal := fatal;
              req_note := note;
              req_errnote := errnote;
              req_user_agent :=
                "com.ss.android.ugc.trill/" ++ manifest_app_version
                ++ " (Linux; U; Android 10; en_US; Pixel 4; Build/QQ3A.200805.001; Cronet/58.0.2991.0)";
              req_query := query |} in
  log (EvRequest r) ;;;
  lift_world_result (_download_json r).

Definition _build_api_query (self : Self) (query : gmap string Val)
    (app_version manifest_app_version : string) : M (gmap string Val) :=
  openudid <- random_string hexdigits 16 ;;
  uuid <- random_string string_digits 16 ;;
  t_rticket <- lift_world time_time ;;
  t_ts <- lift_world time_time ;;
  ret (list_to_map
         [ ("version_name", VStr app_version);
           ("version_code", VStr manifest_app_version);
           ("build_number", VStr app_version);
           ("manifest_version_code", VStr manifest_app_version);
           ("update_version_code", VStr manifest_app_version);
           ("openudid", VStr openudid);
           ("uuid", VStr uuid);
           ("_rticket", VInt (int_of_float (t_rticket * 1000)));
           ("ts", VInt (int_of_float t_ts));
           ("device_brand", VStr "Google");
           ("device_type", VStr "Pixel 4");
           ("device_platform", VStr "android");
           ("resolution", VStr "1080*1920");
           ("dpi", VInt 420);
           ("os_version", VStr "10");
           ("os_api", VStr "29");
           ("carrier_region", VStr "US");
           ("sys_region", VStr "US");
           ("region", VStr "US");
           ("app_name", VStr (_APP_NAME (cls self)));
           ("app_language", VStr "en");
           ("language", VStr "en");
           ("timezone_name", VStr "America/New_York");
           ("timezone_offset", VStr "-14400");
           ("channel", VStr "googleplay");
           ("ac", VStr "wifi");
           ("mcc_mnc", VStr "310260");
           ("is_my_cn", VInt 0);
           ("aid", VInt (_AID (cls self)));
           ("ssmix", VStr "a");
           ("as", VStr "a1qwert123");
           ("cp", VStr "cbfhckdckkde1") ]
       ∪ query).

(** The arguments of [_call_api] that stay fixed during one call. *)
Record CallArgs : Type := mkCallArgs {
  call_ep : string;
  call_query : gmap string Val;
  call_video_id : string;
  call_fatal : bool;
  call_note : string;
  call_errnote : string
}.

(** One pass of the body of [for count, (app_version, manifest_app_version)
    in enumerate(self._APP_VERSIONS, start=1)] up to the end of the [try]
    block: build the query, issue the call. *)
Definition attempt (self : Self) (a : CallArgs) (v : AppVersion) : M (option ApiJson) :=
  real_query <- _build_api_query self (call_query a) (fst v) (snd v) ;;
  _call_api_impl self (call_ep a) real_query (snd v) (call_video_id a)
    (call_fatal a) (call_note a) (call_errnote a).

Definition retrying_message (e : ExtractorError) (count total : nat) : string :=
  str_cause_or_msg e ++ ". Retrying... (attempt " ++ pretty count ++ " of " ++ pretty total ++ ")".

(** The [for] loop of [_call_api] over the candidates still to try;
    [count] is the loop counter of [enumerate(..., start=1)]. *)
Fixpoint negotiate (self : Self) (a : CallArgs) (count : nat)
    (candidates : list AppVersion) : M (option ApiJson) :=
  match candidates with
  | [] => ret None
  | v :: rest =>
      try_except
        (res <- attempt self a v ;;
         set_WORKING_APP_VERSION self v ;;;
         ret res)
        (fun e =>
           match e with
           | EExtractorError ee =>
               if is_json_error_at_0 ee then
                 if Nat.eqb count (length (_APP_VERSIONS (cls self))) then
                   if call_fatal a then raise e
                   else (report_warning self (str_cause_or_msg ee) false ;;; ret None)
                 else
                   (report_warning self
                      (retrying_message ee count (length (_APP_VERSIONS (cls self)))) false ;;;
                    negotiate self a (S count) rest)
               else raise e
           | _ => raise e
           end)
  end.

Definition _call_api (self : Self) (a : CallArgs) : M (option ApiJson) :=
  working <- get_WORKING_APP_VERSION self ;;
  match working with
  | None =>
      let app_version := arg_app_version (params self) in
      let manifest_app_version := arg_manifest_app_version (params self) in
      if str_truthy app_version && str_truthy manifest_app_version then
        set_WORKING_APP_VERSION self (app_version, manifest_app_version) ;;;
        write_debug "Imported app version combo from extractor arguments"
      else if str_truthy app_version || str_truthy manifest_app_version then
        report_warning self lone_override_warning true
      else ret tt
  | Some _ => ret tt
  end ;;;
  working <- get_WORKING_APP_VERSION self ;;
  match working with
  | Some v => attempt self a v
  | None => negotiate self a 1 (_APP_VERSIONS (cls self))
  end.

End Negotiator.

(* ===================================================================== *)
(** ** Strings and numbers as Python formats them                          *)
(* ===================================================================== *)

(** The line feed, ['\n']. *)
Definition nl : string := String "010"%char "".

Definition is_digit (c : ascii) : bool :=
  (48 <=? nat_of_ascii c)%nat && (nat_of_ascii c <=? 57)%nat.

(** [str(n)] for [n >= 0]. *)
Definition str_of_N (n : N) : string := NilZero.string_of_uint (N.to_uint n).

(** [digits.zfill(width)] for a string of digits *)
Definition zfill (width : nat) (digits : string) : string :=
  String.concat "" (repeat "0" (width - String.length digits)%nat) ++ digits.

(** ['%0<width>d' % z]: the sign counts towards the width. *)
Definition fmt_0d (width : nat) (z : Z) : string :=
  if Z.ltb z 0
  then String "-"%char (zfill (Nat.pred width) (str_of_N (Z.to_N (Z.opp z))))
  else zfill width (str_of_N (Z.to_N z)).

(** [int(s)] of a string of ASCII digits. *)
Definition int_of_digits (s : string) : Z :=
  fold_left (fun acc c => 10 * acc + Z.of_nat (nat_of_ascii c - 48))
            (list_ascii_of_string s) 0.

(** [delim.join(parts)] *)
Fixpoint str_join (delim : string) (parts : list string) : string :=
  match parts with
  | [] => ""
  | [p] => p
  | p :: rest => p ++ delim ++ str_join delim rest
  end.

(** [needle in haystack] for strings. *)
Fixpoint str_contains (needle haystack : string) : bool :=
  String.prefix needle haystack
  || match haystack with
     | EmptyString => false
     | String _ rest => str_contains needle rest
     end.

(** Modelled from the spec: [join_nonempty] of [yt_dlp.utils] is not in
    src/; it joins the values that are present and not empty. *)
Definition join_nonempty (values : list (option string)) (delim : string) : string :=
  str_join delim (omap (fun v => match v with
                                 | Some s => if str_truthy s then Some s else None
                                 | None => None
                                 end) values).

(* ===================================================================== *)
(** ** TikTokBaseIE._get_subtitles                                         *)
(* ===================================================================== *)

(** Modelled from the spec: [srt_subtitles_timecode] of [yt_dlp.utils] is
    not in src/; it renders a time in seconds as [HH:MM:SS,mmm].  Python's
    float is taken as the exact quotient. *)
Definition srt_subtitles_timecode (seconds : Q) : string :=
  let msec := Qfloor (seconds * 1000) in
  let secs := msec / 1000 in
  let mins := secs / 60 in
  let hrs := mins / 60 in
  fmt_0d 2 hrs ++ ":" ++ fmt_0d 2 (mins mod 60) ++ ":" ++ fmt_0d 2 (secs mod 60)
  ++ "," ++ fmt_0d 3 (msec mod 1000).

(** [line.get('text')] is truthy *)
Definition has_text (line : Utterance) : bool :=
  match text line with
  | Some t => str_truthy t
  | None => false
  end.

(** The f-string of one cue; [i] is the index [enumerate] gave the line. *)
Definition srt_cue (i : nat) (line : Utterance) : string :=
  pretty (i + 1)%nat ++ nl
  ++ srt_subtitles_timecode (inject_Z (start_time line) / 1000) ++ " --> "
  ++ srt_subtitles_timecode (inject_Z (end_time line) / 1000) ++ nl
  ++ default "" (text line).

(** [enumerate(xs)], counting from [start] *)
Fixpoint enumerate_from {A} (start : nat) (xs : list A) : list (nat * A) :=
  match xs with
  | [] => []
  | x :: rest => (start, x) :: enumerate_from (S start) rest
  end.

(** ['\n\n'.join(f'...' for i, line in enumerate(utterances) if line.get('text'))] *)
Definition srt_data (lines : list Utterance) : string :=
  str_join (nl ++ nl)
    (map (fun p => srt_cue (fst p) (snd p))
         (filter (fun p => has_text (snd p) = true) (enumerate_from 0 lines))).

Record Subtitle : Type := mkSubtitle {
  sub_ext : string;
  sub_data : string
}.

(** [subtitles.setdefault(lang, []).append(entry)] *)
Definition subtitles_append (lang : string) (entry : Subtitle)
    (subtitles : gmap string (list Subtitle)) : gmap string (list Subtitle) :=
  <[lang := (default [] (subtitles !! lang) ++ [entry])%list]> subtitles.

Section Subtitles.
Context `{Host}.

(** [traverse_obj(caption, ('url', 'url_list', ...), expected_type=url_or_none,
    get_all=False)]: the first entry that is a URL. *)
Definition caption_url (caption : Caption) : option string :=
  head (omap url_or_none (caption_url_list caption)).

(** The body of [for caption in captions_info]. *)
Definition subtitles_step (aweme_id : string) (caption : Caption)
    (subtitles : gmap string (list Subtitle)) : M (gmap string (list Subtitle)) :=
  match caption_url caption with
  | None => ret subtitles
  | Some u =>
      if negb (str_truthy u) then ret subtitles else
      caption_json <- lift_world (_download_caption_json u aweme_id) ;;
      match caption_json with
      | None => ret subtitles
      | Some cj =>
          match utterances cj with
          | None => raise (EKeyError "utterances")
          | Some lines =>
              ret (subtitles_append (default "en" (language caption))
                     {| sub_ext := "srt"; sub_data := srt_data lines |} subtitles)
          end
      end
  end.

Fixpoint subtitles_loop (aweme_id : string) (captions : list Caption)
    (subtitles : gmap string (list Subtitle)) : M (gmap string (list Subtitle)) :=
  match captions with
  | [] => ret subtitles
  | caption :: rest =>
      subtitles' <- subtitles_step aweme_id caption subtitles ;;
      subtitles_loop aweme_id rest subtitles'
  end.

Definition _get_subtitles (aweme_detail : AwemeDetail) (aweme_id : string)
    : M (gmap string (list Subtitle)) :=
  let captions_info := concat (interaction_stickers aweme_detail) in
  subtitles_loop aweme_id captions_info ∅.

(** Modelled from the spec: [InfoExtractor.extract_subtitles] is host
    code; it runs [_get_subtitles] when subtitles were asked for. *)
Definition extract_subtitles (self : Self) (aweme_detail : AwemeDetail) (aweme_id : string)
    : M (gmap string (list Subtitle)) :=
  if want_subtitles (params self) then _get_subtitles aweme_detail aweme_id else ret ∅.

End Subtitles.


(* ===================================================================== *)
(** ** TikTokBaseIE._parse_aweme_video_app: the format descriptors         *)
(* ===================================================================== *)

(** [TikTokBaseIE.QUALITIES] *)
Definition QUALITIES : list string := ["360p"; "540p"; "720p"; "1080p"].

(** Modelled from the spec: [qualities] of [yt_dlp.utils] is not in src/;
    it ranks a tier by its position in the fixed tier ordering, and a tag
    outside the ordering below all of them. *)
Fixpoint qualities (quality_ids : list string) (qid : string) : Z :=
  match quality_ids with
  | [] => -1
  | q :: rest =>
      if String.eqb q qid then 0
      else let r := qualities rest qid in if Z.ltb r 0 then -1 else r + 1
  end.

(** [s.split('_')] *)
Fixpoint split_underscore (s : string) : list string :=
  match s with
  | EmptyString => [""]
  | String c rest =>
      let segs := split_underscore rest in
      if Ascii.eqb c "_" then "" :: segs
      else match segs with
           | seg :: more => String c seg :: more
           | [] => [String c ""]
           end
  end.

(** The segment holds a ['v'] followed by at least one more character:
    where [v[^_]+_] can start. *)
Fixpoint v_then_more (seg : string) : bool :=
  match seg with
  | EmptyString => false
  | String c rest => (Ascii.eqb c "v" && str_truthy rest) || v_then_more rest
  end.

(** The segment is [\d+p]. *)
Fixpoint is_res (seg : string) : bool :=
  match seg with
  | EmptyString => false
  | String d rest => is_digit d && (String.eqb rest "p" || is_res rest)
  end.

(** The longest prefix of digits: what a greedy [\d+] takes. *)
Fixpoint digit_prefix (seg : string) : string :=
  match seg with
  | EmptyString => ""
  | String d rest => if is_digit d then String d (digit_prefix rest) else ""
  end.

(** The leftmost match of
    [v[^_]+_(?P<id>(?P<codec>[^_]+)_(?P<res>\d+p)_(?P<bitrate>\d+))]
    in a key already split at its underscores, as (codec, res, bitrate):
    no group can hold an underscore, so a match takes four consecutive
    segments. *)
Fixpoint search_url_key (segs : list string) : option (string * string * string) :=
  match segs with
  | [] => None
  | a :: rest =>
      match rest with
      | codec :: res :: bitrate :: _ =>
          if v_then_more a && str_truthy codec && is_res res
             && str_truthy (digit_prefix bitrate)
          then Some (codec, res, digit_prefix bitrate)
          else search_url_key rest
      | _ => None
      end
  end.

(** [int_or_none(v, scale=scale)] of a string of digits *)
Definition int_or_none_str (v : string) (scale : Z) : Z := int_of_digits v / scale.

(** [res[:-1]] *)
Definition drop_last (s : string) : string :=
  String.substring 0 (String.length s - 1) s.

(** A metadata dictionary under construction, and a finished descriptor. *)
Abbreviation Meta := (gmap string Val).
Abbreviation Format := (gmap string Val).

(** [d.get(k)] *)
Definition dict_get (d : Meta) (k : string) : Val := default VNone (d !! k).

(** [d.setdefault(k, v)], as the dictionary it leaves *)
Definition setdefault (k : string) (v : Val) (d : Meta) : Meta :=
  match d !! k with
  | Some _ => d
  | None => <[k := v]> d
  end.

Definition val_of_int (o : option Z) : Val :=
  match o with
  | Some z => VInt z
  | None => VNone
  end.

Definition val_of_str (o : option string) : Val :=
  match o with
  | Some s => VStr s
  | None => VNone
  end.

(** The nested [parse_url_key]. *)
Definition parse_url_key (url_key : string) : Meta * option string :=
  match search_url_key (split_underscore url_key) with
  | None => (∅, None)
  | Some (codec, res, bitrate) =>
      (list_to_map
         [ ("format_id", VStr (codec ++ "_" ++ res ++ "_" ++ bitrate));
           ("vcodec", VStr (if String.eqb codec "bytevc1" then "h265" else codec));
           ("tbr", let t := int_or_none_str bitrate 1000 in
                   if Z.eqb t 0 then VNone else VInt t);
           ("quality", VInt (qualities QUALITIES res)) ],
       Some res)
  end.

(** The table [known_resolutions]: resolution tag to a dictionary with
    ['height'] and ['width']. *)
Abbreviation Known := (gmap string (gmap string Val)).

(** The nested [extract_addr], with the table it closes over passed in
    and out. *)
Definition extract_addr (addr : Addr) (add_meta : Meta) (known_resolutions : Known)
    : list Format * Known :=
  let '(parsed_meta, res) := parse_url_key (default "" (url_key addr)) in
  let '(parsed_meta, add_meta, known_resolutions) :=
    match res with
    | Some r =>
        if str_truthy r then
          let known1 := <[r := setdefault "height" (dict_get add_meta "height")
                                  (default ∅ (known_resolutions !! r))]> known_resolutions in
          let known2 := <[r := setdefault "width" (dict_get add_meta "width")
                                  (default ∅ (known1 !! r))]> known1 in
          (default ∅ (known2 !! r) ∪ parsed_meta,
           setdefault "height" (VInt (int_or_none_str (drop_last r) 1)) add_meta,
           known2)
        else (parsed_meta, add_meta, known_resolutions)
    | None => (parsed_meta, add_meta, known_resolutions)
    end in
  (map (fun url =>
          let api := str_contains "aweme/v1" url in
          <["format_note" :=
              VStr (join_nonempty
                      [ match dict_get add_meta "format_note" with
                        | VStr s => Some s
                        | _ => None
                        end;
                        if api then Some "(API)" else None ] " ")]>
            (parsed_meta ∪ (add_meta ∪
               list_to_map
                 [ ("url", VStr url);
                   ("filesize", val_of_int (data_size addr));
                   ("ext", VStr "mp4");
                   ("acodec", VStr "aac");
                   ("source_preference", VInt (if api then -2 else -1)) ])))
       (url_list addr),
   known_resolutions).

(** [traverse_obj(d, 'is_bytevc1', 'is_h265')]: the first of the two keys
    that holds a value, as its truthiness. *)
Definition first_codec_flag (bytevc1 h265 : option bool) : bool :=
  match bytevc1 with
  | Some b => b
  | None => default false h265
  end.

(** The calls of [extract_addr] that [_parse_aweme_video_app] makes, in
    program order, each as the address and the [add_meta] it passes. *)
Definition stream_slots (video_info : VideoInfo) : list (Addr * Meta) :=
  (match play_addr video_info with
   | Some addr =>
       [(addr, list_to_map
                 [ ("format_id", VStr "play_addr");
                   ("format_note", VStr "Direct video");
                   ("vcodec", VStr (if first_codec_flag (is_bytevc1 video_info) (is_h265 video_info)
                                    then "h265" else "h264"));
                   ("width", val_of_int (width video_info));
                   ("height", val_of_int (height video_info)) ])]
   | None => []
   end
   ++
   match download_addr video_info with
   | Some addr =>
       [(addr, list_to_map
                 [ ("format_id", VStr "download_addr");
                   ("format_note", VStr ("Download video"
                                         ++ if has_watermark video_info then ", watermarked" else ""));
                   ("vcodec", VStr "h264");
                   ("width", val_of_int (width video_info));
                   ("height", val_of_int (height video_info));
                   ("preference", VInt (if has_watermark video_info then -2 else -1)) ])]
   | None => []
   end
   ++
   match play_addr_h264 video_info with
   | Some addr =>
       [(addr, list_to_map
                 [ ("format_id", VStr "play_addr_h264");
                   ("format_note", VStr "Direct video");
                   ("vcodec", VStr "h264") ])]
   | None => []
   end
   ++
   match play_addr_bytevc1 video_info with
   | Some addr =>
       [(addr, list_to_map
                 [ ("format_id", VStr "play_addr_bytevc1");
                   ("format_note", VStr "Direct video");
                   ("vcodec", VStr "h265") ])]
   | None => []
   end
   ++
   omap (fun bitrate =>
           match br_play_addr bitrate with
           | Some addr =>
               Some (addr, list_to_map
                             [ ("format_id", val_of_str (br_gear_name bitrate));
                               ("format_note", VStr "Playback video");
                               ("tbr", match br_bit_rate bitrate with
                                       | Some b => VNum (inject_Z b / 1000)
                                       | None => VNone
                                       end);
                               ("vcodec", VStr (if first_codec_flag (br_is_bytevc1 bitrate)
                                                     (br_is_h265 bitrate)
                                                then "h265" else "h264"));
                               ("fps", val_of_int (br_FPS bitrate)) ])
           | None => None
           end)
        (bit_rate video_info))%list.

(** [formats.extend(extract_addr(...))] over the slots, threading the
    table; the result keeps the descriptors of each slot apart. *)
Fixpoint extract_slots (slots : list (Addr * Meta)) (known_resolutions : Known)
    : list (list Format) :=
  match slots with
  | [] => []
  | (addr, add_meta) :: rest =>
      let (fs, known') := extract_addr addr add_meta known_resolutions in
      fs :: extract_slots rest known'
  end.

(** [formats] as it stands before [_remove_duplicate_formats]. *)
Definition extracted_formats (video_info : VideoInfo) : list Format :=
  concat (extract_slots (stream_slots video_info) ∅).



(* ===================================================================== *)
(** ** Removing duplicates and ranking                                     *)
(* ===================================================================== *)

(** A number held by a descriptor field, when it holds one. *)
Definition num_of_val (v : Val) : option Q :=
  match v with
  | VInt z => Some (inject_Z z)
  | VNum q => Some q
  | _ => None
  end.

Definition str_of_val (v : Val) : option string :=
  match v with
  | VStr s => Some s
  | _ => None
  end.

(** Comparing two optional numbers; an absent one ranks lowest. *)
Definition cmp_oq (a b : option Q) : comparison :=
  match a, b with
  | None, None => Eq
  | None, Some _ => Lt
  | Some _, None => Gt
  | Some x, Some y => (x ?= y)%Q
  end.

(** Lexicographic comparison of two rows of optional numbers. *)
Fixpoint cmp_lex (a b : list (option Q)) : comparison :=
  match a, b with
  | [], [] => Eq
  | [], _ :: _ => Lt
  | _ :: _, [] => Gt
  | x :: a', y :: b' =>
      match cmp_oq x y with
      | Eq => cmp_lex a' b'
      | c => c
      end
  end.

Definition f_tier (f : Format) : option Q := num_of_val (dict_get f "quality").
Definition f_codec (f : Format) : option string := str_of_val (dict_get f "vcodec").
Definition f_size (f : Format) : option Q := num_of_val (dict_get f "filesize").
Definition f_bitrate (f : Format) : option Q := num_of_val (dict_get f "tbr").

(** Two descriptors look identical: they agree on tier, codec, size and
    bitrate. *)
Definition same_key (f g : Format) : bool :=
  match cmp_oq (f_tier f) (f_tier g), cmp_oq (f_size f) (f_size g),
        cmp_oq (f_bitrate f) (f_bitrate g) with
  | Eq, Eq, Eq => bool_decide (f_codec f = f_codec g)
  | _, _, _ => false
  end.

(** Modelled from the spec: [InfoExtractor._remove_duplicate_formats] is
    host code, not in src/.  Descriptors that look identical (by tier,
    codec, size and bitrate) collapse to the one met first; the caller's
    comment relies on the first one being kept. *)
Fixpoint _remove_duplicate_formats (formats : list Format) : list Format :=
  match formats with
  | [] => []
  | f :: rest =>
      f :: filter (fun g => same_key f g = false) (_remove_duplicate_formats rest)
  end.

Section Sorting.
Context `{Host}.

(** The row a descriptor is ranked by under the field order
    [('quality', 'codec', 'size', 'br')]. *)
Definition sort_key (f : Format) : list (option Q) :=
  [ f_tier f; Some (inject_Z (codec_preference (f_codec f))); f_size f; f_bitrate f ].

Definition format_leb (f g : Format) : bool :=
  match cmp_lex (sort_key f) (sort_key g) with
  | Gt => false
  | _ => true
  end.

Fixpoint insert_format (f : Format) (sorted : list Format) : list Format :=
  match sorted with
  | [] => [f]
  | g :: rest => if format_leb f g then f :: g :: rest else g :: insert_format f rest
  end.

(** Modelled from the spec: [InfoExtractor._sort_formats] is host code,
    not in src/.  A stable sort, ascending by quality tier, then codec
    preference, then byte size, then bitrate. *)
Fixpoint _sort_formats (formats : list Format) : list Format :=
  match formats with
  | [] => []
  | f :: rest => insert_format f (_sort_formats rest)
  end.

End Sorting.

(* ===================================================================== *)
(** ** Thumbnails and track attribution                                    *)
(* ===================================================================== *)

Definition cover_ids : list string :=
  [ "cover"; "ai_dynamic_cover"; "animated_cover"; "ai_dynamic_cover_bak";
    "origin_cover"; "dynamic_cover" ].

(** [video_info.get(cover_id)] *)
Definition video_get_cover (video_info : VideoInfo) (cover_id : string) : option Cover :=
  if String.eqb cover_id "cover" then cover video_info
  else if String.eqb cover_id "ai_dynamic_cover" then ai_dynamic_cover video_info
  else if String.eqb cover_id "animated_cover" then animated_cover video_info
  else if String.eqb cover_id "ai_dynamic_cover_bak" then ai_dynamic_cover_bak video_info
  else if String.eqb cover_id "origin_cover" then origin_cover video_info
  else if String.eqb cover_id "dynamic_cover" then dynamic_cover video_info
  else None.

Record Thumbnail : Type := mkThumbnail {
  thumb_id : string;
  thumb_url : string
}.

(** The two nested loops that fill [thumbnails]. *)
Definition thumbnails_of (video_info : VideoInfo) : list Thumbnail :=
  flat_map
    (fun cover_id =>
       match video_get_cover video_info cover_id with
       | Some c => map (fun cover_url => {| thumb_id := cover_id; thumb_url := cover_url |})
                       (cover_url_list c)
       | None => []
       end)
    cover_ids.

(** Modelled from the spec: [traverse_obj] of [yt_dlp.utils] is not in
    src/; over several paths it gives the value of the first path that
    leads to one of the expected type. *)
Definition traverse_first {A} (paths : list (option A)) : option A :=
  head (omap id paths).

Definition contained_music_track (music_info : MusicInfo) : option string :=
  traverse_first [ matched_song music_info ≫= ms_title;
                   matched_pgc_sound music_info ≫= ms_title ].

Definition contained_music_author (music_info : MusicInfo) : option string :=
  traverse_first [ matched_song music_info ≫= ms_author;
                   matched_pgc_sound music_info ≫= ms_author;
                   music_author music_info ].

(** [str(x)] of an optional string, as [%s] formats it *)
Definition percent_s (o : option string) : string := default "None" o.

Definition is_generic_og_trackname (music_info : MusicInfo) : bool :=
  is_original_sound music_info
  && bool_decide (music_title music_info
                  = Some ("original sound - " ++ percent_s (owner_handle music_info))).

(** [x or y] where [x] is a string or [None] *)
Definition str_or (x : option string) (y : option string) : option string :=
  match x with
  | Some s => if str_truthy s then Some s else y
  | None => y
  end.

(** ([music_track], [music_author]) *)
Definition music_track_author (music_info : MusicInfo) : option string * option string :=
  if is_generic_og_trackname music_info
  then (str_or (contained_music_track music_info) (Some "original sound"),
        contained_music_author music_info)
  else (music_title music_info, music_author music_info).

(** The ['track'] and ['artist'] entries of the returned dictionary. *)
Definition info_track_of (music_info : MusicInfo) : option string :=
  fst (music_track_author music_info).

Definition info_artist_of (music_info : MusicInfo) : option string :=
  str_or (snd (music_track_author music_info)) None.


(* ===================================================================== *)
(** ** TikTokBaseIE._parse_aweme_video_app                                 *)
(* ===================================================================== *)

(** The entries of the returned dictionary that the development follows
    (counters, uploader fields, timestamps and availability are left out). *)
Record InfoDict : Type := mkInfoDict {
  info_id : string;
  info_extractor_key : string;
  info_extractor : string;
  info_webpage_url : string;
  info_title : option string;
  info_description : option string;
  info_track : option string;
  info_artist : option string;
  info_formats : list Format;
  info_subtitles : gmap string (list Subtitle);
  info_thumbnails : list Thumbnail
}.

(** [TikTokBaseIE._create_url] *)
Definition _create_url (user_id : option string) (video_id : string) : string :=
  "https://www.tiktok.com/@" ++ default "_" (str_or user_id None) ++ "/video/" ++ video_id.

(** [TikTokIE.ie_key()] and [TikTokIE.IE_NAME] *)
Definition TikTokIE_ie_key : string := "TikTok".
Definition TikTokIE_IE_NAME : string := "TikTok".

Section ParseApp.
Context `{Host}.

(** [for f in formats: self._set_cookie(hostname of f['url'], 'sid_tt', value)] *)
Fixpoint mirror_auth_cookie (value : string) (formats : list Format) : M unit :=
  match formats with
  | [] => ret tt
  | f :: rest =>
      lift_world (fun w =>
        (tt, _set_cookie (url_hostname (default "" (str_of_val (dict_get f "url"))))
                         "sid_tt" value w)) ;;;
      mirror_auth_cookie value rest
  end.

(** The format list [_parse_aweme_video_app] ends with. *)
Definition reconciled_formats (video_info : VideoInfo) : list Format :=
  _sort_formats (_remove_duplicate_formats (extracted_formats video_info)).

Definition _parse_aweme_video_app (self : Self) (aweme_detail : AwemeDetail) : M InfoDict :=
  let aweme_id := aweme_id aweme_detail in
  let video_info := video aweme_detail in
  let formats := _remove_duplicate_formats (extracted_formats video_info) in
  auth_cookie <- lift_world (fun w => (_get_cookie (_WEBPAGE_HOST (cls self)) "sid_tt" w, w)) ;;
  match auth_cookie with
  | Some value => mirror_auth_cookie value formats
  | None => ret tt
  end ;;;
  let formats := _sort_formats formats in
  let thumbnails := thumbnails_of video_info in
  let music_info := music aweme_detail in
  subtitles <- extract_subtitles self aweme_detail aweme_id ;;
  ret {| info_id := aweme_id;
         info_extractor_key := TikTokIE_ie_key;
         info_extractor := TikTokIE_IE_NAME;
         info_webpage_url := _create_url (author_uid aweme_detail) aweme_id;
         info_title := desc aweme_detail;
         info_description := desc aweme_detail;
         info_track := info_track_of music_info;
         info_artist := info_artist_of music_info;
         info_formats := formats;
         info_subtitles := subtitles;
         info_thumbnails := thumbnails |}.

End ParseApp.

(* ===================================================================== *)
(** ** TikTokBaseListIE._entries                                           *)
(* ===================================================================== *)

(** How a run of the generator ends: it is exhausted, it raised, or the
    run was cut while it could still go on. *)
Inductive Ending : Type :=
  | Exhausted
  | Raised (e : Exn)
  | Unfinished.

Section Entries.
Context `{Host}.

(** A generator run to its end: what it yielded, how it ended, and the
    state it left. *)
Definition Gen : Type := State -> list InfoDict * Ending * State.

(** What [_entries] yields for one [video]. *)
Definition entry_of (self : Self) (video : AwemeDetail) : M InfoDict :=
  info <- _parse_aweme_video_app self video ;;
  ret {| info_id := info_id info;
         info_extractor_key := TikTokIE_ie_key;
         info_extractor := "TikTok";
         info_webpage_url := "https://tiktok.com/@_/video/" ++ aweme_id video;
         info_title := info_title info;
         info_description := info_description info;
         info_track := info_track info;
         info_artist := info_artist info;
         info_formats := info_formats info;
         info_subtitles := info_subtitles info;
         info_thumbnails := info_thumbnails info |}.

(** [for video in post_list.get('aweme_list', []): yield {...}]: the
    entries yielded, and the exception that cut the loop if one did. *)
Fixpoint yield_entries (self : Self) (videos : list AwemeDetail)
    : State -> list InfoDict * option Exn * State := fun s =>
  match videos with
  | [] => ([], None, s)
  | video :: rest =>
      match entry_of self video s with
      | (Return info, s') =>
          let '(more, e, s'') := yield_entries self rest s' in
          (info :: more, e, s'')
      | (Raise e, s') => ([], Some e, s')
      end
  end.

Definition page_args (self : Self) (display_id : string) (page : nat)
    (query : gmap string Val) : CallArgs :=
  {| call_ep := _API_ENDPOINT (cls self);
     call_query := query;
     call_video_id := display_id;
     call_fatal := true;
     call_note := "Downloading video list page " ++ pretty page;
     call_errnote := "Unable to download video list" |}.

(** The loop [for page in itertools.count(1)] from page [page] on.  One
    unit of [fuel] pays for one call of [_call_api].

    Modelled from the spec: [RetryManager] is host code, not in src/; on
    the empty-body failure it runs the same page again, with no counter of
    its own. *)
Fixpoint entries_from (fuel : nat) (self : Self) (display_id : string) (page : nat)
    (query : gmap string Val) : Gen := fun s =>
  match fuel with
  | O => ([], Unfinished, s)
  | S fuel' =>
      match _call_api self (page_args self display_id page query) s with
      | (Raise (EExtractorError e), s') =>
          if is_json_error_at_0 e
          then entries_from fuel' self display_id page query s'
          else ([], Raised (EExtractorError e), s')
      | (Raise e, s') => ([], Raised e, s')
      | (Return None, s') => ([], Raised (EOtherError "AttributeError"), s')
      | (Return (Some post_list), s') =>
          match yield_entries self (aweme_list post_list) s' with
          | (infos, Some e, s'') => (infos, Raised e, s'')
          | (infos, None, s'') =>
              if negb (has_more post_list) then (infos, Exhausted, s'')
              else
                match cursor post_list with
                | None => (infos, Raised (EKeyError "cursor"), s'')
                | Some c =>
                    let '(more, ending, s3) :=
                      entries_from fuel' self display_id (S page)
                                   (<["cursor" := c]> query) s'' in
                    ((infos ++ more)%list, ending, s3)
                end
          end
      end
  end.

(** The first [query] of [_entries]. *)
Definition first_query (self : Self) (list_id : string) (device_id : string)
    : gmap string Val :=
  list_to_map [ (_QUERY_NAME (cls self), VStr list_id);
                ("cursor", VInt 0);
                ("count", VInt 20);
                ("type", VInt 5);
                ("device_id", VStr device_id) ].

Definition _entries (fuel : nat) (self : Self) (list_id display_id : string) : Gen := fun s =>
  match random_string string_digits 19 s with
  | (Return device_id, s') =>
      entries_from fuel self display_id 1 (first_query self list_id device_id) s'
  | (Raise e, s') => ([], Raised e, s')
  end.

End Entries.

(* ===================================================================== *)
(** ** TikTokVMIE                                                          *)
(* ===================================================================== *)

(** [\w], on ASCII *)
Definition is_word_char (c : ascii) : bool :=
  let n := nat_of_ascii c in
  ((48 <=? n) && (n <=? 57) || (65 <=? n) && (n <=? 90)
   || (97 <=? n) && (n <=? 122) || (n =? 95))%nat.

(** The longest prefix of word characters: what a greedy [\w+] takes. *)
Fixpoint word_prefix (s : string) : string :=
  match s with
  | EmptyString => ""
  | String c rest => if is_word_char c then String c (word_prefix rest) else ""
  end.

(** [s] without the prefix [p], when it starts with it *)
Definition strip_prefix (p s : string) : option string :=
  if String.prefix p s
  then Some (String.substring (String.length p) (String.length s - String.length p) s)
  else None.

(** [re.match(TikTokVMIE._VALID_URL, url)], with
    [_VALID_URL = r'https?://(?:vm|vt)\.tiktok\.com/(?P<id>\w+)']:
    the identifier matched, if the pattern matches at the start. *)
Definition vm_match_valid_url (url : string) : option string :=
  after_http ← strip_prefix "http" url;
  after_scheme ← match strip_prefix "s://" after_http with
                 | Some r => Some r
                 | None => strip_prefix "://" after_http
                 end;
  after_sub ← match strip_prefix "vm" after_scheme with
              | Some r => Some r
              | None => strip_prefix "vt" after_scheme
              end;
  after_host ← strip_prefix ".tiktok.com/" after_sub;
  match after_host with
  | String c _ =>
      if is_word_char c
      then Some (word_prefix after_host)
      else None
  | EmptyString => None
  end.

(** Modelled from the spec: [InfoExtractor.suitable] is host code; an
    extractor is suitable for the URLs its [_VALID_URL] matches. *)
Definition vm_suitable (url : string) : bool :=
  match vm_match_valid_url url with
  | Some _ => true
  | None => false
  end.

(** [self.url_result(new_url)] *)
Record UrlResult : Type := mkUrlResult {
  result_url : string
}.

Section ShortLink.
Context `{Host}.

(** [TikTokVMIE._real_extract]; [_match_id] fails on a URL the pattern
    does not match. *)
Definition vm_real_extract (url : string) : M UrlResult :=
  match vm_match_valid_url url with
  | None => raise (EOtherError "AttributeError")
  | Some _ =>
      new_url <- lift_world_result (_head_geturl url) ;;
      if vm_suitable new_url then raise (EUnsupportedError new_url)
      else ret {| result_url := new_url |}
  end.

End ShortLink.



(* ===================================================================== *)
(** ** A scripted host                                                     *)
(* ===================================================================== *)

(** A host that answers from prepared lists: each request takes the next
    reply of its kind.  It keeps the cookies it is given. *)
Record Script : Type := mkScript {
  api_replies : list (pyresult (option ApiJson));
  caption_replies : list (option CaptionJson);
  head_replies : list (pyresult string);
  cookie_jar : list (string * string * string)
}.

Definition scripted_download_json (r : ApiRequest) (w : Script)
    : pyresult (option ApiJson) * Script :=
  match api_replies w with
  | reply :: rest =>
      (reply, {| api_replies := rest; caption_replies := caption_replies w;
                 head_replies := head_replies w; cookie_jar := cookie_jar w |})
  | [] => (Raise (EOtherError "connection refused"), w)
  end.

Definition scripted_download_caption (u aweme_id : string) (w : Script)
    : option CaptionJson * Script :=
  match caption_replies w with
  | reply :: rest =>
      (reply, {| api_replies := api_replies w; caption_replies := rest;
                 head_replies := head_replies w; cookie_jar := cookie_jar w |})
  | [] => (None, w)
  end.

Definition scripted_head (u : string) (w : Script) : pyresult string * Script :=
  match head_replies w with
  | reply :: rest =>
      (reply, {| api_replies := api_replies w; caption_replies := caption_replies w;
                 head_replies := rest; cookie_jar := cookie_jar w |})
  | [] => (Raise (EOtherError "connection refused"), w)
  end.

Definition scripted_set_cookie (host name value : string) (w : Script) : Script :=
  {| api_replies := api_replies w; caption_replies := caption_replies w;
     head_replies := head_replies w;
     cookie_jar := (host, name, value) :: cookie_jar w |}.

Definition scripted_get_cookie (host name : string) (w : Script) : option string :=
  snd <$> head (filter (fun c => fst c = (host, name)) (cookie_jar w)).

Definition scripted_random_choice (alphabet : string) (w : Script) : ascii * Script :=
  (match alphabet with
   | String c _ => c
   | EmptyString => "0"%char
   end, w).

#[local] Instance scripted_host : Host := {|
  World := Script;
  _download_json := scripted_download_json;
  _download_caption_json := scripted_download_caption;
  _head_geturl := scripted_head;
  _set_cookie := scripted_set_cookie;
  _get_cookie := scripted_get_cookie;
  random_choice := scripted_random_choice;
  time_time := fun w => (1667000000 # 1, w)%Q;
  url_hostname := fun u => u;
  url_or_none := fun u => if String.prefix "http" u then Some u else None;
  codec_preference := fun c => match c with
                               | Some "h265" => 2
                               | Some "h264" => 1
                               | _ => 0
                               end
|}.

(** The class attributes of [TikTokIE] and of [TikTokSoundIE]. *)
Definition TikTokIE_class : IEClass :=
  {| _APP_VERSIONS := [ ("26.1.3", "260103"); ("26.1.2", "260102");
                        ("26.1.1", "260101"); ("25.6.2", "250602") ];
     _APP_NAME := "trill";
     _AID := 1180;
     _API_HOSTNAME := "api-h2.tiktokv.com";
     _UPLOADER_URL_FORMAT := "https://www.tiktok.com/@%s";
     _WEBPAGE_HOST := "https://www.tiktok.com/";
     _QUERY_NAME := "";
     _API_ENDPOINT := "" |}.

Definition TikTokSoundIE_class : IEClass :=
  {| _APP_VERSIONS := _APP_VERSIONS TikTokIE_class;
     _APP_NAME := _APP_NAME TikTokIE_class;
     _AID := _AID TikTokIE_class;
     _API_HOSTNAME := _API_HOSTNAME TikTokIE_class;
     _UPLOADER_URL_FORMAT := _UPLOADER_URL_FORMAT TikTokIE_class;
     _WEBPAGE_HOST := _WEBPAGE_HOST TikTokIE_class;
     _QUERY_NAME := "music_id";
     _API_ENDPOINT := "music/aweme" |}.

Definition no_override : Params :=
  {| arg_app_version := ""; arg_manifest_app_version := ""; want_subtitles := false |}.

(** Two extractor objects of one process. *)
Definition tiktok_ie : Self := {| oid := 1; cls := TikTokIE_class; params := no_override |}.
Definition tiktok_sound_ie : Self :=
  {| oid := 2; cls := TikTokSoundIE_class; params := no_override |}.

Definition empty_body : pyresult (option ApiJson) :=
  Raise (EExtractorError
           {| msg := "Failed to parse JSON";
              cause := Some (JSONDecodeError "Expecting value: line 1 column 1 (char 0)" 0) |}).

Definition empty_page : ApiJson := {| aweme_list := []; has_more := false; cursor := None |}.

Definition feed_args : CallArgs :=
  {| call_ep := "feed"; call_query := {[ "aweme_id" := VStr "7023491746608712966" ]};
     call_video_id := "7023491746608712966"; call_fatal := true;
     call_note := "Downloading video feed"; call_errnote := "Unable to download video feed" |}.

Definition start_state (w : Script) : State :=
  {| world := w; objects := ∅; events := [] |}.

(** The requests of a trace, and the candidate a request was built with. *)
Definition requests_of (evs : list Event) : list ApiRequest :=
  omap (fun ev => match ev with
                  | EvRequest r => Some r
                  | _ => None
                  end) evs.

Definition version_of_query (q : gmap string Val) : option AppVersion :=
  match q !! "version_name", q !! "manifest_version_code" with
  | Some (VStr a), Some (VStr m) => Some (a, m)
  | _, _ => None
  end.

Definition version_of_request (r : ApiRequest) : option AppVersion :=
  version_of_query (req_query r).


(* ===================================================================== *)
(** ** Vocabulary of the statements                                        *)
(* ===================================================================== *)

Definition is_lone_warning (ev : Event) : bool :=
  match ev with
  | EvWarning m true => String.eqb m lone_override_warning
  | _ => false
  end.

(** How often the lone-override warning was printed. *)
Definition lone_warnings (evs : list Event) : nat :=
  length (filter (fun ev => is_lone_warning ev = true) evs).

Section Vocabulary.
Context `{Host}.

(** The host's answer to the call built for candidate [v] when asked in
    world [w], and the world that call leaves. *)
Definition answer (self : Self) (a : CallArgs) (v : AppVersion) (w : World)
    : pyresult (option ApiJson) * World :=
  let (res, s') := attempt self a v {| world := w; objects := ∅; events := [] |} in
  (res, world s').

(** Asked one after the other from world [w], every candidate of [cands]
    is answered with a JSON decode error at position 0; the world left. *)
Fixpoint all_rejected (self : Self) (a : CallArgs) (cands : list AppVersion) (w : World)
    : option World :=
  match cands with
  | [] => Some w
  | v :: rest =>
      match answer self a v w with
      | (Raise (EExtractorError e), w') =>
          if is_json_error_at_0 e then all_rejected self a rest w' else None
      | _ => None
      end
  end.

(** A sequence of calls through one extractor object, results dropped. *)
Fixpoint run_calls (self : Self) (calls : list CallArgs) (s : State) : State :=
  match calls with
  | [] => s
  | a :: rest => run_calls self rest (snd (_call_api self a s))
  end.

(** The object [self] with no override argument passed. *)
Definition without_override (self : Self) : Self :=
  {| oid := oid self; cls := cls self;
     params := {| arg_app_version := ""; arg_manifest_app_version := "";
                  want_subtitles := want_subtitles (params self) |} |}.

(** Both override arguments were passed / exactly one was. *)
Definition both_overrides (self : Self) : bool :=
  str_truthy (arg_app_version (params self))
  && str_truthy (arg_manifest_app_version (params self)).

Definition lone_override (self : Self) : bool :=
  negb (both_overrides self)
  && (str_truthy (arg_app_version (params self))
      || str_truthy (arg_manifest_app_version (params self))).

(** The candidate a call through [self] finds pinned: the one an earlier
    call left on the object, else the operator's pair when both override
    arguments are passed. *)
Definition pinned_for_call (self : Self) (s : State) : option AppVersion :=
  match inst_WORKING_APP_VERSION (instance_of self s) with
  | Some v => Some v
  | None =>
      if both_overrides self
      then Some (arg_app_version (params self), arg_manifest_app_version (params self))
      else None
  end.

(** An action that returns, changes nothing but the world, and whose
    outcome depends on nothing but the world. *)
Definition quiet {A} (P : A -> Prop) (m : M A) : Prop :=
  forall s, exists a w',
    P a /\ forall s2, world s2 = world s ->
             m s2 = (Return a, {| world := w'; objects := objects s2; events := events s2 |}).

(** An action that issues exactly one API request, built for candidate
    [v], and ends as the host answers it. *)
Definition one_request (v : AppVersion) (fatal : bool) (m : M (option ApiJson)) : Prop :=
  forall s, exists r w1,
    version_of_request r = Some v /\ req_fatal r = fatal /\
    forall s2, world s2 = world s ->
      m s2 = (fst (_download_json r w1),
              {| world := snd (_download_json r w1); objects := objects s2;
                 events := events s2 ++ [EvRequest r] |}).

(** The objects after a call pinned [pin] (if it pinned anything). *)
Definition pin_objects (self : Self) (pin : option AppVersion) (s : State)
    : gmap nat Instance :=
  match pin with
  | Some v => <[oid self := {| inst_WORKING_APP_VERSION := Some v;
                               inst_printed_messages :=
                                 inst_printed_messages (instance_of self s) |}]> (objects s)
  | None => objects s
  end.

End Vocabulary.

(** Scripts for the scenarios of the negotiator. *)
Definition script_of (replies : list (pyresult (option ApiJson))) : Script :=
  {| api_replies := replies; caption_replies := []; head_replies := []; cookie_jar := [] |}.

Definition lone_override_ie : Self :=
  {| oid := 1; cls := TikTokIE_class;
     params := {| arg_app_version := "27.0.0"; arg_manifest_app_version := "";
                  want_subtitles := false |} |}.

(** The author of the cross-referenced song, when the music info names one. *)
Definition matched_song_author (music_info : MusicInfo) : option string :=
  traverse_first [ matched_song music_info ≫= ms_author;
                   matched_pgc_sound music_info ≫= ms_author ].

(** A string that is present and not empty. *)
Definition nonempty (o : option string) : option string := str_or o None.

(** The thumbnails one cover field contributes. *)
Definition field_thumbnails (cover_id : string) (c : option Cover) : list Thumbnail :=
  match c with
  | Some c => map (fun u => {| thumb_id := cover_id; thumb_url := u |}) (cover_url_list c)
  | None => []
  end.

(** The first cover field of the priority list that is available. *)
Definition first_available_cover (video_info : VideoInfo) : option (string * Cover) :=
  head (omap (fun cover_id => pair cover_id <$> video_get_cover video_info cover_id) cover_ids).

(** The thumbnail list as the sentence of the specification words it: the
    first available field wins, and all of its URLs are included. *)
Definition thumbnails_first_wins (video_info : VideoInfo) : list Thumbnail :=
  match first_available_cover video_info with
  | Some (cover_id, c) => field_thumbnails cover_id (Some c)
  | None => []
  end.

Definition no_covers_video : VideoInfo :=
  {| play_addr := None; download_addr := None; play_addr_h264 := None;
     play_addr_bytevc1 := None; bit_rate := []; is_bytevc1 := None; is_h265 := None;
     width := None; height := None; has_watermark := false;
     cover := None; ai_dynamic_cover := None; animated_cover := None;
     ai_dynamic_cover_bak := None; origin_cover := None; dynamic_cover := None |}.

(** A video with a static cover and an origin cover. *)
Definition two_covers_video : VideoInfo :=
  {| play_addr := None; download_addr := None; play_addr_h264 := None;
     play_addr_bytevc1 := None; bit_rate := []; is_bytevc1 := None; is_h265 := None;
     width := None; height := None; has_watermark := false;
     cover := Some {| cover_url_list := ["https://p16.example/cover.jpeg"] |};
     ai_dynamic_cover := None; animated_cover := None; ai_dynamic_cover_bak := None;
     origin_cover := Some {| cover_url_list := ["https://p16.example/origin.jpeg"] |};
     dynamic_cover := None |}.

(** The music info of an original sound with no matched song. *)
Definition pokemon_sound : MusicInfo :=
  {| is_original_sound := true;
     music_title := Some "original sound - pokemonlife22";
     owner_handle := Some "pokemonlife22";
     music_author := Some "Pokemon";
     matched_song := None;
     matched_pgc_sound := None |}.

Definition alice_sound : MusicInfo :=
  {| is_original_sound := true;
     music_title := Some "original sound - alice";
     owner_handle := Some "alice";
     music_author := None;
     matched_song := Some {| ms_title := Some "Real Song"; ms_author := Some "Bob" |};
     matched_pgc_sound := None |}.

Definition head_script (replies : list (pyresult string)) : Script :=
  {| api_replies := []; caption_replies := []; head_replies := replies; cookie_jar := [] |}.

Definition caption_script (replies : list (option CaptionJson)) : Script :=
  {| api_replies := []; caption_replies := replies; head_replies := []; cookie_jar := [] |}.

(** The resolution tag [parse_url_key] reads off the address of a slot. *)
Definition slot_tag (slot : Addr * Meta) : option string :=
  snd (parse_url_key (default "" (url_key (fst slot)))).

(** (height, width) as a table entry, an [add_meta] and a descriptor hold
    them. *)
Definition table_dims (known : Known) (r : string) : option (Val * Val) :=
  d ← known !! r; h ← d !! "height"; w ← d !! "width"; Some (h, w).

Definition meta_dims (m : Meta) : Val * Val := (dict_get m "height", dict_get m "width").

(** Every entry of the table has both dimensions and nothing about the
    quality, as every entry made by [extract_addr] does. *)
Definition table_ok (known : Known) : Prop :=
  forall r d, known !! r = Some d ->
    is_Some (d !! "height") /\ is_Some (d !! "width") /\ d !! "quality" = None.

(** The dimensions passed with the first slot that carries the tag [r]. *)
Fixpoint first_dims (slots : list (Addr * Meta)) (r : string) : option (Val * Val) :=
  match slots with
  | [] => None
  | slot :: rest =>
      if bool_decide (slot_tag slot = Some r) then Some (meta_dims (snd slot))
      else first_dims rest r
  end.

(** A video whose direct address and whose one ladder entry share the
    tag [540p]; only the video itself states its dimensions. *)
Definition ladder_video : VideoInfo :=
  {| play_addr := Some {| url_key := Some "v09044g40000c6a1b2c3_h264_540p_812345";
                          url_list := ["https://v16.example/play"];
                          data_size := Some 1500000 |};
     download_addr := None; play_addr_h264 := None; play_addr_bytevc1 := None;
     bit_rate := [ {| br_play_addr :=
                        Some {| url_key := Some "v09044g40000c6a1b2c3_bytevc1_540p_412345";
                                url_list := ["https://v16.example/ladder"];
                                data_size := Some 800000 |};
                      br_gear_name := Some "adapt_540"; br_bit_rate := Some 412345;
                      br_is_bytevc1 := Some true; br_is_h265 := None; br_FPS := Some 30 |} ];
     is_bytevc1 := None; is_h265 := None;
     width := Some 576; height := Some 1024; has_watermark := false;
     cover := None; ai_dynamic_cover := None; animated_cover := None;
     ai_dynamic_cover_bak := None; origin_cover := None; dynamic_cover := None |}.

(** Two descriptors rank the same. *)
Definition same_rank `{Host} (f g : Format) : bool :=
  match cmp_lex (sort_key f) (sort_key g) with
  | Eq => true
  | _ => false
  end.

(** What an entry yielded for [video] must hold, whatever the host did
    meanwhile. *)
Definition entry_matches `{Host} (info : InfoDict) (item : AwemeDetail) : Prop :=
  info_id info = aweme_id item
  /\ info_webpage_url info = "https://tiktok.com/@_/video/" ++ aweme_id item
  /\ info_extractor_key info = "TikTok"
  /\ info_formats info = reconciled_formats (video item)
  /\ info_thumbnails info = thumbnails_of (video item)
  /\ info_track info = info_track_of (music item)
  /\ info_artist info = info_artist_of (music item).

Section Pagination.
Context `{Host}.

(** A session in which the page calls of the driver, from page [page] with
    query [query] on, are answered with the pages [pages], the last of
    which, and only the last, reports no more pages: each page call returns
    its page, every item of the page is reconciled, and the next page is
    asked for with the cursor the response gave.  The relation also names
    the entries the items give and the state after the last of them. *)
Inductive pages_served (self : Self) (display_id : string)
    : nat -> gmap string Val -> State -> list ApiJson -> list InfoDict -> State -> Prop :=
  | served_last page query s p s1 infos s2 :
      _call_api self (page_args self display_id page query) s = (Return (Some p), s1) ->
      yield_entries self (aweme_list p) s1 = (infos, None, s2) ->
      has_more p = false ->
      pages_served self display_id page query s [p] infos s2
  | served_more page query s p s1 infos s2 c rest more s3 :
      _call_api self (page_args self display_id page query) s = (Return (Some p), s1) ->
      yield_entries self (aweme_list p) s1 = (infos, None, s2) ->
      has_more p = true ->
      cursor p = Some c ->
      pages_served self display_id (S page) (<["cursor" := c]> query) s2 rest more s3 ->
      pages_served self display_id page query s (p :: rest) (infos ++ more)%list s3.

End Pagination.

(** Two pages of one item each, and a third the driver must not ask for. *)
Definition plain_item (id : string) : AwemeDetail :=
  {| aweme_id := id; video := two_covers_video; music := pokemon_sound;
     author_uid := Some "6820838815978423302"; desc := Some "";
     interaction_stickers := [] |}.

Definition page_one : ApiJson :=
  {| aweme_list := [plain_item "7059698374567611694"]; has_more := true;
     cursor := Some (VInt 20) |}.

Definition page_two : ApiJson :=
  {| aweme_list := [plain_item "7059698374567611695"]; has_more := false;
     cursor := Some (VInt 40) |}.

Definition page_three : ApiJson :=
  {| aweme_list := [plain_item "7059698374567611696"]; has_more := false;
     cursor := Some (VInt 60) |}.

Definition three_pages_state : State :=
  start_state (script_of [Return (Some page_one); Return (Some page_two);
                          Return (Some page_three)]).

Definition sound_query : gmap string Val :=
  first_query tiktok_sound_ie "6956990112127585029" "0000000000000000000".

(* ===================================================================== *)
(** ** Further vocabulary: what a call asks of the host                    *)
(* ===================================================================== *)

(** The keys [_build_api_query] sets itself, over whatever the caller
    passed under them. *)
Definition fingerprint_keys : list string :=
  [ "version_name"; "version_code"; "build_number"; "manifest_version_code";
    "update_version_code"; "openudid"; "uuid"; "_rticket"; "ts"; "device_brand";
    "device_type"; "device_platform"; "resolution"; "dpi"; "os_version"; "os_api";
    "carrier_region"; "sys_region"; "region"; "app_name"; "app_language"; "language";
    "timezone_name"; "timezone_offset"; "channel"; "ac"; "mcc_mnc"; "is_my_cn"; "aid";
    "ssmix"; "as"; "cp" ].

(** The failure after which the sweep goes on to the next candidate. *)
Definition is_empty_body_error (e : Exn) : bool :=
  match e with
  | EExtractorError ee => is_json_error_at_0 ee
  | _ => false
  end.

(** The [User-Agent] header of [_call_api_impl]. *)
Definition api_user_agent (manifest_app_version : string) : string :=
  "com.ss.android.ugc.trill/" ++ manifest_app_version
  ++ " (Linux; U; Android 10; en_US; Pixel 4; Build/QQ3A.200805.001; Cronet/58.0.2991.0)".

(** A request as a call [a] through [self] builds it: the endpoint URL,
    the caller's arguments handed on, the caller's query entries kept
    under every key the fingerprint does not set, and a [User-Agent] that
    names the manifest version the query names. *)
Definition request_of_call (self : Self) (a : CallArgs) (r : ApiRequest) : Prop :=
  req_url r = "https://" ++ _API_HOSTNAME (cls self) ++ "/aweme/v1/" ++ call_ep a ++ "/"
  /\ req_video_id r = call_video_id a
  /\ req_fatal r = call_fatal a
  /\ req_note r = call_note a
  /\ req_errnote r = call_errnote a
  /\ (forall k, k ∉ fingerprint_keys -> req_query r !! k = call_query a !! k)
  /\ (exists v, version_of_request r = Some v /\ req_user_agent r = api_user_agent (snd v)).

(** A call that carries a cursor, as the list extractors make it. *)
Definition cursor_args : CallArgs :=
  {| call_ep := "music/aweme";
     call_query := {[ "cursor" := VInt 20; "version_name" := VStr "1.0.0" ]};
     call_video_id := "6956990112127585029"; call_fatal := false;
     call_note := "Downloading video list page 2";
     call_errnote := "Unable to download video list" |}.

Definition forbidden : pyresult (option ApiJson) :=
  Raise (EExtractorError
           {| msg := "Unable to download video feed: HTTP Error 403: Forbidden";
              cause := Some (OtherCause "HTTP Error 403: Forbidden") |}).

(* ===================================================================== *)
(** ** Further vocabulary: subtitles and descriptors                       *)
(* ===================================================================== *)

(** [caption.get('language', 'en')] *)
Definition caption_language (caption : Caption) : string := default "en" (language caption).

(** A subtitle dictionary as the loop over [captions] can leave it: every
    key is the language of one of the captions and holds at least one
    entry, each an [srt] entry. *)
Definition subtitles_of_captions (captions : list Caption)
    (subtitles : gmap string (list Subtitle)) : Prop :=
  forall lang entries,
    subtitles !! lang = Some entries ->
    entries <> []
    /\ Forall (fun entry => sub_ext entry = "srt") entries
    /\ exists caption, caption ∈ captions /\ caption_language caption = lang.

(** The entries [extract_addr] writes itself, before [add_meta] and the
    parsed metadata are laid over them. *)
Definition base_keys : list string :=
  [ "url"; "filesize"; "ext"; "acodec"; "source_preference" ].

(** The entries [parse_url_key] reads off a key. *)
Definition parsed_keys : list string := [ "format_id"; "vcodec"; "tbr"; "quality" ].

(** The descriptor built for the URL [u] of the address [addr], as far as
    [extract_addr] fixes it. *)
Definition descriptor_of_url (addr : Addr) (u : string) (f : Format) : Prop :=
  f !! "url" = Some (VStr u)
  /\ f !! "filesize" = Some (val_of_int (data_size addr))
  /\ f !! "ext" = Some (VStr "mp4")
  /\ f !! "acodec" = Some (VStr "aac")
  /\ f !! "source_preference" = Some (VInt (if str_contains "aweme/v1" u then -2 else -1)).

(** Every entry of the table holds dimensions and nothing else. *)
Definition table_plain (known : Known) : Prop :=
  forall r d k, known !! r = Some d -> is_Some (d !! k) -> k = "height" \/ k = "width".

(** The metadata a caller passes leaves the entries of [base_keys] alone. *)
Definition meta_plain (m : Meta) : Prop := forall k, k ∈ base_keys -> m !! k = None.

(** A string without an underscore, and a string of digits. *)
Definition no_underscore (s : string) : bool :=
  forallb (fun c => negb (Ascii.eqb c "_")) (list_ascii_of_string s).

Definition all_digits (s : string) : bool :=
  forallb is_digit (list_ascii_of_string s).

(** A video with one address behind an API URL and a direct one. *)
Definition api_video : VideoInfo :=
  {| play_addr := Some {| url_key := Some "v0200fg10000c6a1b2c3_h264_720p_1204567";
                          url_list := ["https://v16.example/play";
                                       "https://api-h2.tiktokv.com/aweme/v1/play/?video_id=1"];
                          data_size := Some 2500000 |};
     download_addr := None; play_addr_h264 := None; play_addr_bytevc1 := None;
     bit_rate := [ {| br_play_addr :=
                        Some {| url_key := Some "v0200fg10000c6a1b2c3_bytevc1_540p_412345";
                                url_list := ["https://v16.example/ladder"];
                                data_size := Some 800000 |};
                      br_gear_name := Some "adapt_540"; br_bit_rate := Some 412345;
                      br_is_bytevc1 := None; br_is_h265 := None; br_FPS := Some 30 |} ];
     is_bytevc1 := None; is_h265 := None;
     width := Some 720; height := Some 1280; has_watermark := false;
     cover := None; ai_dynamic_cover := None; animated_cover := None;
     ai_dynamic_cover_bak := None; origin_cover := None; dynamic_cover := None |}.

(* ===================================================================== *)
(** ** TikTokIE: the URL pattern                                           *)
(* ===================================================================== *)

(** [[\w\.-]], on ASCII *)
Definition is_user_char (c : ascii) : bool :=
  is_word_char c || Ascii.eqb c "." || Ascii.eqb c "-".

(** The longest prefix of characters that satisfy [p], and what follows
    it: what a greedy [[...]*] takes and leaves. *)
Fixpoint span_chars (p : ascii -> bool) (s : string) : string * string :=
  match s with
  | EmptyString => ("", "")
  | String c rest =>
      if p c then let (taken, left) := span_chars p rest in (String c taken, left)
      else ("", s)
  end.

(** [re.match(TikTokIE._VALID_URL, url).group('id', 'user_id')], with
    [_VALID_URL = r'https?://www\.tiktok\.com/(?:embed|@(?P<user_id>[\w\.-]+)/video)/(?P<id>\d+)'].
    No character of [user_id] can be the [/] that must follow it, so the
    group takes the longest run of its characters. *)
Definition tiktok_match_valid_url (url : string) : option (string * option string) :=
  after_http ← strip_prefix "http" url;
  after_scheme ← match strip_prefix "s://" after_http with
                 | Some r => Some r
                 | None => strip_prefix "://" after_http
                 end;
  after_host ← strip_prefix "www.tiktok.com/" after_scheme;
  match strip_prefix "embed" after_host with
  | Some after_embed =>
      after_slash ← strip_prefix "/" after_embed;
      if str_truthy (digit_prefix after_slash) then Some (digit_prefix after_slash, None)
      else None
  | None =>
      after_at ← strip_prefix "@" after_host;
      let (user_id, after_user) := span_chars is_user_char after_at in
      if str_truthy user_id then
        after_video ← strip_prefix "/video" after_user;
        after_slash ← strip_prefix "/" after_video;
        if str_truthy (digit_prefix after_slash)
        then Some (digit_prefix after_slash, Some user_id)
        else None
      else None
  end.

(** A string of characters a [user_id] can hold. *)
Definition all_user_chars (s : string) : bool :=
  forallb is_user_char (list_ascii_of_string s).

(* ===================================================================== *)
(** ** TikTokIE._extract_aweme_app                                         *)
(* ===================================================================== *)

(** [next((aweme for aweme in feed_list if str(aweme.get('aweme_id')) == aweme_id), None)] *)
Definition find_aweme (vid : string) (feed_list : list AwemeDetail) : option AwemeDetail :=
  List.find (fun aweme => String.eqb (aweme_id aweme) vid) feed_list.

(** The arguments of the feed call. *)
Definition feed_call (vid : string) : CallArgs :=
  {| call_ep := "feed";
     call_query := {[ "aweme_id" := VStr vid ]};
     call_video_id := vid;
     call_fatal := true;
     call_note := "Downloading video feed";
     call_errnote := "Unable to download video feed" |}.

Definition not_in_feed : Exn :=
  EExtractorError {| msg := "Unable to find video in feed"; cause := None |}.

Section ExtractApp.
Context `{Host}.

(** [TikTokIE._extract_aweme_app]; [.get] on a falsy response fails. *)
Definition _extract_aweme_app (self : Self) (vid : string) : M InfoDict :=
  res <- _call_api self (feed_call vid) ;;
  match res with
  | None => raise (EOtherError "AttributeError")
  | Some feed =>
      match find_aweme vid (aweme_list feed) with
      | None => raise not_in_feed
      | Some aweme_detail => _parse_aweme_video_app self aweme_detail
      end
  end.

End ExtractApp.

(* ===================================================================== *)
(** ** TikTokBaseIE._parse_aweme_video_web                                 *)
(* ===================================================================== *)

(** [video_info.get('playAddr')] of a web item: a string, a list of
    objects read at ['src'], or anything else. *)
Inductive PlayAddr : Type :=
  | PlayStr (url : string)
  | PlayList (srcs : list (option string))
  | PlayOther.

(** [aweme_detail['video']] of a web item; [wv_download_url] is
    [video_info['download']['url']]. *)
Record WebVideo : Type := mkWebVideo {
  wv_playAddr : PlayAddr;
  wv_width : option Z;
  wv_height : option Z;
  wv_downloadAddr : option string;
  wv_download_url : option string
}.

(** A web item: [itemStruct] of the page's next.js data, or an entry of
    [ItemModule] of its SIGI state. *)
Record WebItem : Type := mkWebItem {
  wi_video : option WebVideo;
  wi_id : option string;
  wi_awemeId : option string;
  wi_desc : option string;
  wi_thumbnail : option string;
  wi_cover : option string;
  wi_dynamicCover : option string;
  wi_originCover : option string
}.

Record WebThumbnail : Type := mkWebThumbnail {
  wt_url : string;
  wt_width : option Z;
  wt_height : option Z
}.

(** The entries of the dictionary [_parse_aweme_video_web] returns that
    the development follows; [web_formats] is the list as the function
    builds it, before the host removes duplicates from it and sorts it. *)
Record WebInfo : Type := mkWebInfo {
  web_id : option string;
  web_title : option string;
  web_formats : list Format;
  web_thumbnails : list WebThumbnail;
  web_referer : string
}.

(** What the page of a video gives: the next.js data, and the SIGI state. *)
Record NextData : Type := mkNextData {
  next_statusCode : option Z;
  next_itemStruct : option WebItem
}.

Record SigiState : Type := mkSigiState {
  sigi_statusCode : option Z;
  sigi_ItemModule : gmap string WebItem
}.

(** What the web path consumes from the host, besides [Host]. *)
Class PageHost `{Host} : Type := {
  (** [self._download_webpage(url, video_id, headers=...)] *)
  _download_webpage : string -> string -> World -> pyresult string * World;
  (** [self._search_nextjs_data(webpage, video_id, default='{}')]; [None]
      stands for a falsy (empty) object. *)
  _search_nextjs_data : string -> string -> pyresult (option NextData);
  (** [get_element_by_id(id, webpage, escape_value=False)] *)
  get_element_by_id : string -> string -> option string;
  (** [self._parse_json(text, display_id)] on the text of the SIGI element *)
  _parse_json : option string -> string -> pyresult SigiState;
  (** [self._proto_relative_url] *)
  _proto_relative_url : string -> string;
  (** [str(e)] of an [ExtractorError] *)
  str_of_error : Exn -> string
}.

Definition thumbnail_names : list string :=
  [ "thumbnail"; "cover"; "dynamicCover"; "originCover" ].

(** [aweme_detail.get(thumbnail_name)] *)
Definition web_item_get (aweme_detail : WebItem) (thumbnail_name : string) : option string :=
  if String.eqb thumbnail_name "thumbnail" then wi_thumbnail aweme_detail
  else if String.eqb thumbnail_name "cover" then wi_cover aweme_detail
  else if String.eqb thumbnail_name "dynamicCover" then wi_dynamicCover aweme_detail
  else if String.eqb thumbnail_name "originCover" then wi_originCover aweme_detail
  else None.

Section ParseWeb.
Context `{PageHost}.

(** [TikTokBaseIE._get_sigi_state] *)
Definition _get_sigi_state (webpage display_id : string) : pyresult SigiState :=
  _parse_json (get_element_by_id "SIGI_STATE|sigi-persisted-data" webpage) display_id.

Definition web_format (url : string) (width height : option Z) : Format :=
  list_to_map [ ("url", VStr (_proto_relative_url url)); ("ext", VStr "mp4");
                ("width", val_of_int width); ("height", val_of_int height) ].

(** [formats] as the function has built it when it calls
    [_remove_duplicate_formats]. *)
Definition web_formats_of (video_info : WebVideo) : list Format :=
  let width := wv_width video_info in
  let height := wv_height video_info in
  let formats :=
    match wv_playAddr video_info with
    | PlayStr play_url => [web_format play_url width height]
    | PlayList play_url =>
        map (fun url => web_format url width height)
            (filter (fun url => str_truthy url = true)
                    (omap (fun src => src ≫= url_or_none) play_url))
    | PlayOther => []
    end in
  let download_url := str_or (wv_downloadAddr video_info ≫= url_or_none)
                             (wv_download_url video_info ≫= url_or_none) in
  match download_url with
  | Some u =>
      if str_truthy u
      then (formats ++ [ <["format_id" := VStr "download"]> (web_format u width height) ])%list
      else formats
  | None => formats
  end.

(** The loop over [thumbnail_names]: each name whose entry is truthy
    assigns [thumbnails] anew. *)
Definition web_thumbnails_of (aweme_detail : WebItem) (width height : option Z)
    : list WebThumbnail :=
  fold_left
    (fun thumbnails thumbnail_name =>
       match web_item_get aweme_detail thumbnail_name with
       | Some u =>
           if str_truthy u
           then [ {| wt_url := _proto_relative_url u; wt_width := width; wt_height := height |} ]
           else thumbnails
       | None => thumbnails
       end)
    thumbnail_names [].

(** [TikTokBaseIE._parse_aweme_video_web]; indexing [None] and a missing
    ['video'] fail. *)
Definition _parse_aweme_video_web (aweme_detail : option WebItem) (webpage_url : string)
    : pyresult WebInfo :=
  match aweme_detail with
  | None => Raise (EOtherError "TypeError")
  | Some aweme_detail =>
      match wi_video aweme_detail with
      | None => Raise (EKeyError "video")
      | Some video_info =>
          Return {| web_id := traverse_first [ wi_id aweme_detail; wi_awemeId aweme_detail ];
                    web_title := wi_desc aweme_detail;
                    web_formats := web_formats_of video_info;
                    web_thumbnails :=
                      web_thumbnails_of aweme_detail (wv_width video_info)
                                        (wv_height video_info);
                    web_referer := webpage_url |}
      end
  end.

End ParseWeb.

(* ===================================================================== *)
(** ** TikTokIE._real_extract                                              *)
(* ===================================================================== *)

(** What [_real_extract] returns: the dictionary of the app path or the
    one of the web path. *)
Inductive Extracted : Type :=
  | FromApp (info : InfoDict)
  | FromWeb (info : WebInfo).

(** [except ExtractorError]: [UnsupportedError] is one of its subclasses. *)
Definition is_extractor_error (e : Exn) : bool :=
  match e with
  | EExtractorError _ | EUnsupportedError _ => true
  | _ => false
  end.

Definition video_is_private : Exn :=
  EExtractorError {| msg := "This video is private"; cause := None |}.

Definition video_not_available : Exn :=
  EExtractorError {| msg := "Video not available"; cause := None |}.

Section RealExtract.
Context `{PageHost}.

Definition lift_result {A} (r : pyresult A) : M A := fun s => (r, s).

(** The statements of [_real_extract] after the [try] block. *)
Definition extract_from_webpage (video_id : string) (user_id : option string) : M Extracted :=
  let url := _create_url user_id video_id in
  webpage <- lift_world_result (_download_webpage url video_id) ;;
  next_data <- lift_result (_search_nextjs_data webpage video_id) ;;
  page <- match next_data with
          | Some next_data =>
              ret (default 0 (next_statusCode next_data), next_itemStruct next_data)
          | None =>
              sigi_data <- lift_result (_get_sigi_state webpage video_id) ;;
              ret (default 0 (sigi_statusCode sigi_data),
                   sigi_ItemModule sigi_data !! video_id)
          end ;;
  let '(status, video_data) := page in
  if Z.eqb status 0 then
    info <- lift_result (_parse_aweme_video_web video_data url) ;;
    ret (FromWeb info)
  else if Z.eqb status 10216 then raise video_is_private
  else raise video_not_available.

(** [TikTokIE._real_extract]; [.group] on a failed match fails. *)
Definition tiktok_real_extract (self : Self) (url : string) : M Extracted :=
  match tiktok_match_valid_url url with
  | None => raise (EOtherError "AttributeError")
  | Some (video_id, user_id) =>
      try_except
        (info <- _extract_aweme_app self video_id ;; ret (FromApp info))
        (fun e =>
           if is_extractor_error e then
             report_warning self (str_of_error e ++ "; trying with webpage") false ;;;
             extract_from_webpage video_id user_id
           else raise e)
  end.

End RealExtract.

(* ===================================================================== *)
(** ** TikTokUserIE._entries_api                                           *)
(* ===================================================================== *)

(** An element of [videos]: what [url_result] made of an item of the
    user's list, as far as [_entries_api] reads it. *)
Record VideoRef : Type := mkVideoRef {
  ref_id : string;
  ref_url : string
}.

Section EntriesApi.
Context `{Host}.

(** [TikTokUserIE._entries_api], run to its end: the entries yielded and
    the exception that cut the loop, if one did. *)
Fixpoint _entries_api (self : Self) (videos : list VideoRef)
    : State -> list InfoDict * option Exn * State := fun s =>
  match videos with
  | [] => ([], None, s)
  | video :: rest =>
      match _extract_aweme_app self (ref_id video) s with
      | (Return info, s') =>
          let entry := {| info_id := info_id info;
                          info_extractor_key := TikTokIE_ie_key;
                          info_extractor := "TikTok";
                          info_webpage_url := ref_url video;
                          info_title := info_title info;
                          info_description := info_description info;
                          info_track := info_track info;
                          info_artist := info_artist info;
                          info_formats := info_formats info;
                          info_subtitles := info_subtitles info;
                          info_thumbnails := info_thumbnails info |} in
          let '(more, e, s'') := _entries_api self rest s' in
          (entry :: more, e, s'')
      | (Raise e, s') => ([], Some e, s')
      end
  end.

End EntriesApi.

(* ===================================================================== *)
(** ** Further vocabulary: pages, web items, a scripted page host          *)
(* ===================================================================== *)

Section PagesRead.
Context `{Host}.

(** A session in which the driver, from page [page] with query [query]
    on, is answered with pages that all report more pages: each page call
    returns its page, every item of it is reconciled, and the next page is
    asked for with the cursor the response gave.  The relation names the
    entries yielded so far, and the page, the query and the state the
    driver stands at. *)
Inductive pages_read (self : Self) (display_id : string)
    : nat -> gmap string Val -> State -> list InfoDict
      -> nat -> gmap string Val -> State -> Prop :=
  | read_none page query s :
      pages_read self display_id page query s [] page query s
  | read_more page query s p s1 infos s2 c yielded page' query' s3 :
      _call_api self (page_args self display_id page query) s = (Return (Some p), s1) ->
      yield_entries self (aweme_list p) s1 = (infos, None, s2) ->
      has_more p = true ->
      cursor p = Some c ->
      pages_read self display_id (S page) (<["cursor" := c]> query) s2 yielded page' query' s3 ->
      pages_read self display_id page query s (infos ++ yielded)%list page' query' s3.

End PagesRead.

(** The URLs of the thumbnail fields of a web item, in the order of
    [thumbnail_names], as far as they are present and not empty. *)
Definition web_thumbnail_urls (aweme_detail : WebItem) : list string :=
  filter (fun u => str_truthy u = true)
         (omap id [ wi_thumbnail aweme_detail; wi_cover aweme_detail;
                    wi_dynamicCover aweme_detail; wi_originCover aweme_detail ]).

Definition sample_web_item : WebItem :=
  {| wi_video := Some {| wv_playAddr := PlayStr "//v16-web.example/play";
                         wv_width := Some 576; wv_height := Some 1024;
                         wv_downloadAddr := Some "https://v16-web.example/download";
                         wv_download_url := None |};
     wi_id := Some "7023491746608712966"; wi_awemeId := None; wi_desc := Some "";
     wi_thumbnail := None; wi_cover := Some "https://p16.example/cover.jpeg";
     wi_dynamicCover := Some ""; wi_originCover := Some "//p16.example/origin.jpeg" |}.

(** A page host for the scenarios: every page is the SIGI state of one
    video and holds no next.js data. *)
#[local] Instance scripted_page_host : PageHost := {|
  _download_webpage := fun url video_id w => (Return ("<html>" ++ url ++ "</html>"), w);
  _search_nextjs_data := fun webpage video_id => Return None;
  get_element_by_id := fun id webpage => Some webpage;
  _parse_json := fun text display_id =>
    Return {| sigi_statusCode := None;
              sigi_ItemModule := {[ "7023491746608712966" := sample_web_item ]} |};
  _proto_relative_url := fun url => if String.prefix "//" url then "https:" ++ url else url;
  str_of_error := fun e => match e with
                           | EExtractorError ee => msg ee
                           | EUnsupportedError u => "Unsupported URL: " ++ u
                           | EKeyError k => k
                           | EOtherError d => d
                           end
|}.

Definition feed_page (items : list AwemeDetail) : ApiJson :=
  {| aweme_list := items; has_more := false; cursor := None |}.

(** A page that reports more pages and names no cursor. *)
Definition page_without_cursor : ApiJson :=
  {| aweme_list := [plain_item "7059698374567611695"]; has_more := true; cursor := None |}.

(* ===================================================================== *)
(** * Checks on concrete inputs                                            *)
(* ===================================================================== *)

Example srt_data_hi :
  srt_data [ {| start_time := 0; end_time := 1000; text := Some "hi" |} ]
  = "1" ++ nl ++ "00:00:00,000 --> 00:00:01,000" ++ nl ++ "hi".
Proof. vm_compute. reflexivity. Qed.

Example parse_url_key_bytevc1 :
  parse_url_key "v0d00fg10000c6a1b2c3d4e5_bytevc1_540p_412345"
  = (list_to_map [ ("format_id", VStr "bytevc1_540p_412345"); ("vcodec", VStr "h265");
                   ("tbr", VInt 412); ("quality", VInt 1) ],
     Some "540p").
Proof. vm_compute. reflexivity. Qed.

Example parse_url_key_unknown : parse_url_key "no key here" = (∅, None).
Proof. vm_compute. reflexivity. Qed.

Example og_disambiguation :
  let m := {| is_original_sound := true; music_title := Some "original sound - alice";
              owner_handle := Some "alice"; music_author := None;
              matched_song := Some {| ms_title := Some "Real Song"; ms_author := Some "Bob" |};
              matched_pgc_sound := None |} in
  info_track_of m = Some "Real Song" /\ info_artist_of m = Some "Bob".
Proof. vm_compute. split; reflexivity. Qed.

Example vm_suitable_short : vm_suitable "https://vm.tiktok.com/ZSe4FqkKd" = true.
Proof. reflexivity. Qed.

Example vm_suitable_video :
  vm_suitable "https://www.tiktok.com/@susmandem/video/7023491746608712966" = false.
Proof. reflexivity. Qed.

Example scripted_fallback :
  let w := {| api_replies := [empty_body; empty_body; Return (Some empty_page)];
              caption_replies := []; head_replies := []; cookie_jar := [] |} in
  let run := _call_api tiktok_ie feed_args (start_state w) in
  fst run = Return (Some empty_page)
  /\ map version_of_request (requests_of (events (snd run)))
     = [Some ("26.1.3", "260103"); Some ("26.1.2", "260102"); Some ("26.1.1", "260101")]
  /\ inst_WORKING_APP_VERSION (instance_of tiktok_ie (snd run)) = Some ("26.1.1", "260101").
Proof. vm_compute. repeat split; reflexivity. Qed.

(* ===================================================================== *)
(** * The negotiator                                                       *)
(* ===================================================================== *)

Section NegotiatorFacts.
Context `{Host}.

Lemma quiet_ret {A} (P : A -> Prop) (a : A) : P a -> quiet P (ret a).
Proof. intros Pa s. exists a, (world s). split; [exact Pa|]. intros s2 E. unfold ret. destruct s2; simpl in *. by subst. Qed.

Lemma quiet_lift {A} (P : A -> Prop) (f : World -> A * World) :
  (forall w, P (fst (f w))) -> quiet P (lift_world f).
Proof.
  intros Pf s. exists (fst (f (world s))), (snd (f (world s))). split; [apply Pf|].
  intros s2 E. unfold lift_world. rewrite E. by destruct (f (world s)).
Qed.

Lemma quiet_bind {A B} (P : A -> Prop) (Q : B -> Prop) (m : M A) (k : A -> M B) :
  quiet P m -> (forall a, P a -> quiet Q (k a)) -> quiet Q (bind m k).
Proof.
  intros Hm Hk s.
  destruct (Hm s) as (a & w1 & Pa & Em).
  destruct (Hk a Pa {| world := w1; objects := objects s; events := events s |})
    as (b & w2 & Qb & Ek).
  exists b, w2. split; [exact Qb|].
  intros s2 E. unfold bind. rewrite (Em s2 E).
  by rewrite (Ek {| world := w1; objects := objects s2; events := events s2 |} eq_refl).
Qed.

Lemma quiet_weaken {A} (P Q : A -> Prop) (m : M A) :
  (forall a, P a -> Q a) -> quiet P m -> quiet Q m.
Proof.
  intros PQ Hm s. destruct (Hm s) as (a & w & Pa & E). exists a, w. auto.
Qed.

Lemma quiet_random_string (alphabet : string) (n : nat) :
  quiet (fun _ => True) (random_string alphabet n).
Proof.
  induction n as [|n IH]; simpl.
  - by apply quiet_ret.
  - eapply quiet_bind; [apply (quiet_lift (fun _ => True)); done|].
    intros c _. eapply quiet_bind; [exact IH|].
    intros rest _. by apply quiet_ret.
Qed.

Lemma quiet_build_api_query (self : Self) (query : gmap string Val) (app manifest : string) :
  quiet (fun q => version_of_query q = Some (app, manifest))
        (_build_api_query self query app manifest).
Proof.
  unfold _build_api_query.
  eapply quiet_bind; [apply quiet_random_string|]. intros openudid _.
  eapply quiet_bind; [apply quiet_random_string|]. intros uuid _.
  eapply quiet_bind; [apply (quiet_lift (fun _ => True)); done|]. intros t1 _.
  eapply quiet_bind; [apply (quiet_lift (fun _ => True)); done|]. intros t2 _.
  apply quiet_ret. unfold version_of_query.
  erewrite lookup_union_Some_l; [|reflexivity].
  erewrite lookup_union_Some_l; [|reflexivity].
  reflexivity.
Qed.

Lemma one_request_bind {A} (P : A -> Prop) (v : AppVersion) (fatal : bool)
    (m : M A) (k : A -> M (option ApiJson)) :
  quiet P m -> (forall a, P a -> one_request v fatal (k a)) -> one_request v fatal (bind m k).
Proof.
  intros Hm Hk s.
  destruct (Hm s) as (a & w1 & Pa & Em).
  destruct (Hk a Pa {| world := w1; objects := objects s; events := events s |})
    as (r & w2 & Hv & Hf & Ek).
  exists r, w2. split; [exact Hv|]. split; [exact Hf|].
  intros s2 E. unfold bind. rewrite (Em s2 E).
  by rewrite (Ek {| world := w1; objects := objects s2; events := events s2 |} eq_refl).
Qed.

Lemma one_request_download (r : ApiRequest) (v : AppVersion) :
  version_of_request r = Some v ->
  one_request v (req_fatal r) (log (EvRequest r) ;;; lift_world_result (_download_json r)).
Proof.
  intros Hv s. exists r, (world s). split; [exact Hv|]. split; [reflexivity|].
  intros s2 E. unfold bind, log, lift_world_result. simpl. rewrite E.
  by destruct (_download_json r (world s)).
Qed.

Lemma call_api_impl_one_request (self : Self) (ep : string) (q : gmap string Val)
    (manifest video_id : string) (fatal : bool) (note errnote : string) (v : AppVersion) :
  version_of_query q = Some v ->
  one_request v fatal (_call_api_impl self ep q manifest video_id fatal note errnote).
Proof.
  intros Hv. unfold _call_api_impl.
  eapply one_request_bind; [apply quiet_random_string|]. intros odin_tt _.
  eapply one_request_bind; [apply (quiet_lift (fun _ => True)); done|]. intros _ _.
  eapply one_request_bind; [apply (quiet_lift (fun _ => True)); done|]. intros sid_tt _.
  eapply (one_request_bind (fun _ => True)).
  { destruct sid_tt; [apply (quiet_lift (fun _ => True)); done | by apply quiet_ret]. }
  intros _ _.
  match goal with
  | |- one_request _ _ (bind (log (EvRequest ?r)) _) => apply (one_request_download r v Hv)
  end.
Qed.

Lemma attempt_one_request (self : Self) (a : CallArgs) (v : AppVersion) :
  one_request v (call_fatal a) (attempt self a v).
Proof.
  unfold attempt.
  eapply one_request_bind; [apply quiet_build_api_query|].
  intros q Hq. apply call_api_impl_one_request. by destruct v.
Qed.

(** A call for one candidate, in terms of the host's [answer]. *)
Lemma attempt_answer (self : Self) (a : CallArgs) (v : AppVersion) (s : State) :
  exists r,
    version_of_request r = Some v /\ req_fatal r = call_fatal a /\
    forall s2, world s2 = world s ->
      attempt self a v s2
      = (fst (answer self a v (world s)),
         {| world := snd (answer self a v (world s)); objects := objects s2;
            events := events s2 ++ [EvRequest r] |}).
Proof.
  destruct (attempt_one_request self a v s) as (r & w1 & Hv & Hf & E).
  exists r. split; [exact Hv|]. split; [exact Hf|].
  intros s2 E2. unfold answer.
  rewrite (E {| world := world s; objects := ∅; events := [] |} eq_refl).
  simpl. apply (E s2 E2).
Qed.

Lemma requests_of_app (evs1 evs2 : list Event) :
  requests_of (evs1 ++ evs2) = (requests_of evs1 ++ requests_of evs2)%list.
Proof. unfold requests_of. apply omap_app. Qed.

Lemma lone_warnings_app (evs1 evs2 : list Event) :
  lone_warnings (evs1 ++ evs2) = (lone_warnings evs1 + lone_warnings evs2)%nat.
Proof. unfold lone_warnings. by rewrite filter_app, length_app. Qed.

(** The sweep over the candidates: while the host answers with the
    empty-body error the next candidate is tried; the first candidate it
    accepts is pinned and its result returned. *)
Lemma negotiate_sweep (self : Self) (a : CallArgs) (tried : list AppVersion) :
  forall (count : nat) (s : State) (c : AppVersion) (later : list AppVersion)
         (res : option ApiJson) (w1 w2 : World),
    (count + length tried <= length (_APP_VERSIONS (cls self)))%nat ->
    all_rejected self a tried (world s) = Some w1 ->
    answer self a c w1 = (Return res, w2) ->
    exists evs,
      negotiate self a count (tried ++ c :: later) s
      = (Return res, {| world := w2; objects := pin_objects self (Some c) s;
                        events := events s ++ evs |})
      /\ map version_of_request (requests_of evs) = map Some (tried ++ [c])
      /\ lone_warnings evs = 0%nat.
Proof.
  induction tried as [|v tried IH]; intros count s c later res w1 w2 Hlen Hrej Hans.
  - simpl in Hrej. injection Hrej as <-.
    destruct (attempt_answer self a c s) as (r & Hv & _ & E).
    exists [EvRequest r]. split; [|split].
    + simpl. unfold try_except, bind. rewrite (E s eq_refl), Hans. reflexivity.
    + simpl. by rewrite Hv.
    + reflexivity.
  - simpl in Hrej.
    destruct (answer self a v (world s)) as [[x|e] w'] eqn:Hav; try discriminate.
    destruct e as [e| | |]; try discriminate.
    destruct (is_json_error_at_0 e) eqn:He; try discriminate.
    destruct (attempt_answer self a v s) as (r & Hv & _ & E).
    set (warn := EvWarning (retrying_message e count (length (_APP_VERSIONS (cls self)))) false).
    destruct (IH (S count)
                 {| world := w'; objects := objects s;
                    events := (events s ++ [EvRequest r]) ++ [warn] |}
                 c later res w1 w2) as (evs & Eneg & Hreq & Hlone).
    { simpl in Hlen. lia. }
    { exact Hrej. }
    { exact Hans. }
    exists (EvRequest r :: warn :: evs). split; [|split].
    + simpl. unfold try_except at 1. unfold bind at 1.
      rewrite (E s eq_refl), Hav. simpl. rewrite He.
      replace (count =? length (_APP_VERSIONS (cls self)))%nat with false
        by (symmetry; apply Nat.eqb_neq; simpl in Hlen; lia).
      unfold bind at 1. unfold report_warning, log. simpl.
      fold warn. rewrite Eneg. simpl. f_equal. f_equal.
      by rewrite <- !app_assoc.
    + simpl. by rewrite Hv, Hreq.
    + exact Hlone.
Qed.

(** A call through an object that already has its candidate: exactly one
    request, built for that candidate, ending as the host answers it. *)
Lemma call_api_pinned (self : Self) (a : CallArgs) (s : State) (v : AppVersion) :
  inst_WORKING_APP_VERSION (instance_of self s) = Some v ->
  exists r w1,
    version_of_request r = Some v /\ req_fatal r = call_fatal a /\
    _call_api self a s
    = (fst (_download_json r w1),
       {| world := snd (_download_json r w1); objects := objects s;
          events := events s ++ [EvRequest r] |}).
Proof.
  intros Hpin.
  destruct (attempt_one_request self a v s) as (r & w1 & Hv & Hf & E).
  exists r, w1. split; [exact Hv|]. split; [exact Hf|].
  unfold _call_api, bind, get_WORKING_APP_VERSION. rewrite Hpin. simpl.
  rewrite Hpin. apply (E s eq_refl).
Qed.

(** The sweep depends on nothing but the world it starts in. *)
Lemma negotiate_frame (self : Self) (a : CallArgs) (cands : list AppVersion) :
  forall (count : nat) (s : State),
  exists res w' evs pin,
    (forall s2, world s2 = world s ->
       negotiate self a count cands s2
       = (res, {| world := w'; objects := pin_objects self pin s2;
                  events := events s2 ++ evs |}))
    /\ lone_warnings evs = 0%nat
    /\ (forall v, pin = Some v -> In v cands).
Proof.
  induction cands as [|v rest IH]; intros count s.
  - exists (Return None), (world s), [], None. split; [|split]; [|done|done].
    intros s2 E. simpl. unfold ret. rewrite app_nil_r. destruct s2; simpl in *. by subst.
  - destruct (attempt_answer self a v s) as (r & Hv & _ & E).
    destruct (answer self a v (world s)) as [[x|e] w'] eqn:Hav.
    + exists (Return x), w', [EvRequest r], (Some v). split; [|split].
      * intros s2 E2. simpl. unfold try_except, bind. rewrite (E s2 E2). reflexivity.
      * reflexivity.
      * intros v' [= <-]. by left.
    + assert (Hraise : forall s2, world s2 = world s ->
                attempt self a v s2
                = (Raise e, {| world := w'; objects := objects s2;
                               events := events s2 ++ [EvRequest r] |}))
        by (intros s2 E2; by rewrite (E s2 E2)).
      destruct e as [ee|u|k|d].
      2:{ exists (Raise (EUnsupportedError u)), w', [EvRequest r], None.
          split; [|split]; [|done|done].
          intros s2 E2. simpl. unfold try_except, bind. by rewrite (Hraise s2 E2). }
      2:{ exists (Raise (EKeyError k)), w', [EvRequest r], None.
          split; [|split]; [|done|done].
          intros s2 E2. simpl. unfold try_except, bind. by rewrite (Hraise s2 E2). }
      2:{ exists (Raise (EOtherError d)), w', [EvRequest r], None.
          split; [|split]; [|done|done].
          intros s2 E2. simpl. unfold try_except, bind. by rewrite (Hraise s2 E2). }
      destruct (is_json_error_at_0 ee) eqn:He.
      2:{ exists (Raise (EExtractorError ee)), w', [EvRequest r], None.
          split; [|split]; [|done|done].
          intros s2 E2. simpl. unfold try_except, bind.
          rewrite (Hraise s2 E2). simpl. by rewrite He. }
      destruct (count =? length (_APP_VERSIONS (cls self)))%nat eqn:Hlast.
      * destruct (call_fatal a) eqn:Hfatal.
        -- exists (Raise (EExtractorError ee)), w', [EvRequest r], None.
           split; [|split]; [|done|done].
           intros s2 E2. simpl. unfold try_except, bind.
           rewrite (Hraise s2 E2). simpl. by rewrite He, Hlast, Hfatal.
        -- exists (Return None), w',
                  [EvRequest r; EvWarning (str_cause_or_msg ee) false], None.
           split; [|split]; [|done|done].
           intros s2 E2. simpl. unfold try_except, bind.
           rewrite (Hraise s2 E2). simpl. rewrite He, Hlast, Hfatal.
           unfold report_warning, log, ret. simpl. by rewrite <- app_assoc.
      * set (warn := EvWarning (retrying_message ee count (length (_APP_VERSIONS (cls self)))) false).
        destruct (IH (S count) {| world := w'; objects := objects s; events := events s |})
          as (res & w2 & evs & pin & Eneg & Hlone & Hin).
        exists res, w2, (EvRequest r :: warn :: evs), pin. split; [|split].
        -- intros s2 E2. simpl. unfold try_except at 1. unfold bind at 1.
           rewrite (Hraise s2 E2). simpl. rewrite He, Hlast.
           unfold bind at 1. unfold report_warning, log. simpl. fold warn.
           rewrite (Eneg {| world := w'; objects := objects s2;
                            events := (events s2 ++ [EvRequest r]) ++ [warn] |} eq_refl).
           simpl. f_equal. f_equal.
           all: try (by destruct pin).
           all: by rewrite <- !app_assoc.
        -- exact Hlone.
        -- intros v' Hp. right. by apply Hin.
Qed.

(** [report_warning(..., only_once=True)] touches neither the world nor
    the pin, and prints at most one line. *)
Lemma report_warning_once (self : Self) (m : string) (s : State) :
  let s1 := snd (report_warning self m true s) in
  fst (report_warning self m true s) = Return tt
  /\ world s1 = world s
  /\ inst_WORKING_APP_VERSION (instance_of self s1) = inst_WORKING_APP_VERSION (instance_of self s)
  /\ (((m ∈ inst_printed_messages (instance_of self s)) /\ s1 = s)
      \/ ((m ∉ inst_printed_messages (instance_of self s))
          /\ events s1 = (events s ++ [EvWarning m true])%list))
  /\ (m ∈ inst_printed_messages (instance_of self s1)).
Proof.
  unfold report_warning. simpl.
  destruct (bool_decide (m ∈ inst_printed_messages (instance_of self s))) eqn:Hp.
  - apply bool_decide_eq_true in Hp. simpl. repeat split; auto.
  - apply bool_decide_eq_false in Hp. unfold bind, set_instance, log, instance_of. simpl.
    rewrite lookup_insert_eq. simpl. repeat split; auto. set_solver.
Qed.

(** Only the object's identity and class matter to the sweep, not the
    operator's parameters. *)
Lemma negotiate_without_override (self : Self) (a : CallArgs) (cands : list AppVersion) :
  forall count s,
    negotiate (without_override self) a count cands s = negotiate self a count cands s.
Proof.
  induction cands as [|v rest IH]; intros count s; [reflexivity|].
  simpl. unfold try_except.
  change (attempt (without_override self) a v) with (attempt self a v).
  change (set_WORKING_APP_VERSION (without_override self) v)
    with (set_WORKING_APP_VERSION self v).
  destruct (bind (attempt self a v) _ s) as [[x|e] s'] eqn:E; [reflexivity|].
  destruct e as [ee| | |]; try reflexivity.
  destruct (is_json_error_at_0 ee); [|reflexivity].
  destruct (count =? _)%nat; [reflexivity|].
  unfold bind.
  change (report_warning (without_override self)) with (report_warning self).
  destruct (report_warning self _ false s') as [[[]|e'] s'']; [apply IH | reflexivity].
Qed.

Lemma instance_after_pin (self : Self) (pin : option AppVersion) (s : State)
    (w : World) (evs : list Event) :
  let s' := {| world := w; objects := pin_objects self pin s; events := evs |} in
  inst_printed_messages (instance_of self s') = inst_printed_messages (instance_of self s)
  /\ inst_WORKING_APP_VERSION (instance_of self s')
     = match pin with
       | Some v => Some v
       | None => inst_WORKING_APP_VERSION (instance_of self s)
       end.
Proof.
  destruct pin as [v|]; simpl; [|done].
  unfold instance_of. simpl. by rewrite lookup_insert_eq.
Qed.

(** An unpinned call without the operator's pair runs the sweep, after
    the warning about a lone override argument if there is one. *)
Lemma call_api_unpinned (self : Self) (a : CallArgs) (s : State) :
  inst_WORKING_APP_VERSION (instance_of self s) = None ->
  both_overrides self = false ->
  _call_api self a s
  = negotiate self a 1 (_APP_VERSIONS (cls self))
      (if lone_override self
       then snd (report_warning self lone_override_warning true s) else s).
Proof.
  intros Hunp Hboth.
  destruct (report_warning_once self lone_override_warning s) as (Hr & _ & Hw & _).
  remember (report_warning self lone_override_warning true s) as rw eqn:Erw.
  unfold lone_override. rewrite Hboth. unfold both_overrides in Hboth.
  unfold _call_api, bind at 1, get_WORKING_APP_VERSION at 1. rewrite Hunp.
  unfold class_WORKING_APP_VERSION. cbv beta iota. rewrite Hboth. cbn [negb andb].
  destruct (str_truthy (arg_app_version (params self))
            || str_truthy (arg_manifest_app_version (params self))).
  - cbv beta iota. unfold bind. rewrite <- Erw.
    destruct rw as [r s1]. simpl in Hr, Hw |- *. subst r.
    unfold get_WORKING_APP_VERSION, class_WORKING_APP_VERSION. by rewrite Hw, Hunp.
  - unfold bind, ret, get_WORKING_APP_VERSION, class_WORKING_APP_VERSION. by rewrite Hunp.
Qed.

(** With both override arguments passed, an unpinned call pins the pair
    and issues its one request with it. *)
Lemma call_api_override (self : Self) (a : CallArgs) (s : State) :
  inst_WORKING_APP_VERSION (instance_of self s) = None ->
  both_overrides self = true ->
  let v := (arg_app_version (params self), arg_manifest_app_version (params self)) in
  exists r w1,
    version_of_request r = Some v /\ req_fatal r = call_fatal a /\
    _call_api self a s
    = (fst (_download_json r w1),
       {| world := snd (_download_json r w1);
          objects := pin_objects self (Some v) s;
          events := (events s ++ [EvDebug "Imported app version combo from extractor arguments"])
                    ++ [EvRequest r] |}).
Proof.
  intros Hunp Hboth v. unfold both_overrides in Hboth.
  destruct (attempt_one_request self a v s) as (r & w1 & Hv & Hf & E).
  exists r, w1. split; [exact Hv|]. split; [exact Hf|].
  unfold _call_api, bind at 1, get_WORKING_APP_VERSION at 1. rewrite Hunp.
  unfold class_WORKING_APP_VERSION. simpl.
  rewrite Hboth. unfold bind, set_WORKING_APP_VERSION, set_instance, write_debug, log,
    get_WORKING_APP_VERSION. simpl.
  unfold instance_of at 1. simpl. rewrite lookup_insert_eq. simpl.
  fold v. rewrite E; [reflexivity|reflexivity].
Qed.

(** What any call adds to the trace, as far as the lone-override warning
    goes: only the prologue can print it. *)
Lemma call_api_events (self : Self) (a : CallArgs) (s : State) :
  exists s1 evs,
    (s1 = s \/ s1 = snd (report_warning self lone_override_warning true s))
    /\ inst_printed_messages (instance_of self (snd (_call_api self a s)))
       = inst_printed_messages (instance_of self s1)
    /\ events (snd (_call_api self a s)) = (events s1 ++ evs)%list
    /\ lone_warnings evs = 0%nat.
Proof.
  destruct (inst_WORKING_APP_VERSION (instance_of self s)) as [v|] eqn:Hpin.
  - destruct (call_api_pinned self a s v Hpin) as (r & w1 & _ & _ & E).
    exists s, [EvRequest r]. rewrite E. simpl. repeat split; auto.
  - destruct (both_overrides self) eqn:Hboth.
    + destruct (call_api_override self a s Hpin Hboth) as (r & w1 & _ & _ & E).
      exists s, [EvDebug "Imported app version combo from extractor arguments"; EvRequest r].
      rewrite E. split; [by left|]. split; [apply instance_after_pin|].
      simpl. split; [by rewrite <- app_assoc | reflexivity].
    + rewrite (call_api_unpinned self a s Hpin Hboth).
      set (s1 := if lone_override self
                 then snd (report_warning self lone_override_warning true s) else s).
      destruct (negotiate_frame self a (_APP_VERSIONS (cls self)) 1%nat s1)
        as (res & w' & evs & pin & E & Hlone & _).
      exists s1, evs. rewrite (E s1 eq_refl). simpl.
      split; [subst s1; destruct (lone_override self); auto|].
      split; [apply instance_after_pin|]. by split.
Qed.

Lemma lone_warnings_single :
  lone_warnings [EvWarning lone_override_warning true] = 1%nat.
Proof. reflexivity. Qed.

(** One call prints the lone-override warning at most once, and never
    again once the object has printed it. *)
Lemma call_api_lone_warnings (self : Self) (a : CallArgs) (s : State) :
  let s' := snd (_call_api self a s) in
  let printed x := lone_override_warning ∈ inst_printed_messages (instance_of self x) in
  (lone_warnings (events s') = lone_warnings (events s) /\ (printed s -> printed s'))
  \/ (lone_warnings (events s') = S (lone_warnings (events s))
      /\ ~ printed s /\ printed s').
Proof.
  destruct (call_api_events self a s) as (s1 & evs & Hs1 & Hp & Hev & Hlone).
  simpl. rewrite Hev, lone_warnings_app, Hlone, Hp, Nat.add_0_r.
  destruct Hs1 as [-> | ->]; [by left|].
  destruct (report_warning_once self lone_override_warning s)
    as (_ & _ & _ & [[Hin ->] | [Hnin Hevs]] & Hafter).
  - by left.
  - right. rewrite Hevs, lone_warnings_app, lone_warnings_single.
    split; [lia|]. by split.
Qed.

Lemma run_calls_lone_warnings (self : Self) (calls : list CallArgs) :
  forall s,
    let printed x := lone_override_warning ∈ inst_printed_messages (instance_of self x) in
    (lone_warnings (events (run_calls self calls s)) = lone_warnings (events s))
    \/ (lone_warnings (events (run_calls self calls s)) = S (lone_warnings (events s))
        /\ ~ printed s).
Proof.
  induction calls as [|a calls IH]; intros s; simpl; [by left|].
  destruct (call_api_lone_warnings self a s) as [[Hc Hp] | (Hc & Hn & Hp)];
    destruct (IH (snd (_call_api self a s))) as [Hr | [Hr Hn']]; simpl in *.
  - left. congruence.
  - right. split; [congruence|]. intros Hs. apply Hn', Hp, Hs.
  - right. split; [congruence | exact Hn].
  - exfalso. apply Hn', Hp.
Qed.

(** Once an object holds its candidate, every further call through it
    issues one request, built for that candidate. *)
Lemma run_calls_pinned (self : Self) (calls : list CallArgs) :
  forall (s : State) (v : AppVersion),
    inst_WORKING_APP_VERSION (instance_of self s) = Some v ->
    exists rs,
      requests_of (events (run_calls self calls s)) = (requests_of (events s) ++ rs)%list
      /\ map version_of_request rs = repeat (Some v) (length calls).
Proof.
  induction calls as [|a calls IH]; intros s v Hpin; simpl.
  - exists []. by rewrite app_nil_r.
  - destruct (call_api_pinned self a s v Hpin) as (r & w1 & Hv & _ & E).
    rewrite E. simpl.
    destruct (IH {| world := snd (_download_json r w1); objects := objects s;
                    events := events s ++ [EvRequest r] |} v Hpin) as (rs & Hreq & Hmap).
    exists (r :: rs). simpl in *. rewrite Hreq, requests_of_app, <- app_assoc. simpl.
    split; [reflexivity|]. by rewrite Hv, Hmap.
Qed.

End NegotiatorFacts.

Section NegotiatorClaims.
Context `{Host}.

Lemma prologue_state (self : Self) (s : State) :
  let s1 := if lone_override self
            then snd (report_warning self lone_override_warning true s) else s in
  world s1 = world s
  /\ inst_WORKING_APP_VERSION (instance_of self s1)
     = inst_WORKING_APP_VERSION (instance_of self s)
  /\ requests_of (events s1) = requests_of (events s).
Proof.
  intros s1. subst s1. destruct (lone_override self); [|done].
  destruct (report_warning_once self lone_override_warning s)
    as (_ & Hw & Hi & [[_ ->] | [_ Hev]] & _); [done|].
  split; [exact Hw|]. split; [exact Hi|].
  rewrite Hev, requests_of_app. simpl. by rewrite app_nil_r.
Qed.

(** C1 (amended).  A call through an extractor object that holds no
    candidate yet, and was not given both override arguments, tries the
    candidates in list order: as long as the host answers a candidate with
    a JSON decode error at position 0 the next one is tried ([tried]); the
    first candidate whose call succeeds ([c]) is stored in the object's own
    [_WORKING_APP_VERSION] and the result of that call is returned.  Every
    later call through the same object issues exactly one request, built
    for [c]. *)
Theorem negotiation_pins_first_accepted_candidate
    (self : Self) (a : CallArgs) (s : State)
    (tried : list AppVersion) (c : AppVersion) (later : list AppVersion)
    (res : option ApiJson) (w1 w2 : World) :
  inst_WORKING_APP_VERSION (instance_of self s) = None ->
  both_overrides self = false ->
  _APP_VERSIONS (cls self) = (tried ++ c :: later)%list ->
  all_rejected self a tried (world s) = Some w1 ->
  answer self a c w1 = (Return res, w2) ->
  fst (_call_api self a s) = Return res
  /\ world (snd (_call_api self a s)) = w2
  /\ inst_WORKING_APP_VERSION (instance_of self (snd (_call_api self a s))) = Some c
  /\ (exists rs,
        requests_of (events (snd (_call_api self a s))) = (requests_of (events s) ++ rs)%list
        /\ map version_of_request rs = map Some (tried ++ [c])%list)
  /\ (forall calls, exists rs,
        requests_of (events (run_calls self calls (snd (_call_api self a s))))
        = (requests_of (events (snd (_call_api self a s))) ++ rs)%list
        /\ map version_of_request rs = repeat (Some c) (length calls)).
Proof.
  intros Hunp Hboth Hcands Hrej Hans.
  rewrite (call_api_unpinned self a s Hunp Hboth).
  destruct (prologue_state self s) as (Hw & Hi & Hreq).
  set (s1 := if lone_override self
             then snd (report_warning self lone_override_warning true s) else s) in *.
  rewrite Hcands.
  destruct (negotiate_sweep self a tried 1%nat s1 c later res w1 w2) as (evs & E & Hvs & _).
  { rewrite Hcands, length_app. simpl. lia. }
  { by rewrite Hw. }
  { exact Hans. }
  rewrite E. simpl.
  assert (Hpin : inst_WORKING_APP_VERSION
                   (instance_of self {| world := w2; objects := pin_objects self (Some c) s1;
                                        events := events s1 ++ evs |}) = Some c)
    by apply (instance_after_pin self (Some c) s1).
  split; [reflexivity|]. split; [reflexivity|]. split; [exact Hpin|]. split.
  - exists (requests_of evs). split; [by rewrite requests_of_app, Hreq | exact Hvs].
  - intros calls. by apply run_calls_pinned.
Qed.

(** C2.  When the extractor object already holds a candidate, from an
    earlier success or from the operator's pair of override arguments, a
    call issues exactly one request, built for that candidate, and ends as
    the host answers it: a failure of any kind, the empty-body error
    included, is the outcome of the call, and no other candidate is tried. *)
Theorem pinned_call_is_exclusive
    (self : Self) (a : CallArgs) (s : State) (v : AppVersion) :
  pinned_for_call self s = Some v ->
  exists r w1,
    version_of_request r = Some v
    /\ fst (_call_api self a s) = fst (_download_json r w1)
    /\ (forall e, fst (_download_json r w1) = Raise e -> fst (_call_api self a s) = Raise e)
    /\ world (snd (_call_api self a s)) = snd (_download_json r w1)
    /\ requests_of (events (snd (_call_api self a s))) = (requests_of (events s) ++ [r])%list
    /\ inst_WORKING_APP_VERSION (instance_of self (snd (_call_api self a s))) = Some v.
Proof.
  unfold pinned_for_call. intros Hp.
  destruct (inst_WORKING_APP_VERSION (instance_of self s)) as [v0|] eqn:Hpin.
  - injection Hp as ->.
    destruct (call_api_pinned self a s v Hpin) as (r & w1 & Hv & _ & E).
    exists r, w1. rewrite E. simpl. split; [exact Hv|]. split; [reflexivity|].
    split; [auto|]. split; [reflexivity|]. split; [by rewrite requests_of_app|].
    exact Hpin.
  - destruct (both_overrides self) eqn:Hboth; [|discriminate]. injection Hp as <-.
    destruct (call_api_override self a s Hpin Hboth) as (r & w1 & Hv & _ & E).
    exists r, w1. rewrite E. simpl. split; [exact Hv|]. split; [reflexivity|].
    split; [auto|]. split; [reflexivity|].
    split; [by rewrite !requests_of_app; simpl; rewrite app_nil_r|].
    apply (instance_after_pin self (Some _) s).
Qed.

(** C10.  On an object that holds no candidate yet: with exactly one of
    the two override arguments passed, the call answers, leaves the world,
    pins and issues requests exactly as the call with no override argument
    does, so that whatever it pins is one of the built-in candidates; the
    warning is printed by this call if the object has not printed it
    before, and at most once over any sequence of calls through the object.
    With both arguments passed the pair is pinned and the single request
    of the call is built for it. *)
Theorem lone_override_is_ignored (self : Self) (a : CallArgs) (s : State) :
  inst_WORKING_APP_VERSION (instance_of self s) = None ->
  (lone_override self = true ->
     fst (_call_api self a s) = fst (_call_api (without_override self) a s)
     /\ world (snd (_call_api self a s)) = world (snd (_call_api (without_override self) a s))
     /\ inst_WORKING_APP_VERSION (instance_of self (snd (_call_api self a s)))
        = inst_WORKING_APP_VERSION
            (instance_of self (snd (_call_api (without_override self) a s)))
     /\ requests_of (events (snd (_call_api self a s)))
        = requests_of (events (snd (_call_api (without_override self) a s)))
     /\ (forall v, inst_WORKING_APP_VERSION (instance_of self (snd (_call_api self a s))) = Some v ->
                   In v (_APP_VERSIONS (cls self)))
     /\ ((lone_override_warning ∉ inst_printed_messages (instance_of self s)) ->
         lone_warnings (events (snd (_call_api self a s))) = S (lone_warnings (events s)))
     /\ (forall calls,
           lone_warnings (events (run_calls self calls s)) <= S (lone_warnings (events s)))%nat)
  /\ (both_overrides self = true ->
      exists r w1,
        version_of_request r
        = Some (arg_app_version (params self), arg_manifest_app_version (params self))
        /\ fst (_call_api self a s) = fst (_download_json r w1)
        /\ requests_of (events (snd (_call_api self a s))) = (requests_of (events s) ++ [r])%list
        /\ inst_WORKING_APP_VERSION (instance_of self (snd (_call_api self a s)))
           = Some (arg_app_version (params self), arg_manifest_app_version (params self))).
Proof.
  intros Hunp. split.
  - intros Hlone.
    assert (Hboth : both_overrides self = false).
    { unfold lone_override in Hlone. by destruct (both_overrides self). }
    assert (Hplain : _call_api (without_override self) a s
                     = negotiate self a 1 (_APP_VERSIONS (cls self)) s).
    { rewrite (call_api_unpinned (without_override self) a s Hunp eq_refl).
      apply negotiate_without_override. }
    rewrite Hplain, (call_api_unpinned self a s Hunp Hboth).
    destruct (prologue_state self s) as (Hw & Hi & Hreq). rewrite Hlone in *.
    set (s1 := snd (report_warning self lone_override_warning true s)) in *.
    destruct (negotiate_frame self a (_APP_VERSIONS (cls self)) 1%nat s)
      as (res & w' & evs & pin & E & Hno & Hin).
    rewrite (E s eq_refl), (E s1 Hw). simpl.
    destruct (instance_after_pin self pin s1 w' (events s1 ++ evs)) as [_ Hp1].
    destruct (instance_after_pin self pin s w' (events s ++ evs)) as [_ Hp2].
    simpl in Hp1, Hp2.
    split; [reflexivity|]. split; [reflexivity|].
    split; [rewrite Hp1, Hp2; by rewrite Hi|].
    split; [by rewrite !requests_of_app, Hreq|].
    split; [|split].
    + intros v Hv. rewrite Hp1, Hi, Hunp in Hv. destruct pin as [v'|]; [|discriminate].
      injection Hv as <-. by apply Hin.
    + intros Hnot. rewrite lone_warnings_app, Hno, Nat.add_0_r. subst s1.
      destruct (report_warning_once self lone_override_warning s)
        as (_ & _ & _ & [[Hi' _] | [_ Hev]] & _); [done|].
      rewrite Hev, lone_warnings_app, lone_warnings_single. lia.
    + intros calls. destruct (run_calls_lone_warnings self calls s) as [-> | [-> _]]; lia.
  - intros Hboth.
    destruct (call_api_override self a s Hunp Hboth) as (r & w1 & Hv & _ & E).
    exists r, w1. rewrite E. simpl. split; [exact Hv|]. split; [reflexivity|].
    split; [by rewrite !requests_of_app; simpl; rewrite app_nil_r|].
    apply (instance_after_pin self (Some _) s).
Qed.

End NegotiatorClaims.

Lemma negotiation_pins_first_accepted_candidate_witness :
  let s := start_state (script_of [empty_body; empty_body; Return (Some empty_page)]) in
  fst (_call_api tiktok_ie feed_args s) = Return (Some empty_page)
  /\ inst_WORKING_APP_VERSION (instance_of tiktok_ie (snd (_call_api tiktok_ie feed_args s)))
     = Some ("26.1.1", "260101")
  /\ exists rs,
       requests_of (events (snd (_call_api tiktok_ie feed_args s))) = rs
       /\ map version_of_request rs
          = [Some ("26.1.3", "260103"); Some ("26.1.2", "260102"); Some ("26.1.1", "260101")].
Proof.
  intros s.
  destruct (negotiation_pins_first_accepted_candidate
              tiktok_ie feed_args s
              [("26.1.3", "260103"); ("26.1.2", "260102")] ("26.1.1", "260101")
              [("25.6.2", "250602")] (Some empty_page)
              (default (world s)
                 (all_rejected tiktok_ie feed_args
                    [("26.1.3", "260103"); ("26.1.2", "260102")] (world s)))
              (snd (answer tiktok_ie feed_args ("26.1.1", "260101")
                      (default (world s)
                         (all_rejected tiktok_ie feed_args
                            [("26.1.3", "260103"); ("26.1.2", "260102")] (world s))))))
    as (Hres & _ & Hpin & (rs & Hreq & Hvs) & _).
  - vm_compute. reflexivity.
  - vm_compute. reflexivity.
  - vm_compute. reflexivity.
  - vm_compute. reflexivity.
  - vm_compute. reflexivity.
  - split; [exact Hres|]. split; [exact Hpin|].
    exists rs. split; [exact Hreq | exact Hvs].
Defined.

(** C1, as stated, does not hold: the candidate is pinned on the object
    that negotiated it, not for the process.  After [TikTokIE]'s object has
    pinned the second candidate, the next call of the process, made through
    [TikTokSoundIE]'s object, starts again from the first candidate. *)
Lemma negotiation_pin_is_per_object :
  let s := start_state (script_of [empty_body; Return (Some empty_page);
                                   Return (Some empty_page)]) in
  let first := _call_api tiktok_ie feed_args s in
  let second := _call_api tiktok_sound_ie feed_args (snd first) in
  fst first = Return (Some empty_page)
  /\ inst_WORKING_APP_VERSION (instance_of tiktok_ie (snd first)) = Some ("26.1.2", "260102")
  /\ fst second = Return (Some empty_page)
  /\ map version_of_request (requests_of (events (snd second)))
     = [Some ("26.1.3", "260103"); Some ("26.1.2", "260102"); Some ("26.1.3", "260103")]
  /\ inst_WORKING_APP_VERSION (instance_of tiktok_sound_ie (snd second))
     = Some ("26.1.3", "260103").
Proof. vm_compute. repeat split; reflexivity. Qed.

Lemma pinned_call_is_exclusive_witness :
  let s := snd (_call_api tiktok_ie feed_args
                  (start_state (script_of [Return (Some empty_page); empty_body]))) in
  exists r w1,
    version_of_request r = Some ("26.1.3", "260103")
    /\ fst (_call_api tiktok_ie feed_args s) = fst (_download_json r w1)
    /\ (forall e, fst (_download_json r w1) = Raise e ->
                  fst (_call_api tiktok_ie feed_args s) = Raise e)
    /\ world (snd (_call_api tiktok_ie feed_args s)) = snd (_download_json r w1)
    /\ requests_of (events (snd (_call_api tiktok_ie feed_args s)))
       = (requests_of (events s) ++ [r])%list
    /\ inst_WORKING_APP_VERSION (instance_of tiktok_ie (snd (_call_api tiktok_ie feed_args s)))
       = Some ("26.1.3", "260103").
Proof.
  intros s.
  apply (pinned_call_is_exclusive tiktok_ie feed_args s ("26.1.3", "260103")).
  vm_compute. reflexivity.
Defined.

Lemma lone_override_is_ignored_witness :
  let s := start_state (script_of [empty_body; Return (Some empty_page)]) in
  fst (_call_api lone_override_ie feed_args s)
  = fst (_call_api (without_override lone_override_ie) feed_args s)
  /\ requests_of (events (snd (_call_api lone_override_ie feed_args s)))
     = requests_of (events (snd (_call_api (without_override lone_override_ie) feed_args s)))
  /\ (forall calls,
        lone_warnings (events (run_calls lone_override_ie calls s)) <= 1)%nat.
Proof.
  intros s.
  destruct (lone_override_is_ignored lone_override_ie feed_args s) as [Hlone _].
  - vm_compute. reflexivity.
  - destruct Hlone as (Hres & _ & _ & Hreq & _ & _ & Honce).
    + vm_compute. reflexivity.
    + split; [exact Hres|]. split; [exact Hreq|]. exact Honce.
Defined.

Example pinned_failure_propagates :
  let s := snd (_call_api tiktok_ie feed_args
                  (start_state (script_of [Return (Some empty_page); empty_body]))) in
  fst (_call_api tiktok_ie feed_args s) = empty_body
  /\ length (requests_of (events (snd (_call_api tiktok_ie feed_args s)))) = 2%nat.
Proof. vm_compute. split; reflexivity. Qed.

Example lone_override_warns_once :
  let s := start_state (script_of [empty_body; Return (Some empty_page);
                                   Return (Some empty_page)]) in
  lone_warnings (events (run_calls lone_override_ie [feed_args; feed_args] s)) = 1%nat
  /\ inst_WORKING_APP_VERSION
       (instance_of lone_override_ie (run_calls lone_override_ie [feed_args; feed_args] s))
     = Some ("26.1.2", "260102").
Proof. vm_compute. split; reflexivity. Qed.

(* ===================================================================== *)
(** * Track attribution                                                    *)
(* ===================================================================== *)

Lemma is_generic_og_trackname_spec (m : MusicInfo) :
  is_generic_og_trackname m = true
  <-> is_original_sound m = true
      /\ music_title m = Some ("original sound - " ++ percent_s (owner_handle m)).
Proof.
  unfold is_generic_og_trackname. rewrite andb_true_iff, bool_decide_eq_true. tauto.
Qed.

(** C5, as stated, does not hold: for an auto-labelled original sound with
    no matched song the artist is the literal author field, not the
    (absent) author of a matched song. *)
Lemma og_artist_falls_back_to_author :
  is_generic_og_trackname pokemon_sound = true
  /\ matched_song_author pokemon_sound = None
  /\ info_track_of pokemon_sound = Some "original sound"
  /\ info_artist_of pokemon_sound = Some "Pokemon"
  /\ info_artist_of pokemon_sound <> matched_song_author pokemon_sound.
Proof. vm_compute. repeat split; try reflexivity. discriminate. Qed.

(** C5 (amended).  When the music info is flagged as original sound and
    its title is exactly ['original sound - '] followed by the owner handle,
    the track is the matched-song title when there is a non-empty one and
    ['original sound'] otherwise, and the artist is the matched-song author
    when there is one, the literal author field otherwise; for all other
    items track and artist are the literal title and author fields.  An
    empty artist is reported as absent.  The input of the specification
    yields track ['Real Song'] and artist ['Bob']. *)
Theorem track_attribution (m : MusicInfo) :
  (is_generic_og_trackname m = true ->
     info_track_of m
     = match nonempty (contained_music_track m) with
       | Some t => Some t
       | None => Some "original sound"
       end
     /\ info_artist_of m
        = nonempty match matched_song_author m with
                   | Some au => Some au
                   | None => music_author m
                   end)
  /\ (is_generic_og_trackname m = false ->
        info_track_of m = music_title m /\ info_artist_of m = nonempty (music_author m))
  /\ (info_track_of alice_sound = Some "Real Song" /\ info_artist_of alice_sound = Some "Bob").
Proof.
  split; [|split].
  - intros Hg. unfold info_track_of, info_artist_of, music_track_author. rewrite Hg. simpl.
    split.
    + unfold nonempty, str_or. destruct (contained_music_track m) as [t|]; [|done].
      by destruct (str_truthy t).
    + f_equal. unfold contained_music_author, matched_song_author, traverse_first. simpl.
      destruct (matched_song m ≫= ms_author); [done|].
      destruct (matched_pgc_sound m ≫= ms_author); [done|].
      by destruct (music_author m).
  - intros Hg. unfold info_track_of, info_artist_of, music_track_author. by rewrite Hg.
  - by vm_compute.
Qed.

(* ===================================================================== *)
(** * Thumbnails                                                           *)
(* ===================================================================== *)

(** C8, as stated, does not hold: a later cover field contributes its URL
    although an earlier field is available. *)
Lemma thumbnails_keep_later_fields :
  thumbnails_of two_covers_video
  = [ {| thumb_id := "cover"; thumb_url := "https://p16.example/cover.jpeg" |};
      {| thumb_id := "origin_cover"; thumb_url := "https://p16.example/origin.jpeg" |} ]
  /\ thumbnails_first_wins two_covers_video
     = [ {| thumb_id := "cover"; thumb_url := "https://p16.example/cover.jpeg" |} ]
  /\ thumbnails_of two_covers_video <> thumbnails_first_wins two_covers_video.
Proof. vm_compute. repeat split; try reflexivity. discriminate. Qed.

Lemma video_get_cover_known (v : VideoInfo) (cover_id : string) (c : Cover) :
  video_get_cover v cover_id = Some c -> In cover_id cover_ids.
Proof.
  unfold video_get_cover, cover_ids.
  destruct (String.eqb_spec cover_id "cover") as [->|_]; [intros _; simpl; auto 10|].
  destruct (String.eqb_spec cover_id "ai_dynamic_cover") as [->|_]; [intros _; simpl; auto 10|].
  destruct (String.eqb_spec cover_id "animated_cover") as [->|_]; [intros _; simpl; auto 10|].
  destruct (String.eqb_spec cover_id "ai_dynamic_cover_bak") as [->|_];
    [intros _; simpl; auto 10|].
  destruct (String.eqb_spec cover_id "origin_cover") as [->|_]; [intros _; simpl; auto 10|].
  destruct (String.eqb_spec cover_id "dynamic_cover") as [->|_]; [intros _; simpl; auto 10|].
  discriminate.
Qed.

(** C8 (amended).  The thumbnail list holds, for every cover field of the
    fixed priority list that is available, all URLs of that field, each
    tagged with the field's name, the fields in priority order; the URLs of
    the first available field come first. *)
Theorem thumbnails_from_every_cover_field (v : VideoInfo) :
  thumbnails_of v
  = (field_thumbnails "cover" (cover v)
     ++ field_thumbnails "ai_dynamic_cover" (ai_dynamic_cover v)
     ++ field_thumbnails "animated_cover" (animated_cover v)
     ++ field_thumbnails "ai_dynamic_cover_bak" (ai_dynamic_cover_bak v)
     ++ field_thumbnails "origin_cover" (origin_cover v)
     ++ field_thumbnails "dynamic_cover" (dynamic_cover v))%list
  /\ (forall t, In t (thumbnails_of v)
                <-> exists c, video_get_cover v (thumb_id t) = Some c
                              /\ In (thumb_url t) (cover_url_list c))
  /\ thumbnails_first_wins v `prefix_of` thumbnails_of v.
Proof.
  assert (Heq : thumbnails_of v
    = (field_thumbnails "cover" (cover v)
       ++ field_thumbnails "ai_dynamic_cover" (ai_dynamic_cover v)
       ++ field_thumbnails "animated_cover" (animated_cover v)
       ++ field_thumbnails "ai_dynamic_cover_bak" (ai_dynamic_cover_bak v)
       ++ field_thumbnails "origin_cover" (origin_cover v)
       ++ field_thumbnails "dynamic_cover" (dynamic_cover v))%list).
  { unfold thumbnails_of, cover_ids, field_thumbnails, video_get_cover. simpl.
    by rewrite app_nil_r. }
  split; [exact Heq|]. split.
  - intros t. unfold thumbnails_of. rewrite in_flat_map. split.
    + intros (cover_id & _ & Hin).
      destruct (video_get_cover v cover_id) as [c|] eqn:Hc; [|done].
      apply in_map_iff in Hin as (u & <- & Hu). simpl. eauto.
    + intros (c & Hc & Hu). exists (thumb_id t).
      split; [by eapply video_get_cover_known|].
      rewrite Hc. apply in_map_iff. exists (thumb_url t). by destruct t.
  - rewrite Heq. unfold thumbnails_first_wins, first_available_cover, cover_ids,
      video_get_cover. simpl.
    destruct (cover v); simpl; [by eexists|].
    destruct (ai_dynamic_cover v); simpl; [by eexists|].
    destruct (animated_cover v); simpl; [by eexists|].
    destruct (ai_dynamic_cover_bak v); simpl; [by eexists|].
    destruct (origin_cover v); simpl; [by eexists|].
    destruct (dynamic_cover v); simpl; [exists []; by rewrite app_nil_r | by exists []].
Qed.

(* ===================================================================== *)
(** * The short-link resolver                                              *)
(* ===================================================================== *)

(** C9, as stated, does not hold: the short link resolves to another
    link, not to itself, and yet the outcome is the unsupported-URL error
    rather than a new extraction target. *)
Lemma short_link_to_other_short_link_is_unsupported :
  let url := "https://vm.tiktok.com/ZSe4FqkKd" in
  let new_url := "https://vt.tiktok.com/ZSJ7bUQxN" in
  let s := start_state (head_script [Return new_url]) in
  String.eqb new_url url = false
  /\ fst (vm_real_extract url s) = Raise (EUnsupportedError new_url).
Proof. vm_compute. split; reflexivity. Qed.

(** C9 (amended).  For a short link the resolver issues one HEAD request.
    When the link resolves to a URL that the short-link extractor itself
    accepts, in particular when it resolves to itself, extraction fails
    with the unsupported-URL error; when it resolves to any other URL, that
    URL is handed on as the new extraction target.  There is no retry. *)
Theorem short_link_resolution `{Host} (url : string) (s : State) :
  vm_suitable url = true ->
  vm_real_extract url s
  = (match fst (_head_geturl url (world s)) with
     | Return new_url =>
         if vm_suitable new_url then Raise (EUnsupportedError new_url)
         else Return {| result_url := new_url |}
     | Raise e => Raise e
     end,
     {| world := snd (_head_geturl url (world s)); objects := objects s; events := events s |})
  /\ (fst (_head_geturl url (world s)) = Return url ->
      fst (vm_real_extract url s) = Raise (EUnsupportedError url)).
Proof.
  intros Hs. unfold vm_suitable in Hs.
  assert (E : vm_real_extract url s
    = (match fst (_head_geturl url (world s)) with
       | Return new_url =>
           if vm_suitable new_url then Raise (EUnsupportedError new_url)
           else Return {| result_url := new_url |}
       | Raise e => Raise e
       end,
       {| world := snd (_head_geturl url (world s)); objects := objects s;
          events := events s |})).
  { unfold vm_real_extract. destruct (vm_match_valid_url url); [|discriminate].
    unfold bind, lift_world_result.
    destruct (_head_geturl url (world s)) as [[new_url|e] w']; simpl; [|done].
    by destruct (vm_suitable new_url). }
  split; [exact E|].
  intros Hself. rewrite E, Hself. simpl. unfold vm_suitable.
  by destruct (vm_match_valid_url url).
Qed.

Lemma short_link_resolution_witness :
  let url := "https://vm.tiktok.com/ZSe4FqkKd" in
  let s := start_state
             (head_script
                [Return "https://www.tiktok.com/@susmandem/video/7023491746608712966"]) in
  fst (vm_real_extract url s)
  = Return {| result_url := "https://www.tiktok.com/@susmandem/video/7023491746608712966" |}.
Proof.
  intros url s.
  destruct (short_link_resolution url s) as [E _].
  - vm_compute. reflexivity.
  - rewrite E. vm_compute. reflexivity.
Defined.

Example short_link_loop :
  let url := "https://vm.tiktok.com/ZSe4FqkKd" in
  fst (vm_real_extract url (start_state (head_script [Return url])))
  = Raise (EUnsupportedError url).
Proof. vm_compute. reflexivity. Qed.

(* ===================================================================== *)
(** * Subtitles                                                            *)
(* ===================================================================== *)

(** C6: the code at an utterance list whose first utterance has no text.
    The only cue is numbered 2: [enumerate] counts the utterances before
    the filter drops the silent one. *)
Theorem srt_numbering_counts_dropped_utterances :
  srt_data [ {| start_time := 0; end_time := 1000; text := Some "" |};
             {| start_time := 1000; end_time := 2000; text := Some "hi" |} ]
  = "2" ++ nl ++ "00:00:01,000 --> 00:00:02,000" ++ nl ++ "hi".
Proof. vm_compute. reflexivity. Qed.

Lemma enumerate_all_have_text (lines : list Utterance) :
  Forall (fun line => has_text line = true) lines ->
  forall start,
    filter (fun p => has_text (snd p) = true) (enumerate_from start lines)
    = enumerate_from start lines.
Proof.
  induction 1 as [|line lines Hline _ IH]; intros start; simpl; [done|].
  rewrite filter_cons. simpl. destruct (decide (has_text line = true)); [|done].
  by rewrite IH.
Qed.

(** When every utterance has text the cues are numbered 1, 2, 3, ... *)
Lemma srt_data_sequential (lines : list Utterance) :
  Forall (fun line => has_text line = true) lines ->
  srt_data lines
  = str_join (nl ++ nl) (map (fun p => srt_cue (fst p) (snd p)) (enumerate_from 0 lines))
  /\ map fst (enumerate_from 0 lines) = seq 0 (length lines).
Proof.
  intros Hall. unfold srt_data. rewrite (enumerate_all_have_text lines Hall). split; [done|].
  generalize 0%nat. clear Hall. induction lines as [|l lines IH]; intros n; simpl; [done|].
  by rewrite IH.
Qed.

Example get_subtitles_hi :
  let caption := {| caption_url_list := ["https://v16.example/caption.json"];
                    language := None |} in
  let detail := {| aweme_id := "7047596209028074758"; video := no_covers_video;
                   music := alice_sound; author_uid := None; desc := None;
                   interaction_stickers := [[caption]] |} in
  let reply := {| utterances :=
                    Some [ {| start_time := 0; end_time := 1000; text := Some "hi" |} ] |} in
  fst (_get_subtitles detail (aweme_id detail) (start_state (caption_script [Some reply])))
  = Return {[ "en" := [ {| sub_ext := "srt";
                           sub_data := "1" ++ nl ++ "00:00:00,000 --> 00:00:01,000"
                                       ++ nl ++ "hi" |} ] ]}.
Proof. vm_compute. reflexivity. Qed.

(* ===================================================================== *)
(** * Resolution inheritance                                               *)
(* ===================================================================== *)

Lemma is_res_truthy (r : string) : is_res r = true -> str_truthy r = true.
Proof. by destruct r. Qed.

Lemma search_url_key_res (segs : list string) (c r b : string) :
  search_url_key segs = Some (c, r, b) -> is_res r = true.
Proof.
  induction segs as [|a rest IH]; [done|]. simpl.
  destruct rest as [|c' [|r' [|b' rest']]]; try done.
  destruct (v_then_more a && str_truthy c' && is_res r' && str_truthy (digit_prefix b'))
    eqn:Hm; [|exact IH].
  intros [= <- <- <-]. apply andb_true_iff in Hm as [Hm _].
  by apply andb_true_iff in Hm as [_ Hm].
Qed.

Lemma slot_tag_truthy (slot : Addr * Meta) (r : string) :
  slot_tag slot = Some r -> str_truthy r = true.
Proof.
  unfold slot_tag, parse_url_key.
  destruct (search_url_key _) as [[[c r'] b]|] eqn:Hs; [|done].
  simpl. intros [= <-]. eapply is_res_truthy, search_url_key_res, Hs.
Qed.

Lemma parse_url_key_quality (k : string) (pm : Meta) (r : string) :
  parse_url_key k = (pm, Some r) -> pm !! "quality" = Some (VInt (qualities QUALITIES r)).
Proof.
  unfold parse_url_key. destruct (search_url_key _) as [[[c r'] b]|]; [|done].
  by intros [= <- <-].
Qed.

Lemma setdefault_lookup (k : string) (v : Val) (d : Meta) :
  setdefault k v d !! k = Some (default v (d !! k)).
Proof.
  unfold setdefault. destruct (d !! k) eqn:E; simpl; [done|]. by rewrite lookup_insert_eq.
Qed.

Lemma setdefault_lookup_ne (k k' : string) (v : Val) (d : Meta) :
  k <> k' -> setdefault k v d !! k' = d !! k'.
Proof.
  intros Hne. unfold setdefault. destruct (d !! k); [done|]. by rewrite lookup_insert_ne.
Qed.

(** [extract_addr] on an address whose key carries the tag [r]: the table
    keeps the dimensions it already has for [r], or takes those passed in
    [add_meta]; every descriptor built gets the dimensions of the table. *)
Lemma extract_addr_tagged (addr : Addr) (meta : Meta) (known : Known) (r : string) :
  table_ok known ->
  slot_tag (addr, meta) = Some r ->
  let hw := match table_dims known r with
            | Some hw => hw
            | None => meta_dims meta
            end in
  table_dims (snd (extract_addr addr meta known)) r = Some hw
  /\ (forall f, In f (fst (extract_addr addr meta known)) ->
                meta_dims f = hw /\ dict_get f "quality" = VInt (qualities QUALITIES r))
  /\ table_ok (snd (extract_addr addr meta known))
  /\ (forall r', r' <> r -> snd (extract_addr addr meta known) !! r' = known !! r').
Proof.
  intros Hok Htag. pose proof (slot_tag_truthy _ _ Htag) as Htruthy.
  unfold slot_tag in Htag. simpl in Htag. unfold extract_addr.
  pose proof (parse_url_key_quality (default "" (url_key addr))) as Hq.
  destruct (parse_url_key (default "" (url_key addr))) as [pm res]. simpl in Htag. subst res.
  specialize (Hq pm r eq_refl).
  rewrite Htruthy. cbv zeta. rewrite !lookup_insert_eq. simpl.
  set (d0 := default ∅ (known !! r)).
  set (e1 := setdefault "height" (dict_get meta "height") d0).
  set (e2 := setdefault "width" (dict_get meta "width") e1).
  assert (Hh : e2 !! "height" = Some (default (dict_get meta "height") (d0 !! "height"))).
  { subst e2. rewrite setdefault_lookup_ne by done. apply setdefault_lookup. }
  assert (Hw : e2 !! "width" = Some (default (dict_get meta "width") (d0 !! "width"))).
  { subst e2. rewrite setdefault_lookup. f_equal. f_equal. subst e1.
    by rewrite setdefault_lookup_ne. }
  assert (Hhw : (default (dict_get meta "height") (d0 !! "height"),
                 default (dict_get meta "width") (d0 !! "width"))
                = match table_dims known r with
                  | Some hw => hw
                  | None => meta_dims meta
                  end).
  { unfold table_dims. subst d0. destruct (known !! r) as [d|] eqn:Hd; simpl.
    - destruct (Hok r d Hd) as ([h ->] & [w ->] & _). reflexivity.
    - by rewrite !lookup_empty. }
  assert (Hnq : e2 !! "quality" = None).
  { subst e2 e1 d0. rewrite !setdefault_lookup_ne by done.
    destruct (known !! r) as [d|] eqn:Hd; simpl; [apply (Hok r d Hd) | apply lookup_empty]. }
  split; [|split; [|split]].
  - unfold table_dims. rewrite lookup_insert_eq. simpl. rewrite Hh, Hw. simpl.
    by rewrite Hhw.
  - intros f Hf. apply in_map_iff in Hf as (url & <- & _). split.
    + unfold meta_dims, dict_get. rewrite !lookup_insert_ne by done.
      rewrite (lookup_union_Some_l _ _ _ _ (lookup_union_Some_l _ _ _ _ Hh)).
      rewrite (lookup_union_Some_l _ _ _ _ (lookup_union_Some_l _ _ _ _ Hw)).
      simpl. exact Hhw.
    + unfold dict_get. rewrite lookup_insert_ne by done.
      erewrite lookup_union_Some_l; [reflexivity|].
      by rewrite lookup_union_r.
  - intros r' d. destruct (decide (r' = r)) as [->|Hne].
    + rewrite lookup_insert_eq. intros [= <-]. rewrite Hh, Hw. eauto.
    + rewrite !lookup_insert_ne by done. apply Hok.
  - intros r' Hne. by rewrite !lookup_insert_ne.
Qed.

Lemma extract_addr_untagged (addr : Addr) (meta : Meta) (known : Known) :
  slot_tag (addr, meta) = None -> snd (extract_addr addr meta known) = known.
Proof.
  unfold slot_tag, extract_addr. simpl.
  destruct (parse_url_key (default "" (url_key addr))) as [pm res]. simpl.
  by intros ->.
Qed.

Lemma extract_slots_cons (addr : Addr) (meta : Meta) (rest : list (Addr * Meta))
    (known : Known) :
  extract_slots ((addr, meta) :: rest) known
  = fst (extract_addr addr meta known)
    :: extract_slots rest (snd (extract_addr addr meta known)).
Proof. simpl. by destruct (extract_addr addr meta known). Qed.

(** Every descriptor of a tagged slot has the dimensions the table had
    for the tag or, failing that, those passed with the first slot of
    that tag. *)
Lemma extract_slots_dims (slots : list (Addr * Meta)) :
  forall (known : Known) (j : nat) (slot : Addr * Meta) (r : string)
         (fs : list Format) (f : Format),
    table_ok known ->
    slots !! j = Some slot ->
    slot_tag slot = Some r ->
    extract_slots slots known !! j = Some fs ->
    In f fs ->
    Some (meta_dims f) = match table_dims known r with
                         | Some hw => Some hw
                         | None => first_dims slots r
                         end
    /\ dict_get f "quality" = VInt (qualities QUALITIES r).
Proof.
  induction slots as [|[a0 m0] rest IH]; intros known j slot r fs f Hok Hj Htag Hfs Hf;
    [done|].
  rewrite extract_slots_cons in Hfs.
  destruct j as [|j]; simpl in Hj, Hfs.
  - injection Hj as <-. injection Hfs as <-.
    destruct (extract_addr_tagged a0 m0 known r Hok Htag) as (_ & Hdims & _).
    destruct (Hdims f Hf) as [-> ->]. split; [|done].
    simpl. rewrite bool_decide_eq_true_2 by done.
    by destruct (table_dims known r).
  - destruct (slot_tag (a0, m0)) as [r0|] eqn:Ht0.
    + destruct (extract_addr_tagged a0 m0 known r0 Hok Ht0) as (Htab & _ & Hok' & Hother).
      destruct (IH _ j slot r fs f Hok' Hj Htag Hfs Hf) as [-> ->]. split; [|done]. simpl.
      destruct (decide (r0 = r)) as [->|Hne].
      * rewrite Htab, bool_decide_eq_true_2 by done. by destruct (table_dims known r).
      * rewrite bool_decide_eq_false_2 by congruence.
        unfold table_dims. by rewrite (Hother r) by congruence.
    + rewrite (extract_addr_untagged a0 m0 known Ht0) in Hfs.
      destruct (IH _ j slot r fs f Hok Hj Htag Hfs Hf) as [-> ->]. split; [|done]. simpl.
      by rewrite bool_decide_eq_false_2 by congruence.
Qed.

Lemma first_dims_agreeing (slots : list (Addr * Meta)) (r : string) (D : Val * Val) :
  forall (i : nat) (slot : Addr * Meta),
    slots !! i = Some slot ->
    slot_tag slot = Some r ->
    (forall k s', (k <= i)%nat -> slots !! k = Some s' -> meta_dims (snd s') = D) ->
    first_dims slots r = Some D.
Proof.
  induction slots as [|s0 rest IH]; intros i slot Hi Htag Hall; [done|]. simpl.
  case_bool_decide as Ht0.
  - f_equal. apply (Hall 0%nat s0); [lia | done].
  - destruct i as [|i]; simpl in Hi; [congruence|].
    apply (IH i slot Hi Htag). intros k s' Hk Hs'. apply (Hall (S k) s'); [lia | done].
Qed.

(** The slots of a video: those made from [play_addr] and [download_addr]
    come first and pass the video's own dimensions; no later slot passes
    any. *)
Lemma stream_slots_split (v : VideoInfo) :
  exists front back,
    stream_slots v = (front ++ back)%list
    /\ Forall (fun slot => meta_dims (snd slot)
                           = (val_of_int (height v), val_of_int (width v))) front
    /\ Forall (fun slot => snd slot !! "width" = None) back.
Proof.
  unfold stream_slots.
  match goal with
  | |- exists front back, (?P ++ ?D ++ ?R)%list = _ /\ _ => exists (P ++ D)%list, R
  end.
  split; [by rewrite app_assoc|]. split.
  - apply Forall_app. split.
    + destruct (play_addr v); constructor; [reflexivity | constructor].
    + destruct (download_addr v); constructor; [reflexivity | constructor].
  - apply Forall_app. split; [|apply Forall_app; split].
    + destruct (play_addr_h264 v); constructor; [reflexivity | constructor].
    + destruct (play_addr_bytevc1 v); constructor; [reflexivity | constructor].
    + apply Forall_forall. intros slot Hin.
      apply list_elem_of_omap in Hin as (b & _ & Hb).
      destruct (br_play_addr b); [|discriminate]. injection Hb as <-. reflexivity.
Qed.

Lemma stream_slots_carrying (v : VideoInfo) (i : nat) (slot : Addr * Meta) :
  stream_slots v !! i = Some slot ->
  is_Some (snd slot !! "width") ->
  forall k s', (k <= i)%nat -> stream_slots v !! k = Some s' ->
               meta_dims (snd s') = (val_of_int (height v), val_of_int (width v)).
Proof.
  destruct (stream_slots_split v) as (front & back & -> & Hfront & Hback).
  intros Hi Hw k s' Hk Hs'.
  assert (Hlt : (i < length front)%nat).
  { destruct (decide (i < length front)%nat) as [|Hge]; [done|].
    rewrite lookup_app_r in Hi by lia.
    apply list_elem_of_lookup_2 in Hi.
    rewrite Forall_forall in Hback. rewrite (Hback _ Hi) in Hw. by destruct Hw. }
  rewrite lookup_app_l in Hs' by lia.
  apply list_elem_of_lookup_2 in Hs'. rewrite Forall_forall in Hfront. by apply Hfront.
Qed.

(* ===================================================================== *)
(** * Removing duplicates and ranking                                      *)
(* ===================================================================== *)

Lemma cmp_oq_refl (a : option Q) : cmp_oq a a = Eq.
Proof. destruct a as [x|]; simpl; [|done]. by apply Qeq_alt. Qed.

Lemma cmp_oq_antisym (a b : option Q) : cmp_oq b a = CompOpp (cmp_oq a b).
Proof. destruct a, b; simpl; try done. symmetry. apply Qcompare_antisym. Qed.

Lemma cmp_oq_eq_l (a b c : option Q) : cmp_oq a b = Eq -> cmp_oq a c = cmp_oq b c.
Proof.
  destruct a as [x|], b as [y|], c as [z|]; simpl; try done.
  intros E. apply Qeq_alt in E. by rewrite E.
Qed.

Lemma cmp_oq_eq_r (a b c : option Q) : cmp_oq b c = Eq -> cmp_oq a b = cmp_oq a c.
Proof.
  destruct a as [x|], b as [y|], c as [z|]; simpl; try done.
  intros E. apply Qeq_alt in E. by rewrite E.
Qed.

Lemma cmp_oq_lt_trans (a b c : option Q) :
  cmp_oq a b = Lt -> cmp_oq b c = Lt -> cmp_oq a c = Lt.
Proof.
  destruct a as [x|], b as [y|], c as [z|]; simpl; try done.
  rewrite <- !Qlt_alt. apply Qlt_trans.
Qed.

Lemma cmp_lex_refl (a : list (option Q)) : cmp_lex a a = Eq.
Proof. induction a as [|x a IH]; simpl; [done|]. by rewrite cmp_oq_refl. Qed.

Lemma cmp_lex_antisym (a : list (option Q)) :
  forall b, cmp_lex b a = CompOpp (cmp_lex a b).
Proof.
  induction a as [|x a IH]; intros [|y b]; simpl; try done.
  rewrite (cmp_oq_antisym x y). destruct (cmp_oq x y); simpl; [apply IH | done | done].
Qed.

Lemma cmp_lex_eq_l (a : list (option Q)) :
  forall b c, cmp_lex a b = Eq -> cmp_lex a c = cmp_lex b c.
Proof.
  induction a as [|x a IH]; intros [|y b] [|z c]; simpl; try done.
  all: destruct (cmp_oq x y) eqn:Exy; try discriminate.
  all: intros E; try done.
  rewrite (cmp_oq_eq_l x y z Exy).
  destruct (cmp_oq y z); [by apply IH | done | done].
Qed.

Lemma cmp_lex_eq_r (a : list (option Q)) :
  forall b c, cmp_lex b c = Eq -> cmp_lex a b = cmp_lex a c.
Proof.
  induction a as [|x a IH]; intros [|y b] [|z c]; simpl; try done.
  all: destruct (cmp_oq y z) eqn:Eyz; try discriminate.
  all: intros E; try done.
  rewrite (cmp_oq_eq_r x y z Eyz).
  destruct (cmp_oq x z); [by apply IH | done | done].
Qed.

Lemma cmp_lex_lt_trans (a : list (option Q)) :
  forall b c, cmp_lex a b = Lt -> cmp_lex b c = Lt -> cmp_lex a c = Lt.
Proof.
  induction a as [|x a IH]; intros [|y b] [|z c]; simpl; try done.
  all: destruct (cmp_oq x y) eqn:Exy; try discriminate.
  all: destruct (cmp_oq y z) eqn:Eyz; try discriminate; try done.
  - rewrite (cmp_oq_eq_l x y z Exy), Eyz. apply IH.
  - by rewrite (cmp_oq_eq_l x y z Exy), Eyz.
  - by rewrite <- (cmp_oq_eq_r x y z Eyz), Exy.
  - by rewrite (cmp_oq_lt_trans x y z Exy Eyz).
Qed.

Section SortingFacts.
Context `{Host}.

Lemma format_leb_total (f g : Format) : format_leb f g = false -> format_leb g f = true.
Proof.
  unfold format_leb. rewrite (cmp_lex_antisym (sort_key f) (sort_key g)).
  by destruct (cmp_lex (sort_key f) (sort_key g)).
Qed.

Lemma format_leb_trans (f g h : Format) :
  format_leb f g = true -> format_leb g h = true -> format_leb f h = true.
Proof.
  unfold format_leb.
  destruct (cmp_lex (sort_key f) (sort_key g)) eqn:Efg; try discriminate; intros _.
  - by rewrite (cmp_lex_eq_l _ _ (sort_key h) Efg).
  - destruct (cmp_lex (sort_key g) (sort_key h)) eqn:Egh; try discriminate; intros _.
    + by rewrite <- (cmp_lex_eq_r (sort_key f) _ _ Egh), Efg.
    + by rewrite (cmp_lex_lt_trans _ _ _ Efg Egh).
Qed.

Lemma insert_format_perm (f : Format) (l : list Format) :
  Permutation (insert_format f l) (f :: l).
Proof.
  induction l as [|g l IH]; simpl; [done|].
  destruct (format_leb f g); [done|].
  rewrite IH. apply Permutation_swap.
Qed.

Lemma sort_formats_perm (l : list Format) : Permutation (_sort_formats l) l.
Proof.
  induction l as [|f l IH]; simpl; [done|].
  rewrite insert_format_perm. by constructor.
Qed.

Lemma insert_format_hdrel (a f : Format) (l : list Format) :
  HdRel (fun x y => format_leb x y = true) a l ->
  format_leb a f = true ->
  HdRel (fun x y => format_leb x y = true) a (insert_format f l).
Proof.
  intros Hhd Haf. destruct l as [|g l]; simpl; [by constructor|].
  destruct (format_leb f g); constructor; [done|]. by inversion Hhd.
Qed.

Lemma insert_format_sorted (f : Format) (l : list Format) :
  Sorted (fun x y => format_leb x y = true) l ->
  Sorted (fun x y => format_leb x y = true) (insert_format f l).
Proof.
  induction 1 as [|g l Hs IH Hhd]; simpl; [by repeat constructor|].
  destruct (format_leb f g) eqn:Efg.
  - constructor; [by constructor | by constructor].
  - constructor; [exact IH|].
    apply insert_format_hdrel; [exact Hhd | by apply format_leb_total].
Qed.

Lemma sort_formats_sorted (l : list Format) :
  StronglySorted (fun x y => format_leb x y = true) (_sort_formats l).
Proof.
  apply Sorted_StronglySorted.
  - intros f g h. apply format_leb_trans.
  - induction l as [|f l IH]; simpl; [constructor | by apply insert_format_sorted].
Qed.

(** Stability: descriptors of one rank leave the sort in the order they
    entered it. *)
Lemma insert_format_stable (h f : Format) (l : list Format) :
  filter (fun g => same_rank h g = true) (insert_format f l)
  = filter (fun g => same_rank h g = true) (f :: l).
Proof.
  induction l as [|g l IH]; simpl; [done|].
  destruct (format_leb f g) eqn:Efg; [done|].
  rewrite filter_cons, IH, !filter_cons.
  destruct (decide (same_rank h g = true)) as [Hg|Hg];
    destruct (decide (same_rank h f = true)) as [Hf|Hf]; try done.
  exfalso. unfold same_rank in Hg, Hf. unfold format_leb in Efg.
  destruct (cmp_lex (sort_key h) (sort_key g)) eqn:Ehg; try discriminate.
  destruct (cmp_lex (sort_key h) (sort_key f)) eqn:Ehf; try discriminate.
  assert (cmp_lex (sort_key f) (sort_key h) = Eq) as Efh
    by (by rewrite (cmp_lex_antisym (sort_key h) (sort_key f)), Ehf).
  rewrite (cmp_lex_eq_l _ _ (sort_key g) Efh), Ehg in Efg. discriminate.
Qed.

Lemma sort_formats_stable (h : Format) (l : list Format) :
  filter (fun g => same_rank h g = true) (_sort_formats l)
  = filter (fun g => same_rank h g = true) l.
Proof.
  induction l as [|f l IH]; simpl; [done|].
  by rewrite insert_format_stable, !filter_cons, IH.
Qed.

Lemma format_leb_tier (f g : Format) :
  format_leb f g = true -> cmp_oq (f_tier f) (f_tier g) <> Gt.
Proof.
  unfold format_leb, sort_key. simpl. by destruct (cmp_oq (f_tier f) (f_tier g)).
Qed.

End SortingFacts.

Lemma same_key_spec (f g : Format) :
  same_key f g = true
  <-> cmp_oq (f_tier f) (f_tier g) = Eq /\ f_codec f = f_codec g
      /\ cmp_oq (f_size f) (f_size g) = Eq /\ cmp_oq (f_bitrate f) (f_bitrate g) = Eq.
Proof.
  unfold same_key.
  destruct (cmp_oq (f_tier f) (f_tier g)), (cmp_oq (f_size f) (f_size g)),
    (cmp_oq (f_bitrate f) (f_bitrate g)); rewrite ?bool_decide_eq_true; intuition congruence.
Qed.

Lemma same_key_refl (f : Format) : same_key f f = true.
Proof. apply same_key_spec. by rewrite !cmp_oq_refl. Qed.

Lemma same_key_sym (f g : Format) : same_key f g = true -> same_key g f = true.
Proof.
  rewrite !same_key_spec. intros (Ht & Hc & Hs & Hb).
  rewrite (cmp_oq_antisym (f_tier f)), (cmp_oq_antisym (f_size f)),
    (cmp_oq_antisym (f_bitrate f)), Ht, Hs, Hb. by rewrite Hc.
Qed.

Lemma same_key_trans (f g h : Format) :
  same_key f g = true -> same_key g h = true -> same_key f h = true.
Proof.
  rewrite !same_key_spec. intros (Ht & Hc & Hs & Hb) (Ht' & Hc' & Hs' & Hb').
  rewrite (cmp_oq_eq_l _ _ _ Ht), (cmp_oq_eq_l _ _ _ Hs), (cmp_oq_eq_l _ _ _ Hb).
  split; [done|]. split; [congruence|]. by split.
Qed.

Lemma remove_duplicate_formats_sublist (l : list Format) :
  _remove_duplicate_formats l `sublist_of` l.
Proof.
  induction l as [|f l IH]; simpl; [done|].
  apply sublist_skip. etrans; [apply sublist_filter | exact IH].
Qed.

Lemma remove_duplicate_formats_in (l : list Format) (g : Format) :
  In g (_remove_duplicate_formats l) -> In g l.
Proof.
  rewrite <- !list_elem_of_In. intros Hg.
  eapply elem_of_sublist; [exact Hg | apply remove_duplicate_formats_sublist].
Qed.

Lemma ForallOrdPairs_filter {A} (R : A -> A -> Prop) (P : A -> Prop)
    `{forall x, Decision (P x)} (l : list A) :
  ForallOrdPairs R l -> ForallOrdPairs R (filter P l).
Proof.
  induction 1 as [|a l Ha Hl IH]; [constructor|].
  rewrite filter_cons. destruct (decide (P a)); [|exact IH].
  constructor; [|exact IH].
  apply List.Forall_forall. intros x Hx. apply list_elem_of_In, list_elem_of_filter in Hx.
  rewrite List.Forall_forall in Ha. apply Ha, list_elem_of_In, Hx.
Qed.

(** No two descriptors that are kept look identical. *)
Lemma remove_duplicate_formats_distinct (l : list Format) :
  ForallOrdPairs (fun f g => same_key f g = false) (_remove_duplicate_formats l).
Proof.
  induction l as [|f l IH]; simpl; [constructor|].
  constructor; [|by apply ForallOrdPairs_filter].
  apply List.Forall_forall. intros g Hg.
  by apply list_elem_of_In, list_elem_of_filter in Hg as [Hg _].
Qed.

(** Every descriptor has a look-alike among those kept. *)
Lemma remove_duplicate_formats_covers (l : list Format) (f : Format) :
  In f l -> exists g, In g (_remove_duplicate_formats l) /\ same_key g f = true.
Proof.
  induction l as [|f0 l IH]; [done|]. intros [<- | Hin].
  - exists f0. split; [by left | apply same_key_refl].
  - destruct (IH Hin) as (g & Hg & Hgf). simpl.
    destruct (same_key f0 g) eqn:E0.
    + exists f0. split; [by left | by eapply same_key_trans].
    + exists g. split; [|done]. right.
      apply list_elem_of_In, list_elem_of_filter. split; [done | by apply list_elem_of_In].
Qed.

Lemma table_ok_empty : table_ok ∅.
Proof. intros r d. by rewrite lookup_empty. Qed.

Lemma StronglySorted_weaken {A} (R S : A -> A -> Prop) (l : list A) :
  (forall x y, R x y -> S x y) -> StronglySorted R l -> StronglySorted S l.
Proof.
  intros RS. induction 1 as [|a l Hl IH Ha]; constructor; [exact IH|].
  eapply List.Forall_impl; [|exact Ha]. intros y. apply RS.
Qed.

Lemma In_extract_slots (slots : list (Addr * Meta)) (known : Known) (j : nat)
    (fs : list Format) (f : Format) :
  extract_slots slots known !! j = Some fs -> In f fs ->
  In f (concat (extract_slots slots known)).
Proof.
  intros Hj Hf. apply in_concat. exists fs.
  split; [by eapply list_elem_of_In, list_elem_of_lookup_2 | done].
Qed.

Section ReconcilerClaims.
Context `{Host}.

Lemma reconciled_formats_in (v : VideoInfo) (f : Format) :
  In f (reconciled_formats v) -> In f (extracted_formats v).
Proof.
  unfold reconciled_formats. intros Hf.
  apply remove_duplicate_formats_in.
  eapply Permutation_in; [apply sort_formats_perm | exact Hf].
Qed.

(** C3.  Of the descriptors it has built, [_parse_aweme_video_app] first
    removes the duplicates: of the descriptors that agree on quality tier,
    codec, size and bitrate one is kept (no two kept descriptors agree on
    all four, every descriptor has a kept look-alike, and the kept ones
    stay in their order).  The deduplicated list is the one whose URLs are
    given the login cookie.  Only then is it sorted, stably and ascending,
    by quality tier, codec preference, byte size and bitrate, and the
    sorted list is the ['formats'] of the dictionary the function returns;
    the tier of a descriptor is the position of its resolution tag in
    ['360p', '540p', '720p', '1080p']. *)
Theorem formats_deduplicated_then_ranked
    (self : Self) (item : AwemeDetail) (s s' : State) (info : InfoDict) :
  _parse_aweme_video_app self item s = (Return info, s') ->
  let built := extracted_formats (video item) in
  let unique := _remove_duplicate_formats built in
  ForallOrdPairs (fun f g => same_key f g = false) unique
  /\ (forall f, In f built -> exists g, In g unique /\ same_key g f = true)
  /\ unique `sublist_of` built
  /\ (exists s1,
        match _get_cookie (_WEBPAGE_HOST (cls self)) "sid_tt" (world s) with
        | Some value => mirror_auth_cookie value unique
        | None => ret tt
        end s = (Return tt, s1)
        /\ extract_subtitles self item (aweme_id item) s1 = (Return (info_subtitles info), s'))
  /\ info_formats info = _sort_formats unique
  /\ Permutation (info_formats info) unique
  /\ StronglySorted (fun f g => format_leb f g = true) (info_formats info)
  /\ StronglySorted (fun f g => cmp_oq (f_tier f) (f_tier g) <> Gt) (info_formats info)
  /\ (forall h, filter (fun g => same_rank h g = true) (info_formats info)
                = filter (fun g => same_rank h g = true) unique)
  /\ (forall j slot r fs f,
        stream_slots (video item) !! j = Some slot -> slot_tag slot = Some r ->
        extract_slots (stream_slots (video item)) ∅ !! j = Some fs -> In f fs ->
        f_tier f = Some (inject_Z (qualities QUALITIES r)))
  /\ map (qualities QUALITIES) QUALITIES = [0; 1; 2; 3].
Proof.
  intros Hrun built unique.
  assert (Hparts :
            info_formats info = _sort_formats unique
            /\ exists s1,
                 match _get_cookie (_WEBPAGE_HOST (cls self)) "sid_tt" (world s) with
                 | Some value => mirror_auth_cookie value unique
                 | None => ret tt
                 end s = (Return tt, s1)
                 /\ extract_subtitles self item (aweme_id item) s1
                    = (Return (info_subtitles info), s')).
  { revert Hrun. destruct s as [w o evs].
    unfold _parse_aweme_video_app. unfold bind at 1. unfold lift_world at 1.
    cbn [world objects events]. fold built. fold unique.
    unfold bind at 1.
    destruct (match _get_cookie (_WEBPAGE_HOST (cls self)) "sid_tt" w with
              | Some value => mirror_auth_cookie value unique
              | None => ret tt
              end {| world := w; objects := o; events := evs |}) as [[[]|e] s1] eqn:Ec;
      [|discriminate].
    unfold bind.
    destruct (extract_subtitles self item (aweme_id item) s1) as [[subs|e] s2] eqn:Es;
      [|discriminate].
    unfold ret. intros [= <- <-]. cbn [info_formats info_subtitles].
    split; [reflexivity|]. exists s1. by split. }
  destruct Hparts as [Hsorted Hsteps]. rewrite Hsorted. subst unique built.
  split; [apply remove_duplicate_formats_distinct|].
  split; [apply remove_duplicate_formats_covers|].
  split; [apply remove_duplicate_formats_sublist|].
  split; [exact Hsteps|].
  split; [reflexivity|].
  split; [apply sort_formats_perm|].
  split; [apply sort_formats_sorted|].
  split; [eapply StronglySorted_weaken; [apply format_leb_tier | apply sort_formats_sorted]|].
  split; [intros h; apply sort_formats_stable|].
  split; [|reflexivity].
  intros j slot r fs f Hj Htag Hfs Hf.
  destruct (extract_slots_dims (stream_slots (video item)) ∅ j slot r fs f
              table_ok_empty Hj Htag Hfs Hf) as [_ Hq].
  unfold f_tier. by rewrite Hq.
Qed.

(** C4.  When two stream entries of a native-shape item carry the same
    resolution tag and the one processed first comes with explicit width
    and height, every descriptor built from the second entry has that
    width and height, as every descriptor built from the first has; the
    reconciled list holds descriptors as they were built. *)
Theorem resolution_inherited_from_first_stream
    (v : VideoInfo) (i j : nat) (first second : Addr * Meta) (r : string) (w h : Z) :
  (i < j)%nat ->
  stream_slots v !! i = Some first ->
  stream_slots v !! j = Some second ->
  slot_tag first = Some r ->
  slot_tag second = Some r ->
  snd first !! "width" = Some (VInt w) ->
  snd first !! "height" = Some (VInt h) ->
  (forall fs f, extract_slots (stream_slots v) ∅ !! j = Some fs -> In f fs ->
                dict_get f "width" = VInt w /\ dict_get f "height" = VInt h
                /\ In f (extracted_formats v))
  /\ (forall fs f, extract_slots (stream_slots v) ∅ !! i = Some fs -> In f fs ->
                   dict_get f "width" = VInt w /\ dict_get f "height" = VInt h)
  /\ (forall f, In f (reconciled_formats v) -> In f (extracted_formats v)).
Proof.
  intros Hij Hi Hj Hti Htj Hw Hh.
  assert (Hfirst : first_dims (stream_slots v) r = Some (VInt h, VInt w)).
  { apply (first_dims_agreeing _ r _ i first Hi Hti).
    intros k s' Hk Hs'.
    rewrite (stream_slots_carrying v i first Hi (ltac:(by rewrite Hw)) k s' Hk Hs').
    rewrite <- (stream_slots_carrying v i first Hi (ltac:(by rewrite Hw)) i first
                  (Nat.le_refl i) Hi).
    unfold meta_dims, dict_get. by rewrite Hw, Hh. }
  assert (Hdims : forall k slot fs f,
            stream_slots v !! k = Some slot -> slot_tag slot = Some r ->
            extract_slots (stream_slots v) ∅ !! k = Some fs -> In f fs ->
            dict_get f "width" = VInt w /\ dict_get f "height" = VInt h).
  { intros k slot fs f Hk Htag Hfs Hf.
    destruct (extract_slots_dims (stream_slots v) ∅ k slot r fs f
                table_ok_empty Hk Htag Hfs Hf) as [Hd _].
    unfold table_dims in Hd. rewrite lookup_empty in Hd. simpl in Hd.
    rewrite Hfirst in Hd. injection Hd as Hd1 Hd2. by split. }
  split; [|split].
  - intros fs f Hfs Hf. destruct (Hdims j second fs f Hj Htj Hfs Hf) as [-> ->].
    split; [done|]. split; [done|]. by eapply In_extract_slots.
  - intros fs f Hfs Hf. by apply (Hdims i first fs f Hi Hti Hfs Hf).
  - apply reconciled_formats_in.
Qed.

End ReconcilerClaims.

Lemma formats_deduplicated_then_ranked_witness :
  let item := {| aweme_id := "7023491746608712966"; video := api_video;
                 music := pokemon_sound; author_uid := Some "6820838815978423302";
                 desc := Some ""; interaction_stickers := [] |} in
  exists info,
    fst (_parse_aweme_video_app tiktok_ie item (start_state (script_of []))) = Return info
    /\ map (fun f => dict_get f "url") (extracted_formats api_video)
       = [ VStr "https://v16.example/play";
           VStr "https://api-h2.tiktokv.com/aweme/v1/play/?video_id=1";
           VStr "https://v16.example/ladder" ]
    /\ map (fun f => dict_get f "url") (info_formats info)
       = [ VStr "https://v16.example/ladder"; VStr "https://v16.example/play" ].
Proof.
  intros item.
  assert (Hrun : exists info s',
             _parse_aweme_video_app tiktok_ie item (start_state (script_of []))
             = (Return info, s')).
  { vm_compute. eexists _, _. reflexivity. }
  destruct Hrun as (info & s' & E). exists info.
  split; [by rewrite E|]. split; [vm_compute; reflexivity|].
  destruct (formats_deduplicated_then_ranked tiktok_ie item _ s' info E)
    as (_ & _ & _ & _ & Hsorted & _).
  rewrite Hsorted. vm_compute. reflexivity.
Defined.

Lemma resolution_inherited_from_first_stream_witness :
  Forall (fun f => dict_get f "width" = VInt 576 /\ dict_get f "height" = VInt 1024
                   /\ In f (extracted_formats ladder_video))
         (default [] (extract_slots (stream_slots ladder_video) ∅ !! 1%nat))
  /\ map (fun f => dict_get f "url")
         (default [] (extract_slots (stream_slots ladder_video) ∅ !! 1%nat))
     = [VStr "https://v16.example/ladder"].
Proof.
  split; [|vm_compute; reflexivity].
  apply List.Forall_forall. intros f Hf.
  refine (proj1 (resolution_inherited_from_first_stream
                   ladder_video 0 1
                   (default (mkAddr None [] None, ∅) (stream_slots ladder_video !! 0%nat))
                   (default (mkAddr None [] None, ∅) (stream_slots ladder_video !! 1%nat))
                   "540p" 576 1024 _ _ _ _ _ _ _)
                (default [] (extract_slots (stream_slots ladder_video) ∅ !! 1%nat)) f _ Hf).
  - lia.
  - vm_compute. reflexivity.
  - vm_compute. reflexivity.
  - vm_compute. reflexivity.
  - vm_compute. reflexivity.
  - vm_compute. reflexivity.
  - vm_compute. reflexivity.
  - vm_compute. reflexivity.
Defined.

Example ladder_video_formats :
  map (fun f => (dict_get f "format_id", dict_get f "width", dict_get f "height",
                 dict_get f "quality", dict_get f "tbr"))
      (reconciled_formats ladder_video)
  = [ (VStr "h264_540p_812345", VInt 576, VInt 1024, VInt 1, VInt 812);
      (VStr "bytevc1_540p_412345", VInt 576, VInt 1024, VInt 1, VInt 412) ].
Proof. vm_compute. reflexivity. Qed.

(* ===================================================================== *)
(** * Pagination                                                           *)
(* ===================================================================== *)

Section PaginationFacts.
Context `{Host}.

Lemma parse_aweme_video_app_fields (self : Self) (item : AwemeDetail) (s s' : State)
    (info : InfoDict) :
  _parse_aweme_video_app self item s = (Return info, s') ->
  info_id info = aweme_id item
  /\ info_formats info = reconciled_formats (video item)
  /\ info_thumbnails info = thumbnails_of (video item)
  /\ info_track info = info_track_of (music item)
  /\ info_artist info = info_artist_of (music item).
Proof.
  unfold _parse_aweme_video_app, bind.
  destruct (lift_world _ s) as [[auth|e] s1]; [|discriminate].
  match goal with
  | |- (let (_, _) := ?m s1 in _) = _ -> _ => destruct (m s1) as [[[]|e] s2]; [|discriminate]
  end.
  destruct (extract_subtitles self item (aweme_id item) s2) as [[subs|e] s3]; [|discriminate].
  unfold ret. intros [= <- _]. simpl. done.
Qed.

Lemma entry_of_matches (self : Self) (item : AwemeDetail) (s s' : State) (info : InfoDict) :
  entry_of self item s = (Return info, s') -> entry_matches info item.
Proof.
  unfold entry_of, bind.
  destruct (_parse_aweme_video_app self item s) as [[i|e] s1] eqn:E; [|discriminate].
  destruct (parse_aweme_video_app_fields self item s s1 i E) as (Hid & Hf & Ht & Htr & Ha).
  unfold ret. intros [= <- _]. unfold entry_matches. simpl. done.
Qed.

Lemma yield_entries_match (self : Self) (items : list AwemeDetail) :
  forall s infos s',
    yield_entries self items s = (infos, None, s') -> Forall2 entry_matches infos items.
Proof.
  induction items as [|item items IH]; intros s infos s'; simpl.
  - intros [= <- _]. constructor.
  - destruct (entry_of self item s) as [[info|e] s1] eqn:E; [|discriminate].
    destruct (yield_entries self items s1) as [[more oe] s2] eqn:E2.
    intros [= <- -> <-]. constructor; [by eapply entry_of_matches | by eapply IH].
Qed.

Lemma pages_served_match (self : Self) (display_id : string) page query s pages yielded s_end :
  pages_served self display_id page query s pages yielded s_end ->
  Forall2 entry_matches yielded (concat (map aweme_list pages)).
Proof.
  induction 1 as [page query s p s1 infos s2 Hcall Hy Hm
                 |page query s p s1 infos s2 c rest more s3 Hcall Hy Hm Hc Hrest IH]; simpl.
  - rewrite app_nil_r. by eapply yield_entries_match.
  - apply Forall2_app; [by eapply yield_entries_match | exact IH].
Qed.

(** With fuel for every page the driver yields the entries of all pages
    and is exhausted in the state the last item left. *)
Lemma entries_from_served (self : Self) (display_id : string) page query s pages yielded s_end :
  pages_served self display_id page query s pages yielded s_end ->
  forall fuel, (length pages <= fuel)%nat ->
    entries_from fuel self display_id page query s = (yielded, Exhausted, s_end).
Proof.
  induction 1 as [page query s p s1 infos s2 Hcall Hy Hm
                 |page query s p s1 infos s2 c rest more s3 Hcall Hy Hm Hc Hrest IH];
    intros fuel Hfuel; (destruct fuel as [|fuel]; [simpl in Hfuel; lia|]); simpl.
  - by rewrite Hcall, Hy, Hm.
  - rewrite Hcall, Hy, Hm, Hc. simpl. rewrite IH by (simpl in Hfuel; lia). done.
Qed.

(** With less fuel than pages the driver is cut while it still has a
    page to ask for: it makes one call per page. *)
Lemma entries_from_short (self : Self) (display_id : string) page query s pages yielded s_end :
  pages_served self display_id page query s pages yielded s_end ->
  forall fuel, (fuel < length pages)%nat ->
    snd (fst (entries_from fuel self display_id page query s)) = Unfinished.
Proof.
  induction 1 as [page query s p s1 infos s2 Hcall Hy Hm
                 |page query s p s1 infos s2 c rest more s3 Hcall Hy Hm Hc Hrest IH];
    intros fuel Hfuel; (destruct fuel as [|fuel]; [reflexivity|]); simpl in *.
  - lia.
  - rewrite Hcall, Hy, Hm, Hc. simpl.
    specialize (IH fuel ltac:(lia)).
    by destruct (entries_from fuel self display_id (S page) (<["cursor":=c]> query) s2)
      as [[more' e'] s'].
Qed.

(** C7.  When the page calls of a collection are answered with N pages of
    which only the last reports no more pages, the driver yields the
    entries of the items of pages 1 to N in order, asks for each page with
    the cursor of the response before it, and is exhausted after N page
    calls, in the state the last item left: it makes no further call.  With
    less fuel than N calls it is not yet finished. *)
Theorem entries_stop_after_last_page
    (self : Self) (list_id display_id device_id : string) (s s0 : State)
    (pages : list ApiJson) (yielded : list InfoDict) (s_end : State) :
  random_string string_digits 19 s = (Return device_id, s0) ->
  pages_served self display_id 1 (first_query self list_id device_id) s0 pages yielded s_end ->
  (forall fuel, (length pages <= fuel)%nat ->
     _entries fuel self list_id display_id s = (yielded, Exhausted, s_end))
  /\ (forall fuel, (fuel < length pages)%nat ->
        snd (fst (_entries fuel self list_id display_id s)) = Unfinished)
  /\ Forall2 entry_matches yielded (concat (map aweme_list pages)).
Proof.
  intros Hdev Hserved. unfold _entries. rewrite Hdev. split; [|split].
  - by apply entries_from_served.
  - by eapply entries_from_short.
  - by eapply pages_served_match.
Qed.

End PaginationFacts.

Lemma entries_stop_after_last_page_witness :
  exists yielded s_end,
    _entries 2 tiktok_sound_ie "6956990112127585029" "6956990112127585029" three_pages_state
    = (yielded, Exhausted, s_end)
    /\ map info_id yielded = ["7059698374567611694"; "7059698374567611695"]
    /\ map (fun r => req_query r !! "cursor") (requests_of (events s_end))
       = [Some (VInt 0); Some (VInt 20)]
    /\ api_replies (world s_end) = [Return (Some page_three)].
Proof.
  pose (run := _entries 2 tiktok_sound_ie "6956990112127585029" "6956990112127585029"
                 three_pages_state).
  exists (fst (fst run)), (snd run).
  assert (Hserved : pages_served tiktok_sound_ie "6956990112127585029" 1 sound_query
                      three_pages_state [page_one; page_two] (fst (fst run)) (snd run)).
  { eapply (served_more tiktok_sound_ie "6956990112127585029" 1 sound_query three_pages_state
              page_one
              (snd (_call_api tiktok_sound_ie
                      (page_args tiktok_sound_ie "6956990112127585029" 1 sound_query)
                      three_pages_state))
              (firstn 1 (fst (fst run)))
              _ (VInt 20) [page_two] (skipn 1 (fst (fst run))) (snd run)).
    - vm_compute. reflexivity.
    - vm_compute. reflexivity.
    - reflexivity.
    - reflexivity.
    - eapply served_last.
      + vm_compute. reflexivity.
      + vm_compute. reflexivity.
      + reflexivity. }
  destruct (entries_stop_after_last_page
              tiktok_sound_ie "6956990112127585029" "6956990112127585029"
              "0000000000000000000" three_pages_state three_pages_state
              [page_one; page_two] (fst (fst run)) (snd run)) as (Hrun & _ & _).
  - vm_compute. reflexivity.
  - exact Hserved.
  - split; [apply Hrun; simpl; lia|]. repeat split; vm_compute; reflexivity.
Defined.

(* ===================================================================== *)
(** * The negotiator: failures, other objects, the requests                *)
(* ===================================================================== *)

Section NegotiatorMore.
Context `{Host}.

Lemma quiet_build_api_query_keeps (self : Self) (query : gmap string Val)
    (app manifest : string) :
  quiet (fun q => version_of_query q = Some (app, manifest)
                  /\ forall k, k ∉ fingerprint_keys -> q !! k = query !! k)
        (_build_api_query self query app manifest).
Proof.
  unfold _build_api_query.
  eapply quiet_bind; [apply quiet_random_string|]. intros openudid _.
  eapply quiet_bind; [apply quiet_random_string|]. intros uuid _.
  eapply quiet_bind; [apply (quiet_lift (fun _ => True)); done|]. intros t1 _.
  eapply quiet_bind; [apply (quiet_lift (fun _ => True)); done|]. intros t2 _.
  apply quiet_ret. split.
  - unfold version_of_query.
    erewrite lookup_union_Some_l; [|reflexivity].
    erewrite lookup_union_Some_l; [|reflexivity].
    reflexivity.
  - intros k Hk. apply lookup_union_r. apply not_elem_of_list_to_map_1. exact Hk.
Qed.

(** The request of one pass of the loop, read off the trace. *)
Lemma attempt_request (self : Self) (a : CallArgs) (v : AppVersion) (s : State) :
  exists r,
    request_of_call self a r
    /\ events (snd (attempt self a v s)) = (events s ++ [EvRequest r])%list.
Proof.
  unfold attempt.
  destruct (quiet_build_api_query_keeps self (call_query a) (fst v) (snd v) s)
    as (q & w1 & [Hq Hkeep] & Eq).
  unfold bind at 1. rewrite (Eq s eq_refl).
  unfold _call_api_impl.
  destruct (quiet_random_string hexdigits 160
              {| world := w1; objects := objects s; events := events s |})
    as (odin & w2 & _ & Eo).
  unfold bind at 1. rewrite (Eo _ eq_refl). simpl.
  unfold bind at 1. unfold lift_world at 1. simpl.
  unfold bind at 1. unfold lift_world at 1. simpl.
  set (r := {| req_url := _; req_query := q |}).
  exists r. split.
  - repeat split; try reflexivity; [exact Hkeep|].
    exists v. split; [by destruct v|reflexivity].
  - destruct (_get_cookie _ _ _); simpl;
      unfold bind, lift_world, ret, log, lift_world_result; simpl;
      by destruct (_download_json r _).
Qed.

Lemma attempt_answer_request (self : Self) (a : CallArgs) (v : AppVersion) (s : State) :
  exists r,
    request_of_call self a r /\ version_of_request r = Some v /\
    forall s2, world s2 = world s ->
      attempt self a v s2
      = (fst (answer self a v (world s)),
         {| world := snd (answer self a v (world s)); objects := objects s2;
            events := events s2 ++ [EvRequest r] |}).
Proof.
  destruct (attempt_answer self a v s) as (r & Hv & _ & E).
  destruct (attempt_request self a v s) as (r' & Hr & Ev).
  rewrite (E s eq_refl) in Ev. simpl in Ev.
  apply app_inv_head in Ev. injection Ev as ->.
  exists r'. auto.
Qed.

(** The candidates that are rejected one after the other are passed over:
    the sweep stands at the next candidate, in the world the last rejection
    left, with one request and one warning per candidate passed. *)
Lemma negotiate_skip (self : Self) (a : CallArgs) (tried : list AppVersion) :
  forall (count : nat) (s : State) (w1 : World),
    (count + length tried <= length (_APP_VERSIONS (cls self)))%nat ->
    all_rejected self a tried (world s) = Some w1 ->
    exists evs,
      (forall rest,
         negotiate self a count (tried ++ rest) s
         = negotiate self a (count + length tried) rest
             {| world := w1; objects := objects s; events := events s ++ evs |})
      /\ map version_of_request (requests_of evs) = map Some tried
      /\ Forall (request_of_call self a) (requests_of evs).
Proof.
  induction tried as [|v tried IH]; intros count s w1 Hlen Hrej.
  - simpl in Hrej. injection Hrej as <-. exists []. split; [|split]; [|done|constructor].
    intros rest. simpl. rewrite Nat.add_0_r, app_nil_r. by destruct s.
  - simpl in Hrej.
    destruct (answer self a v (world s)) as [[x|e] w'] eqn:Hav; try discriminate.
    destruct e as [e| | |]; try discriminate.
    destruct (is_json_error_at_0 e) eqn:He; try discriminate.
    destruct (attempt_answer_request self a v s) as (r & Hr & Hv & E).
    set (warn := EvWarning (retrying_message e count (length (_APP_VERSIONS (cls self)))) false).
    destruct (IH (S count)
                 {| world := w'; objects := objects s;
                    events := (events s ++ [EvRequest r]) ++ [warn] |} w1)
      as (evs & Eneg & Hreq & Hall).
    { simpl in Hlen. simpl. lia. }
    { exact Hrej. }
    exists (EvRequest r :: warn :: evs). split; [|split].
    + intros rest. simpl. unfold try_except at 1. unfold bind at 1.
      rewrite (E s eq_refl), Hav. simpl. rewrite He.
      replace (count =? length (_APP_VERSIONS (cls self)))%nat with false
        by (symmetry; apply Nat.eqb_neq; simpl in Hlen; lia).
      unfold bind at 1. unfold report_warning, log. simpl.
      fold warn. rewrite (Eneg rest). simpl.
      replace (count + S (length tried))%nat with (S (count + length tried)) by lia.
      f_equal. f_equal. by rewrite <- !app_assoc.
    + simpl. by rewrite Hv, Hreq.
    + simpl. by constructor.
Qed.

(** The sweep never touches another object, pins nothing when it raises,
    and all its requests are the caller's. *)
Lemma negotiate_objects (self : Self) (a : CallArgs) (cands : list AppVersion) :
  forall (count : nat) (s : State),
  exists res s',
    negotiate self a count cands s = (res, s')
    /\ (forall o, o <> oid self -> objects s' !! o = objects s !! o)
    /\ (forall e, res = Raise e -> objects s' = objects s)
    /\ exists evs, events s' = (events s ++ evs)%list
                   /\ Forall (request_of_call self a) (requests_of evs).
Proof.
  induction cands as [|v rest IH]; intros count s.
  - exists (Return None), s. split; [reflexivity|]. split; [done|]. split; [done|].
    exists []. by rewrite app_nil_r.
  - destruct (attempt_answer_request self a v s) as (r & Hr & _ & E).
    specialize (E s eq_refl).
    assert (Hone : Forall (request_of_call self a) (requests_of [EvRequest r]))
      by (simpl; by constructor).
    destruct (answer self a v (world s)) as [[x|e] w'] eqn:Hav; simpl in E.
    + eexists _, _. split; [simpl; unfold try_except, bind; rewrite E; reflexivity|].
      simpl. split; [intros o Ho; by rewrite lookup_insert_ne|].
      split; [discriminate|]. by exists [EvRequest r].
    + destruct e as [ee|u|k|d].
      2,3,4: eexists _, _; (split; [simpl; unfold try_except, bind; rewrite E; reflexivity|]);
             simpl; (split; [done|]); (split; [done|]); by exists [EvRequest r].
      destruct (is_json_error_at_0 ee) eqn:He.
      2:{ eexists _, _. split; [simpl; unfold try_except, bind; rewrite E; simpl;
                                rewrite He; reflexivity|].
          simpl. split; [done|]. split; [done|]. by exists [EvRequest r]. }
      destruct (count =? length (_APP_VERSIONS (cls self)))%nat eqn:Hlast.
      * destruct (call_fatal a) eqn:Hfatal.
        -- eexists _, _. split; [simpl; unfold try_except, bind; rewrite E; simpl;
                                 rewrite He, Hlast, Hfatal; reflexivity|].
           simpl. split; [done|]. split; [done|]. by exists [EvRequest r].
        -- eexists _, _. split; [simpl; unfold try_except, bind; rewrite E; simpl;
                                 rewrite He, Hlast, Hfatal; reflexivity|].
           simpl. split; [done|]. split; [done|].
           exists [EvRequest r; EvWarning (str_cause_or_msg ee) false].
           split; [by rewrite <- app_assoc | exact Hone].
      * set (warn := EvWarning (retrying_message ee count (length (_APP_VERSIONS (cls self)))) false).
        destruct (IH (S count) {| world := w'; objects := objects s;
                                  events := (events s ++ [EvRequest r]) ++ [warn] |})
          as (res & s' & Eneg & Ho & Hraise & evs & Hev & Hall).
        exists res, s'. split.
        { simpl. unfold try_except at 1. unfold bind at 1. rewrite E. simpl.
          rewrite He, Hlast. unfold bind at 1. unfold report_warning, log. simpl.
          fold warn. exact Eneg. }
        simpl in Ho, Hraise, Hev. split; [exact Ho|]. split; [exact Hraise|].
        exists (EvRequest r :: warn :: evs). split.
        -- rewrite Hev. by rewrite <- !app_assoc.
        -- simpl. by constructor.
Qed.

Lemma report_warning_objects (self : Self) (m : string) (once : bool) (s : State) (o : nat) :
  o <> oid self -> objects (snd (report_warning self m once s)) !! o = objects s !! o.
Proof.
  intros Ho. unfold report_warning. destruct once; [|done].
  destruct (bool_decide _); [done|]. simpl. by rewrite lookup_insert_ne.
Qed.

(** A call through an object that holds its candidate is one pass of the
    loop body with it. *)
Lemma call_api_pinned_attempt (self : Self) (a : CallArgs) (s : State) (v : AppVersion) :
  inst_WORKING_APP_VERSION (instance_of self s) = Some v ->
  _call_api self a s = attempt self a v s.
Proof.
  intros Hpin. unfold _call_api, bind, get_WORKING_APP_VERSION. rewrite Hpin. simpl.
  by rewrite Hpin.
Qed.

Lemma call_api_override_attempt (self : Self) (a : CallArgs) (s : State) :
  inst_WORKING_APP_VERSION (instance_of self s) = None ->
  both_overrides self = true ->
  let v := (arg_app_version (params self), arg_manifest_app_version (params self)) in
  _call_api self a s
  = attempt self a v
      {| world := world s; objects := pin_objects self (Some v) s;
         events := events s ++ [EvDebug "Imported app version combo from extractor arguments"] |}.
Proof.
  intros Hunp Hboth v. unfold both_overrides in Hboth.
  unfold _call_api, bind at 1, get_WORKING_APP_VERSION at 1. rewrite Hunp.
  unfold class_WORKING_APP_VERSION. simpl.
  rewrite Hboth. unfold bind, set_WORKING_APP_VERSION, set_instance, write_debug, log,
    get_WORKING_APP_VERSION. simpl.
  unfold instance_of at 1. simpl. rewrite lookup_insert_eq. simpl. reflexivity.
Qed.

End NegotiatorMore.

Section NegotiatorExtras.
Context `{Host}.

(** X1.  While no candidate is pinned, a failure that is not the
    empty-body error (another exception, or an [ExtractorError] of another
    cause) ends the call at once: after the candidates [tried] were passed
    over, the failure [e] of candidate [c] is raised as it is, the
    candidates [later] in the list are never asked, and the object stays
    without a candidate. *)
Theorem negotiation_stops_at_other_failure
    (self : Self) (a : CallArgs) (s : State)
    (tried : list AppVersion) (c : AppVersion) (later : list AppVersion)
    (e : Exn) (w1 w2 : World) :
  inst_WORKING_APP_VERSION (instance_of self s) = None ->
  both_overrides self = false ->
  _APP_VERSIONS (cls self) = (tried ++ c :: later)%list ->
  all_rejected self a tried (world s) = Some w1 ->
  answer self a c w1 = (Raise e, w2) ->
  is_empty_body_error e = false ->
  fst (_call_api self a s) = Raise e
  /\ world (snd (_call_api self a s)) = w2
  /\ inst_WORKING_APP_VERSION (instance_of self (snd (_call_api self a s))) = None
  /\ exists rs,
       requests_of (events (snd (_call_api self a s))) = (requests_of (events s) ++ rs)%list
       /\ map version_of_request rs = map Some (tried ++ [c])%list.
Proof.
  intros Hunp Hboth Hcands Hrej Hans He.
  rewrite (call_api_unpinned self a s Hunp Hboth).
  destruct (prologue_state self s) as (Hw & Hi & Hreq).
  set (s1 := if lone_override self
             then snd (report_warning self lone_override_warning true s) else s) in *.
  rewrite Hcands.
  destruct (negotiate_skip self a tried 1%nat s1 w1) as (evs & Eneg & Hvs & _).
  { rewrite Hcands, length_app. simpl. lia. }
  { by rewrite Hw. }
  rewrite (Eneg (c :: later)).
  set (s2 := {| world := w1; objects := objects s1; events := events s1 ++ evs |}).
  destruct (attempt_answer_request self a c s2) as (r & _ & Hv & E).
  specialize (E s2 eq_refl). simpl in E. rewrite Hans in E. simpl in E.
  assert (Eend : negotiate self a (1 + length tried) (c :: later) s2
                 = (Raise e, {| world := w2; objects := objects s1;
                                events := events s2 ++ [EvRequest r] |})).
  { simpl. unfold try_except, bind. rewrite E.
    destruct e as [ee| | |]; try reflexivity.
    simpl in He. by rewrite He. }
  rewrite Eend. simpl.
  split; [reflexivity|]. split; [reflexivity|].
  split; [unfold instance_of in *; simpl; by rewrite Hi|].
  exists (requests_of evs ++ [r])%list. split.
  - rewrite !requests_of_app, Hreq. simpl. by rewrite app_assoc.
  - by rewrite !map_app, Hvs; simpl; rewrite Hv.
Qed.

(** X2.  When every candidate is answered with the empty-body error, each
    of them has been asked exactly once, in list order, and no candidate is
    pinned.  With [fatal] the error of the last candidate is raised; without
    it the call returns [None] after a warning with the text of that
    error. *)
Theorem negotiation_exhausted
    (self : Self) (a : CallArgs) (s : State)
    (tried : list AppVersion) (c : AppVersion) (ee : ExtractorError) (w1 w2 : World) :
  inst_WORKING_APP_VERSION (instance_of self s) = None ->
  both_overrides self = false ->
  _APP_VERSIONS (cls self) = (tried ++ [c])%list ->
  all_rejected self a tried (world s) = Some w1 ->
  answer self a c w1 = (Raise (EExtractorError ee), w2) ->
  is_json_error_at_0 ee = true ->
  fst (_call_api self a s)
  = (if call_fatal a then Raise (EExtractorError ee) else Return None)
  /\ world (snd (_call_api self a s)) = w2
  /\ inst_WORKING_APP_VERSION (instance_of self (snd (_call_api self a s))) = None
  /\ (exists rs,
        requests_of (events (snd (_call_api self a s))) = (requests_of (events s) ++ rs)%list
        /\ map version_of_request rs = map Some (tried ++ [c])%list)
  /\ (call_fatal a = false ->
      last (events (snd (_call_api self a s))) = Some (EvWarning (str_cause_or_msg ee) false)).
Proof.
  intros Hunp Hboth Hcands Hrej Hans He.
  rewrite (call_api_unpinned self a s Hunp Hboth).
  destruct (prologue_state self s) as (Hw & Hi & Hreq).
  set (s1 := if lone_override self
             then snd (report_warning self lone_override_warning true s) else s) in *.
  rewrite Hcands.
  destruct (negotiate_skip self a tried 1%nat s1 w1) as (evs & Eneg & Hvs & _).
  { rewrite Hcands, length_app. simpl. lia. }
  { by rewrite Hw. }
  rewrite (Eneg [c]).
  set (s2 := {| world := w1; objects := objects s1; events := events s1 ++ evs |}).
  destruct (attempt_answer_request self a c s2) as (r & _ & Hv & E).
  specialize (E s2 eq_refl). simpl in E. rewrite Hans in E. simpl in E.
  assert (Hlast : (1 + length tried =? length (_APP_VERSIONS (cls self)))%nat = true).
  { apply Nat.eqb_eq. rewrite Hcands, length_app. simpl. lia. }
  assert (Hrs : forall tail,
             requests_of ((events s2 ++ [EvRequest r]) ++ tail)
             = (requests_of (events s) ++ (requests_of evs ++ [r]) ++ requests_of tail)%list).
  { intros tail. subst s2. simpl. rewrite !requests_of_app, Hreq. simpl.
    by rewrite <- !app_assoc. }
  assert (Hmap : map version_of_request (requests_of evs ++ [r])%list
                 = map Some (tried ++ [c])%list).
  { by rewrite !map_app, Hvs; simpl; rewrite Hv. }
  destruct (call_fatal a) eqn:Hfatal.
  - assert (Eend : negotiate self a (1 + length tried) [c] s2
                   = (Raise (EExtractorError ee),
                      {| world := w2; objects := objects s1;
                         events := (events s2 ++ [EvRequest r]) ++ [] |})).
    { cbn [negotiate]. unfold try_except, bind. rewrite E. cbv beta iota.
      rewrite He, Hlast, Hfatal. by rewrite app_nil_r. }
    rewrite Eend. simpl.
    split; [reflexivity|]. split; [reflexivity|].
    split; [unfold instance_of in *; simpl; by rewrite Hi|].
    split; [|discriminate].
    exists (requests_of evs ++ [r])%list. split; [|exact Hmap].
    specialize (Hrs []). simpl in Hrs. by rewrite Hrs, !app_nil_r.
  - assert (Eend : negotiate self a (1 + length tried) [c] s2
                   = (Return None,
                      {| world := w2; objects := objects s1;
                         events := (events s2 ++ [EvRequest r])
                                   ++ [EvWarning (str_cause_or_msg ee) false] |})).
    { cbn [negotiate]. unfold try_except, bind. rewrite E. cbv beta iota.
      rewrite He, Hlast, Hfatal. reflexivity. }
    rewrite Eend. simpl.
    split; [reflexivity|]. split; [reflexivity|].
    split; [unfold instance_of in *; simpl; by rewrite Hi|].
    split.
    + exists (requests_of evs ++ [r])%list. split; [|exact Hmap].
      specialize (Hrs [EvWarning (str_cause_or_msg ee) false]). simpl in Hrs.
      by rewrite Hrs, !app_nil_r.
    + intros _. apply last_snoc.
Qed.

(** X3.  A call through one extractor object changes nothing that another
    object holds: neither the candidate it has pinned nor the messages it
    has printed. *)
Theorem call_api_leaves_other_objects
    (self other : Self) (a : CallArgs) (s : State) :
  oid other <> oid self ->
  instance_of other (snd (_call_api self a s)) = instance_of other s.
Proof.
  intros Hne. unfold instance_of. f_equal.
  destruct (inst_WORKING_APP_VERSION (instance_of self s)) as [v|] eqn:Hpin.
  - destruct (call_api_pinned self a s v Hpin) as (r & w1 & _ & _ & E). by rewrite E.
  - destruct (both_overrides self) eqn:Hboth.
    + destruct (call_api_override self a s Hpin Hboth) as (r & w1 & _ & _ & E).
      rewrite E. simpl. by rewrite lookup_insert_ne.
    + rewrite (call_api_unpinned self a s Hpin Hboth).
      set (s1 := if lone_override self
                 then snd (report_warning self lone_override_warning true s) else s).
      destruct (negotiate_objects self a (_APP_VERSIONS (cls self)) 1%nat s1)
        as (res & s' & E & Ho & _).
      rewrite E. simpl. rewrite (Ho _ Hne). subst s1.
      destruct (lone_override self); [|done]. by apply report_warning_objects.
Qed.

(** X4.  Every request a call issues, for whichever candidate, goes to
    [https://<_API_HOSTNAME>/aweme/v1/<ep>/] with the caller's [video_id],
    [fatal], [note] and [errnote]; its query holds the caller's entries
    under every key the fingerprint does not set (the fingerprint wins on
    its own keys), and its [User-Agent] names the manifest version that the
    query names. *)
Theorem call_api_requests_are_the_callers (self : Self) (a : CallArgs) (s : State) :
  exists rs,
    requests_of (events (snd (_call_api self a s))) = (requests_of (events s) ++ rs)%list
    /\ Forall (request_of_call self a) rs.
Proof.
  destruct (inst_WORKING_APP_VERSION (instance_of self s)) as [v|] eqn:Hpin.
  - rewrite (call_api_pinned_attempt self a s v Hpin).
    destruct (attempt_request self a v s) as (r & Hr & Ev).
    exists [r]. rewrite Ev, requests_of_app. split; [reflexivity|]. by constructor.
  - destruct (both_overrides self) eqn:Hboth.
    + rewrite (call_api_override_attempt self a s Hpin Hboth).
      match goal with
      | |- context [attempt self a ?v ?s0] =>
          destruct (attempt_request self a v s0) as (r & Hr & Ev)
      end.
      exists [r]. rewrite Ev. simpl. rewrite !requests_of_app. simpl.
      rewrite app_nil_r. split; [reflexivity|]. by constructor.
    + rewrite (call_api_unpinned self a s Hpin Hboth).
      destruct (prologue_state self s) as (_ & _ & Hreq).
      set (s1 := if lone_override self
                 then snd (report_warning self lone_override_warning true s) else s) in *.
      destruct (negotiate_objects self a (_APP_VERSIONS (cls self)) 1%nat s1)
        as (res & s' & E & _ & _ & evs & Hev & Hall).
      rewrite E. simpl. exists (requests_of evs).
      by rewrite Hev, requests_of_app, Hreq.
Qed.

(** X5.  Unless both override arguments are passed, a call that raises
    leaves the object's candidate as it was: a failed negotiation pins
    nothing, so the next call negotiates again. *)
Theorem failed_call_pins_nothing (self : Self) (a : CallArgs) (s : State) (e : Exn) :
  both_overrides self = false ->
  fst (_call_api self a s) = Raise e ->
  inst_WORKING_APP_VERSION (instance_of self (snd (_call_api self a s)))
  = inst_WORKING_APP_VERSION (instance_of self s).
Proof.
  intros Hboth.
  destruct (inst_WORKING_APP_VERSION (instance_of self s)) as [v|] eqn:Hpin.
  - destruct (call_api_pinned self a s v Hpin) as (r & w1 & _ & _ & E). by rewrite E.
  - rewrite (call_api_unpinned self a s Hpin Hboth).
    destruct (prologue_state self s) as (_ & Hi & _).
    set (s1 := if lone_override self
               then snd (report_warning self lone_override_warning true s) else s) in *.
    destruct (negotiate_objects self a (_APP_VERSIONS (cls self)) 1%nat s1)
      as (res & s' & E & _ & Hraise & _).
    rewrite E. simpl. intros ->. unfold instance_of in *.
    rewrite (Hraise e eq_refl). by rewrite Hi.
Qed.

End NegotiatorExtras.

Lemma negotiation_stops_at_other_failure_witness :
  let s := start_state (script_of [empty_body; forbidden; Return (Some empty_page)]) in
  fst (_call_api tiktok_ie feed_args s) = forbidden
  /\ inst_WORKING_APP_VERSION (instance_of tiktok_ie (snd (_call_api tiktok_ie feed_args s)))
     = None
  /\ map version_of_request (requests_of (events (snd (_call_api tiktok_ie feed_args s))))
     = [Some ("26.1.3", "260103"); Some ("26.1.2", "260102")].
Proof.
  intros s.
  destruct (negotiation_stops_at_other_failure
              tiktok_ie feed_args s
              [("26.1.3", "260103")] ("26.1.2", "260102")
              [("26.1.1", "260101"); ("25.6.2", "250602")]
              (EExtractorError
                 {| msg := "Unable to download video feed: HTTP Error 403: Forbidden";
                    cause := Some (OtherCause "HTTP Error 403: Forbidden") |})
              (default (world s)
                 (all_rejected tiktok_ie feed_args [("26.1.3", "260103")] (world s)))
              (snd (answer tiktok_ie feed_args ("26.1.2", "260102")
                      (default (world s)
                         (all_rejected tiktok_ie feed_args [("26.1.3", "260103")] (world s))))))
    as (Hres & _ & Hpin & (rs & Hreq & Hvs)).
  - vm_compute. reflexivity.
  - vm_compute. reflexivity.
  - vm_compute. reflexivity.
  - vm_compute. reflexivity.
  - vm_compute. reflexivity.
  - vm_compute. reflexivity.
  - split; [exact Hres|]. split; [exact Hpin|].
    rewrite Hreq. exact Hvs.
Defined.

Lemma negotiation_exhausted_witness :
  let s := start_state (script_of [empty_body; empty_body; empty_body; empty_body;
                                   Return (Some empty_page)]) in
  fst (_call_api tiktok_ie feed_args s) = empty_body
  /\ inst_WORKING_APP_VERSION (instance_of tiktok_ie (snd (_call_api tiktok_ie feed_args s)))
     = None
  /\ map version_of_request (requests_of (events (snd (_call_api tiktok_ie feed_args s))))
     = map Some (_APP_VERSIONS TikTokIE_class).
Proof.
  intros s.
  destruct (negotiation_exhausted
              tiktok_ie feed_args s
              [("26.1.3", "260103"); ("26.1.2", "260102"); ("26.1.1", "260101")]
              ("25.6.2", "250602")
              {| msg := "Failed to parse JSON";
                 cause := Some (JSONDecodeError "Expecting value: line 1 column 1 (char 0)" 0) |}
              (default (world s)
                 (all_rejected tiktok_ie feed_args
                    [("26.1.3", "260103"); ("26.1.2", "260102"); ("26.1.1", "260101")]
                    (world s)))
              (snd (answer tiktok_ie feed_args ("25.6.2", "250602")
                      (default (world s)
                         (all_rejected tiktok_ie feed_args
                            [("26.1.3", "260103"); ("26.1.2", "260102"); ("26.1.1", "260101")]
                            (world s))))))
    as (Hres & _ & Hpin & (rs & Hreq & Hvs) & _).
  - vm_compute. reflexivity.
  - vm_compute. reflexivity.
  - vm_compute. reflexivity.
  - vm_compute. reflexivity.
  - vm_compute. reflexivity.
  - vm_compute. reflexivity.
  - split; [exact Hres|]. split; [exact Hpin|].
    rewrite Hreq. exact Hvs.
Defined.

Lemma call_api_leaves_other_objects_witness :
  let s := snd (_call_api tiktok_ie feed_args
                  (start_state (script_of [empty_body; Return (Some empty_page);
                                           Return (Some empty_page)]))) in
  instance_of tiktok_ie (snd (_call_api tiktok_sound_ie feed_args s))
  = {| inst_WORKING_APP_VERSION := Some ("26.1.2", "260102"); inst_printed_messages := [] |}.
Proof.
  intros s.
  rewrite (call_api_leaves_other_objects tiktok_sound_ie tiktok_ie feed_args s).
  - vm_compute. reflexivity.
  - vm_compute. discriminate.
Defined.

Lemma failed_call_pins_nothing_witness :
  let s := start_state (script_of [forbidden]) in
  inst_WORKING_APP_VERSION (instance_of tiktok_ie (snd (_call_api tiktok_ie feed_args s)))
  = None.
Proof.
  intros s.
  rewrite (failed_call_pins_nothing tiktok_ie feed_args s
             (EExtractorError
                {| msg := "Unable to download video feed: HTTP Error 403: Forbidden";
                   cause := Some (OtherCause "HTTP Error 403: Forbidden") |})).
  - vm_compute. reflexivity.
  - vm_compute. reflexivity.
  - vm_compute. reflexivity.
Defined.

Example cursor_request_keeps_cursor :
  let s := start_state (script_of [Return (Some empty_page)]) in
  map (fun r => (req_query r !! "cursor", req_query r !! "version_name", req_fatal r))
      (requests_of (events (snd (_call_api tiktok_sound_ie cursor_args s))))
  = [(Some (VInt 20), Some (VStr "26.1.3"), false)].
Proof. vm_compute. reflexivity. Qed.

(* ===================================================================== *)
(** * Subtitles: what the loop can end in                                  *)
(* ===================================================================== *)

Section SubtitleExtras.
Context `{Host}.

Lemma subtitles_append_of_captions (captions : list Caption) (caption : Caption)
    (data : string) (subtitles : gmap string (list Subtitle)) :
  caption ∈ captions ->
  subtitles_of_captions captions subtitles ->
  subtitles_of_captions captions
    (subtitles_append (caption_language caption) {| sub_ext := "srt"; sub_data := data |}
       subtitles).
Proof.
  intros Hin Hwf lang entries. unfold subtitles_append.
  destruct (decide (lang = caption_language caption)) as [->|Hne].
  - rewrite lookup_insert_eq. intros [= <-]. split; [by destruct (default [] _)|]. split.
    + apply Forall_app. split; [|by repeat constructor].
      destruct (subtitles !! caption_language caption) as [old|] eqn:Hold; [|constructor].
      apply (Hwf _ _ Hold).
    + by exists caption.
  - rewrite lookup_insert_ne by done. apply Hwf.
Qed.

Lemma subtitles_loop_outcome (vid : string) (all : list Caption) (captions : list Caption) :
  forall (subtitles : gmap string (list Subtitle)) (s : State),
    captions ⊆ all ->
    subtitles_of_captions all subtitles ->
    let run := subtitles_loop vid captions subtitles s in
    objects (snd run) = objects s
    /\ events (snd run) = events s
    /\ forall subs, fst run = Return subs -> subtitles_of_captions all subs.
Proof.
  induction captions as [|caption rest IH]; intros subtitles s Hsub Hwf.
  { simpl. split; [done|]. split; [done|]. by intros subs [= <-]. }
  assert (Hin : caption ∈ all) by (apply Hsub; left).
  assert (Hrest : rest ⊆ all) by (intros c Hc; apply Hsub; by right).
  simpl. unfold bind, subtitles_step.
  destruct (caption_url caption) as [u|]; [|apply (IH _ _ Hrest Hwf)].
  destruct (str_truthy u); simpl; [|apply (IH _ _ Hrest Hwf)].
  unfold bind, lift_world.
  destruct (_download_caption_json u vid (world s)) as [[cj|] w].
  - destruct (utterances cj) as [lines|]; simpl; [|done].
    match goal with
    | |- context [subtitles_loop vid rest ?subs ?s1] =>
        destruct (IH subs s1 Hrest) as (Ho & He & Hres)
    end.
    { by apply subtitles_append_of_captions. }
    simpl in Ho, He. done.
  - simpl.
    match goal with
    | |- context [subtitles_loop vid rest ?subs ?s1] =>
        destruct (IH subs s1 Hrest Hwf) as (Ho & He & Hres)
    end.
    simpl in Ho, He. done.
Qed.

Lemma subtitles_loop_no_url (vid : string) (captions : list Caption) :
  Forall (fun caption => caption_url caption = None) captions ->
  forall subtitles s, subtitles_loop vid captions subtitles s = (Return subtitles, s).
Proof.
  induction 1 as [|caption rest Hc _ IH]; intros subtitles s; [done|].
  simpl. unfold bind, subtitles_step. rewrite Hc. simpl. apply IH.
Qed.

(** X6.  [_get_subtitles] makes no API call and touches no extractor
    object, however it ends.  Captions without a URL are passed over
    without a download: when no caption has one, the result is the empty
    dictionary and the host is left as it was.  When the function returns,
    every key of the result is the language of one of the captions (['en']
    for a caption that names none) and holds at least one entry, all of
    them [srt] entries. *)
Theorem get_subtitles_outcome (aweme_detail : AwemeDetail) (vid : string) (s : State) :
  let run := _get_subtitles aweme_detail vid s in
  objects (snd run) = objects s
  /\ events (snd run) = events s
  /\ (Forall (fun caption => caption_url caption = None)
             (concat (interaction_stickers aweme_detail)) ->
      run = (Return ∅, s))
  /\ (forall subs,
        fst run = Return subs ->
        subtitles_of_captions (concat (interaction_stickers aweme_detail)) subs).
Proof.
  unfold _get_subtitles.
  destruct (subtitles_loop_outcome vid (concat (interaction_stickers aweme_detail))
              (concat (interaction_stickers aweme_detail)) ∅ s) as (Ho & He & Hres).
  { done. }
  { intros lang entries. by rewrite lookup_empty. }
  split; [exact Ho|]. split; [exact He|]. split; [|exact Hres].
  intros Hnone. by apply subtitles_loop_no_url.
Qed.

Lemma srt_data_silent (lines : list Utterance) :
  Forall (fun line => has_text line = false) lines -> srt_data lines = "".
Proof.
  intros Hall. unfold srt_data.
  replace (filter _ (enumerate_from 0 lines)) with (@nil (nat * Utterance)); [done|].
  generalize 0%nat. induction Hall as [|line lines Hline _ IH]; intros n; simpl; [done|].
  rewrite filter_cons. simpl. rewrite Hline.
  destruct (decide (false = true)); [done|]. apply IH.
Qed.

(** X7.  A caption whose payload holds no utterance with text (an empty
    list included) is not passed over: it gives a subtitle entry with empty
    data under its language. *)
Theorem silent_caption_gives_empty_subtitle
    (aweme_detail : AwemeDetail) (vid : string) (s : State)
    (caption : Caption) (u : string) (cj : CaptionJson) (lines : list Utterance) (w : World) :
  interaction_stickers aweme_detail = [[caption]] ->
  caption_url caption = Some u ->
  str_truthy u = true ->
  _download_caption_json u vid (world s) = (Some cj, w) ->
  utterances cj = Some lines ->
  Forall (fun line => has_text line = false) lines ->
  fst (_get_subtitles aweme_detail vid s)
  = Return {[ caption_language caption := [ {| sub_ext := "srt"; sub_data := "" |} ] ]}.
Proof.
  intros Hst Hu Ht Hd Hl Hall.
  unfold _get_subtitles. rewrite Hst. simpl.
  unfold bind, subtitles_step. rewrite Hu, Ht. simpl.
  unfold bind, lift_world. rewrite Hd, Hl. simpl.
  rewrite (srt_data_silent lines Hall). unfold subtitles_append.
  rewrite lookup_empty. simpl. by rewrite insert_empty.
Qed.

End SubtitleExtras.

Lemma silent_caption_gives_empty_subtitle_witness :
  let caption := {| caption_url_list := ["https://v16.example/caption.json"];
                    language := Some "de" |} in
  let detail := {| aweme_id := "7047596209028074758"; video := no_covers_video;
                   music := alice_sound; author_uid := None; desc := None;
                   interaction_stickers := [[caption]] |} in
  let reply := {| utterances :=
                    Some [ {| start_time := 0; end_time := 1000; text := None |};
                           {| start_time := 1000; end_time := 2000; text := Some "" |} ] |} in
  fst (_get_subtitles detail (aweme_id detail) (start_state (caption_script [Some reply])))
  = Return {[ "de" := [ {| sub_ext := "srt"; sub_data := "" |} ] ]}.
Proof.
  intros caption detail reply.
  apply (silent_caption_gives_empty_subtitle detail (aweme_id detail)
           (start_state (caption_script [Some reply])) caption
           "https://v16.example/caption.json" reply
           [ {| start_time := 0; end_time := 1000; text := None |};
             {| start_time := 1000; end_time := 2000; text := Some "" |} ]
           (caption_script [])).
  - reflexivity.
  - vm_compute. reflexivity.
  - reflexivity.
  - reflexivity.
  - reflexivity.
  - repeat constructor.
Defined.

Example missing_utterances_abort :
  let caption := {| caption_url_list := ["https://v16.example/caption.json"];
                    language := None |} in
  let detail := {| aweme_id := "7047596209028074758"; video := no_covers_video;
                   music := alice_sound; author_uid := None; desc := None;
                   interaction_stickers := [[caption; caption]] |} in
  let good := {| utterances :=
                   Some [ {| start_time := 0; end_time := 1000; text := Some "hi" |} ] |} in
  fst (_get_subtitles detail (aweme_id detail)
         (start_state (caption_script [Some good; Some {| utterances := None |}])))
  = Raise (EKeyError "utterances").
Proof. vm_compute. reflexivity. Qed.

(* ===================================================================== *)
(** * The descriptors [extract_addr] builds                                *)
(* ===================================================================== *)

Lemma parse_url_key_keys (key k : string) :
  k ∉ parsed_keys -> fst (parse_url_key key) !! k = None.
Proof.
  intros Hk. unfold parse_url_key.
  destruct (search_url_key _) as [[[c r] b]|]; cbn [fst]; [|apply lookup_empty].
  by apply not_elem_of_list_to_map_1.
Qed.

Lemma parse_url_key_untagged (key : string) :
  snd (parse_url_key key) = None -> fst (parse_url_key key) = ∅.
Proof.
  unfold parse_url_key. by destruct (search_url_key _) as [[[c r] b]|].
Qed.

Lemma table_plain_empty : table_plain ∅.
Proof. intros r d k. by rewrite lookup_empty. Qed.

Lemma setdefault_keys (k0 : string) (v : Val) (d : Meta) (k : string) :
  is_Some (setdefault k0 v d !! k) -> k = k0 \/ is_Some (d !! k).
Proof.
  unfold setdefault. destruct (d !! k0) eqn:E0; [by right|].
  destruct (decide (k = k0)) as [->|Hne]; [by left|].
  rewrite lookup_insert_ne by done. by right.
Qed.

(** What one call of [extract_addr] builds: one descriptor per URL, with
    the fixed entries; the parsed entries when the key carries a tag, the
    caller's own otherwise; and a table that still holds dimensions only. *)
Lemma extract_addr_descriptors (addr : Addr) (meta : Meta) (known : Known) :
  table_plain known ->
  meta_plain meta ->
  table_plain (snd (extract_addr addr meta known))
  /\ Forall2 (descriptor_of_url addr) (url_list addr) (fst (extract_addr addr meta known))
  /\ Forall (fun f =>
               match slot_tag (addr, meta) with
               | Some _ =>
                   forall k, k ∈ parsed_keys ->
                             is_Some (f !! k)
                             /\ f !! k = fst (parse_url_key (default "" (url_key addr))) !! k
               | None =>
                   forall k, k ∉ base_keys -> k <> "format_note" -> f !! k = meta !! k
               end)
            (fst (extract_addr addr meta known)).
Proof.
  intros Hplain Hmeta.
  pose proof (parse_url_key_keys (default "" (url_key addr))) as Hkeys.
  pose proof (parse_url_key_untagged (default "" (url_key addr))) as Hunt.
  pose proof (slot_tag_truthy (addr, meta)) as Htruthy.
  assert (Hpk : forall k, k ∈ parsed_keys ->
                  snd (parse_url_key (default "" (url_key addr))) <> None ->
                  is_Some (fst (parse_url_key (default "" (url_key addr))) !! k)).
  { intros k Hk. unfold parse_url_key.
    destruct (search_url_key _) as [[[c r] b]|]; cbn [fst snd]; [intros _|done].
    unfold parsed_keys in Hk. set_unfold.
    destruct Hk as [->|[->|[->|[->|[]]]]]; by eexists. }
  unfold slot_tag in *. simpl in *. unfold extract_addr.
  destruct (parse_url_key (default "" (url_key addr))) as [pm res]. simpl in *.
  assert (Hbase : forall k, k ∈ base_keys -> pm !! k = None).
  { intros k Hk. apply Hkeys. unfold base_keys, parsed_keys in *. set_unfold.
    intros [->|[->|[->|[->|[]]]]]; destruct Hk as [?|[?|[?|[?|[?|[]]]]]]; done. }
  destruct res as [r|].
  - rewrite (Htruthy r eq_refl). cbv zeta. rewrite !lookup_insert_eq. simpl.
    set (d0 := default ∅ (known !! r)).
    set (e1 := setdefault "height" (dict_get meta "height") d0).
    set (e2 := setdefault "width" (dict_get meta "width") e1).
    assert (He2 : forall k, is_Some (e2 !! k) -> k = "height" \/ k = "width").
    { intros k Hk. apply setdefault_keys in Hk as [->|Hk]; [by right|].
      apply setdefault_keys in Hk as [->|Hk]; [by left|].
      subst d0. destruct (known !! r) as [d|] eqn:Hd; simpl in Hk.
      - by apply (Hplain r d k Hd).
      - rewrite lookup_empty in Hk. by destruct Hk. }
    assert (He2n : forall k, k <> "height" -> k <> "width" -> e2 !! k = None).
    { intros k H1 H2. destruct (e2 !! k) eqn:E; [|done].
      destruct (He2 k) as [?|?]; [by eexists|done|done]. }
    split; [|split].
    + intros r' d k. destruct (decide (r' = r)) as [->|Hne].
      * rewrite lookup_insert_eq. intros [= <-]. apply He2.
      * rewrite !lookup_insert_ne by done. apply Hplain.
    + induction (url_list addr) as [|u us IH]; simpl; constructor; [|exact IH].
      unfold descriptor_of_url.
      assert (Hlk : forall k v, k ∈ base_keys ->
                (list_to_map
                   [ ("url", VStr u); ("filesize", val_of_int (data_size addr));
                     ("ext", VStr "mp4"); ("acodec", VStr "aac");
                     ("source_preference", VInt (if str_contains "aweme/v1" u then -2 else -1)) ]
                 : Meta) !! k = Some v ->
                forall note other,
                  (<["format_note" := note]>
                     ((e2 ∪ pm) ∪ (setdefault "height" other meta ∪
                        list_to_map
                          [ ("url", VStr u); ("filesize", val_of_int (data_size addr));
                            ("ext", VStr "mp4"); ("acodec", VStr "aac");
                            ("source_preference",
                             VInt (if str_contains "aweme/v1" u then -2 else -1)) ])) : Meta)
                  !! k = Some v).
      { intros k v Hk Hv note other.
        assert (k <> "format_note" /\ k <> "height" /\ k <> "width") as (N1 & N2 & N3).
        { unfold base_keys in Hk. set_unfold.
          destruct Hk as [->|[->|[->|[->|[->|[]]]]]]; done. }
        rewrite lookup_insert_ne by done.
        rewrite lookup_union_r.
        2:{ apply lookup_union_None. split; [by apply He2n | by apply Hbase]. }
        rewrite lookup_union_r; [exact Hv|].
        rewrite setdefault_lookup_ne by done. by apply Hmeta. }
      repeat split; apply Hlk; try reflexivity; unfold base_keys; repeat constructor.
    + apply Forall_forall. intros f Hf. apply list_elem_of_In in Hf.
      apply in_map_iff in Hf as (u & <- & _). intros k Hk.
      assert (k <> "format_note" /\ k <> "height" /\ k <> "width") as (N1 & N2 & N3).
      { unfold parsed_keys in Hk. set_unfold.
        destruct Hk as [->|[->|[->|[->|[]]]]]; done. }
      destruct (Hpk k Hk ltac:(done)) as [v Hv].
      rewrite lookup_insert_ne by done.
      erewrite lookup_union_Some_l; [by rewrite Hv|].
      rewrite lookup_union_r; [exact Hv | by apply He2n].
  - rewrite (Hunt eq_refl). split; [exact Hplain|]. split.
    + induction (url_list addr) as [|u us IH]; simpl; constructor; [|exact IH].
      unfold descriptor_of_url.
      repeat split; rewrite lookup_insert_ne by done; rewrite (left_id ∅ (∪));
        (rewrite lookup_union_r; [reflexivity | apply Hmeta; unfold base_keys; repeat constructor]).
    + apply Forall_forall. intros f Hf. apply list_elem_of_In in Hf.
      apply in_map_iff in Hf as (u & <- & _). intros k Hk Hnote.
      rewrite lookup_insert_ne by done. rewrite (left_id ∅ (∪)).
      destruct (meta !! k) as [v|] eqn:Hm.
      * by erewrite lookup_union_Some_l.
      * rewrite lookup_union_r by done.
        exact (not_elem_of_list_to_map_1
                 [ ("url", VStr u); ("filesize", val_of_int (data_size addr));
                   ("ext", VStr "mp4"); ("acodec", VStr "aac");
                   ("source_preference", VInt (if str_contains "aweme/v1" u then -2 else -1)) ]
                 k Hk).
Qed.

(** A property of every call of [extract_addr] holds of every slot. *)
Lemma extract_slots_Forall2 (Inv : Known -> Prop) (Q : Addr * Meta -> Prop)
    (P : Addr * Meta -> list Format -> Prop) :
  (forall addr meta known,
     Q (addr, meta) -> Inv known ->
     Inv (snd (extract_addr addr meta known))
     /\ P (addr, meta) (fst (extract_addr addr meta known))) ->
  forall slots known,
    Forall Q slots -> Inv known -> Forall2 P slots (extract_slots slots known).
Proof.
  intros Hstep slots. induction slots as [|[addr meta] rest IH]; intros known HQ Hinv;
    [constructor|].
  rewrite extract_slots_cons. inversion HQ as [|? ? Hq Hrest]; subst.
  destruct (Hstep addr meta known Hq Hinv) as [Hinv' HP].
  constructor; [exact HP | by apply IH].
Qed.

Lemma stream_slots_plain (v : VideoInfo) :
  Forall (fun slot => meta_plain (snd slot)) (stream_slots v).
Proof.
  assert (Hplain : forall m : Meta,
            m !! "url" = None -> m !! "filesize" = None -> m !! "ext" = None ->
            m !! "acodec" = None -> m !! "source_preference" = None -> meta_plain m).
  { intros m H1 H2 H3 H4 H5 k Hk. unfold base_keys in Hk. set_unfold.
    destruct Hk as [->|[->|[->|[->|[->|[]]]]]]; done. }
  unfold stream_slots. repeat (apply Forall_app; split).
  - destruct (play_addr v); constructor; [|constructor]. by apply Hplain.
  - destruct (download_addr v); constructor; [|constructor]. by apply Hplain.
  - destruct (play_addr_h264 v); constructor; [|constructor]. by apply Hplain.
  - destruct (play_addr_bytevc1 v); constructor; [|constructor]. by apply Hplain.
  - apply Forall_forall. intros slot Hin.
    apply list_elem_of_omap in Hin as (b & _ & Hb).
    destruct (br_play_addr b); [|discriminate]. injection Hb as <-. by apply Hplain.
Qed.

Lemma stream_slots_descriptors (v : VideoInfo) :
  Forall2 (fun slot fs =>
             Forall2 (descriptor_of_url (fst slot)) (url_list (fst slot)) fs
             /\ Forall (fun f =>
                          match slot_tag slot with
                          | Some _ =>
                              forall k, k ∈ parsed_keys ->
                                is_Some (f !! k)
                                /\ f !! k
                                   = fst (parse_url_key (default "" (url_key (fst slot)))) !! k
                          | None =>
                              forall k, k ∉ base_keys -> k <> "format_note" ->
                                        f !! k = snd slot !! k
                          end) fs)
          (stream_slots v) (extract_slots (stream_slots v) ∅).
Proof.
  apply (extract_slots_Forall2 table_plain (fun slot => meta_plain (snd slot))).
  - intros addr meta known Hq Hinv.
    destruct (extract_addr_descriptors addr meta known Hinv Hq) as (H1 & H2 & H3).
    split; [exact H1|]. by split.
  - apply stream_slots_plain.
  - apply table_plain_empty.
Qed.

Lemma descriptor_urls (slots : list (Addr * Meta)) (fss : list (list Format)) :
  Forall2 (fun slot fs => Forall2 (descriptor_of_url (fst slot)) (url_list (fst slot)) fs)
          slots fss ->
  map (fun f => f !! "url") (concat fss)
  = map (fun u => Some (VStr u)) (concat (map (fun slot => url_list (fst slot)) slots)).
Proof.
  induction 1 as [|slot fs slots fss Hfs _ IH]; [done|].
  simpl. rewrite !map_app, IH. f_equal.
  clear -Hfs. induction Hfs as [|u f us fs Hf _ IH]; [done|].
  simpl. rewrite IH. by destruct Hf as [-> _].
Qed.

(** X8.  Every URL of every stream entry gives exactly one descriptor, in
    program order (the entries of [play_addr] first), and that descriptor
    holds the URL, the entry's [data_size] as [filesize], [ext] ['mp4'],
    [acodec] ['aac'] and a [source_preference] of [-2] for a URL containing
    ['aweme/v1'] and of [-1] for any other: nothing the caller passes and
    nothing read off the key changes these entries. *)
Theorem one_descriptor_per_url (v : VideoInfo) :
  Forall2 (fun slot fs => Forall2 (descriptor_of_url (fst slot)) (url_list (fst slot)) fs)
          (stream_slots v) (extract_slots (stream_slots v) ∅)
  /\ map (fun f => f !! "url") (extracted_formats v)
     = map (fun u => Some (VStr u)) (concat (map (fun slot => url_list (fst slot))
                                                 (stream_slots v))).
Proof.
  assert (H1 : Forall2 (fun slot fs =>
                          Forall2 (descriptor_of_url (fst slot)) (url_list (fst slot)) fs)
                       (stream_slots v) (extract_slots (stream_slots v) ∅)).
  { eapply Forall2_impl; [apply stream_slots_descriptors|]. by intros slot fs [? _]. }
  split; [exact H1|]. by apply descriptor_urls.
Qed.

(** X9.  Which metadata a descriptor ends with.  When the address's key
    carries a resolution tag, [format_id], [vcodec], [tbr] and [quality]
    are the ones read off the key, whatever the caller passed under these
    names (a gear name, a bitrate, the codec flags).  When the key carries
    none, every entry the caller passed reaches the descriptor unchanged,
    apart from [format_note]. *)
Theorem key_metadata_overrides_the_callers (v : VideoInfo) :
  Forall2 (fun slot fs =>
             Forall (fun f =>
                       match slot_tag slot with
                       | Some _ =>
                           forall k, k ∈ parsed_keys ->
                             is_Some (f !! k)
                             /\ f !! k
                                = fst (parse_url_key (default "" (url_key (fst slot)))) !! k
                       | None =>
                           forall k, k ∉ base_keys -> k <> "format_note" ->
                                     f !! k = snd slot !! k
                       end) fs)
          (stream_slots v) (extract_slots (stream_slots v) ∅).
Proof.
  eapply Forall2_impl; [apply stream_slots_descriptors|]. by intros slot fs [_ ?].
Qed.

Lemma first_dims_from_slot (slots : list (Addr * Meta)) (r : string) (D : Val * Val) :
  first_dims slots r = Some D -> exists slot, slot ∈ slots /\ meta_dims (snd slot) = D.
Proof.
  induction slots as [|s0 rest IH]; [done|]. simpl. case_bool_decide.
  - intros [= <-]. exists s0. split; [left | done].
  - intros Hr. destruct (IH Hr) as (slot & Hin & Hd). exists slot. split; [by right | done].
Qed.

Lemma stream_slots_dims (v : VideoInfo) :
  Forall (fun slot =>
            meta_dims (snd slot) = (VNone, VNone)
            \/ meta_dims (snd slot) = (val_of_int (height v), val_of_int (width v)))
         (stream_slots v).
Proof.
  unfold stream_slots. repeat (apply Forall_app; split).
  - destruct (play_addr v); constructor; [by right | constructor].
  - destruct (download_addr v); constructor; [by right | constructor].
  - destruct (play_addr_h264 v); constructor; [by left | constructor].
  - destruct (play_addr_bytevc1 v); constructor; [by left | constructor].
  - apply Forall_forall. intros slot Hin.
    apply list_elem_of_omap in Hin as (b & _ & Hb).
    destruct (br_play_addr b); [|discriminate]. injection Hb as <-. by left.
Qed.

(** X10.  The height and width of a descriptor are never read off the
    resolution tag of its key (the [540] of [540p]): every descriptor
    holds either the video's own [height] and [width], or none. *)
Theorem descriptor_dimensions_are_the_videos (v : VideoInfo) :
  Forall (fun f =>
            meta_dims f = (VNone, VNone)
            \/ meta_dims f = (val_of_int (height v), val_of_int (width v)))
         (extracted_formats v).
Proof.
  apply Forall_forall. intros f Hf. unfold extracted_formats in Hf.
  apply list_elem_of_In, in_concat in Hf as (fs & Hfs & Hf).
  apply list_elem_of_In, list_elem_of_lookup_1 in Hfs as [j Hj].
  pose proof (stream_slots_descriptors v) as Hall.
  destruct (Forall2_lookup_r _ _ _ _ _ Hall Hj) as (slot & Hslot & _ & Hmeta).
  pose proof (stream_slots_dims v) as Hdims. rewrite Forall_forall in Hdims.
  destruct (slot_tag slot) as [r|] eqn:Htag.
  - destruct (extract_slots_dims (stream_slots v) ∅ j slot r fs f
                table_ok_empty Hslot Htag Hj Hf) as [Hd _].
    unfold table_dims in Hd. rewrite lookup_empty in Hd. simpl in Hd.
    symmetry in Hd. apply first_dims_from_slot in Hd as (slot' & Hin & Hd).
    rewrite <- Hd. by apply Hdims.
  - rewrite Forall_forall in Hmeta. apply list_elem_of_In in Hf.
    specialize (Hmeta f Hf).
    assert (Hsame : meta_dims f = meta_dims (snd slot)).
    { unfold meta_dims, dict_get. rewrite !Hmeta; try done; compute_done. }
    rewrite Hsame. apply Hdims. by eapply list_elem_of_lookup_2.
Qed.

Example api_video_descriptors :
  map (fun f => (dict_get f "url", dict_get f "source_preference", dict_get f "format_id",
                 dict_get f "vcodec", meta_dims f))
      (extracted_formats api_video)
  = [ (VStr "https://v16.example/play", VInt (-1), VStr "h264_720p_1204567", VStr "h264",
       (VInt 1280, VInt 720));
      (VStr "https://api-h2.tiktokv.com/aweme/v1/play/?video_id=1", VInt (-2),
       VStr "h264_720p_1204567", VStr "h264", (VInt 1280, VInt 720));
      (VStr "https://v16.example/ladder", VInt (-1), VStr "bytevc1_540p_412345", VStr "h265",
       (VNone, VNone)) ].
Proof. vm_compute. reflexivity. Qed.

(* ===================================================================== *)
(** * Strings: appending, prefixes, splitting                              *)
(* ===================================================================== *)

Lemma str_app_cons (c : ascii) (a b : string) : String c a ++ b = String c (a ++ b).
Proof. reflexivity. Qed.

Lemma str_app_nil_l (b : string) : "" ++ b = b.
Proof. reflexivity. Qed.

Lemma str_app_assoc (a b c : string) : (a ++ b) ++ c = a ++ (b ++ c).
Proof.
  induction a as [|x a IH]; [reflexivity|]. rewrite !str_app_cons. by f_equal.
Qed.

Lemma str_app_nil_r (a : string) : a ++ "" = a.
Proof. induction a as [|x a IH]; [reflexivity|]. rewrite str_app_cons. by f_equal. Qed.

Lemma prefix_app (p r : string) : String.prefix p (p ++ r) = true.
Proof.
  induction p as [|x p IH]; [rewrite str_app_nil_l; by destruct r|].
  rewrite str_app_cons. simpl. by destruct (ascii_dec x x).
Qed.

Lemma prefix_inv (p s : string) : String.prefix p s = true -> exists r, s = p ++ r.
Proof.
  revert s. induction p as [|x p IH]; intros s; [intros _; exists s; reflexivity|].
  destruct s as [|y s]; simpl; [done|]. destruct (ascii_dec x y) as [->|]; [|done].
  intros Hp. destruct (IH s Hp) as [r ->]. exists r. reflexivity.
Qed.

Lemma substring_all (s : string) : String.substring 0 (String.length s) s = s.
Proof. induction s as [|x s IH]; simpl; [done | by f_equal]. Qed.

Lemma str_length_app (a b : string) :
  String.length (a ++ b) = (String.length a + String.length b)%nat.
Proof.
  induction a as [|x a IH]; [reflexivity|]. rewrite str_app_cons. simpl. by f_equal.
Qed.

Lemma strip_prefix_app (p r : string) : strip_prefix p (p ++ r) = Some r.
Proof.
  unfold strip_prefix. rewrite prefix_app, str_length_app. f_equal.
  replace (String.length p + String.length r - String.length p)%nat
    with (String.length r) by lia.
  induction p as [|x p IH]; [apply substring_all|].
  rewrite str_app_cons. simpl. exact IH.
Qed.

Lemma strip_prefix_Some (p s r : string) : strip_prefix p s = Some r -> s = p ++ r.
Proof.
  unfold strip_prefix. destruct (String.prefix p s) eqn:Hp; [|done].
  apply prefix_inv in Hp as [r' ->]. intros Hr.
  pose proof (strip_prefix_app p r') as Hs. unfold strip_prefix in Hs.
  rewrite prefix_app in Hs. congruence.
Qed.

Lemma str_contains_unfold (n s : string) :
  str_contains n s
  = String.prefix n s || match s with
                         | EmptyString => false
                         | String _ rest => str_contains n rest
                         end.
Proof. by destruct s. Qed.

Lemma str_contains_app (n x y : string) : str_contains n (x ++ n ++ y) = true.
Proof.
  induction x as [|c x IH].
  - rewrite str_app_nil_l, str_contains_unfold. by rewrite prefix_app.
  - rewrite str_app_cons. simpl. rewrite IH. apply orb_true_r.
Qed.

(* ===================================================================== *)
(** * [parse_url_key]: what it reads off a key                             *)
(* ===================================================================== *)

Lemma is_digit_not_underscore (c : ascii) : is_digit c = true -> Ascii.eqb c "_" = false.
Proof. destruct (Ascii.eqb_spec c "_") as [->|]; [discriminate | done]. Qed.

Lemma no_underscore_cons (c : ascii) (s : string) :
  no_underscore (String c s) = negb (Ascii.eqb c "_") && no_underscore s.
Proof. reflexivity. Qed.

Lemma all_digits_cons (c : ascii) (s : string) :
  all_digits (String c s) = is_digit c && all_digits s.
Proof. reflexivity. Qed.

Lemma split_underscore_nonempty (s : string) : split_underscore s <> [].
Proof.
  induction s as [|c s IH]; simpl; [done|].
  destruct (Ascii.eqb c "_"); [done|]. by destruct (split_underscore s).
Qed.

Lemma split_underscore_one (a : string) :
  no_underscore a = true -> split_underscore a = [a].
Proof.
  induction a as [|c a IH]; [done|]. rewrite no_underscore_cons.
  intros [Hc Ha]%andb_true_iff. simpl. apply negb_true_iff in Hc. by rewrite Hc, (IH Ha).
Qed.

Lemma split_underscore_app (a rest : string) :
  no_underscore a = true ->
  split_underscore (a ++ "_" ++ rest) = a :: split_underscore rest.
Proof.
  induction a as [|c a IH]; [done|]. rewrite no_underscore_cons.
  intros [Hc Ha]%andb_true_iff. rewrite str_app_cons. simpl.
  apply negb_true_iff in Hc. by rewrite Hc, (IH Ha).
Qed.

Lemma is_res_no_underscore (r : string) : is_res r = true -> no_underscore r = true.
Proof.
  induction r as [|d r IH]; [done|]. simpl. rewrite no_underscore_cons.
  intros [Hd Hr]%andb_true_iff. rewrite (is_digit_not_underscore d Hd). simpl.
  apply orb_true_iff in Hr as [Hp|Hr]; [|by apply IH].
  apply String.eqb_eq in Hp. by subst r.
Qed.

Lemma all_digits_no_underscore (b : string) : all_digits b = true -> no_underscore b = true.
Proof.
  induction b as [|d b IH]; [done|]. rewrite all_digits_cons, no_underscore_cons.
  intros [Hd Hb]%andb_true_iff. by rewrite (is_digit_not_underscore d Hd), (IH Hb).
Qed.

Lemma digit_prefix_all_digits (b : string) : all_digits b = true -> digit_prefix b = b.
Proof.
  induction b as [|d b IH]; [done|]. rewrite all_digits_cons.
  intros [Hd Hb]%andb_true_iff. simpl. by rewrite Hd, (IH Hb).
Qed.

Lemma digit_prefix_digits (s : string) : all_digits (digit_prefix s) = true.
Proof.
  induction s as [|d s IH]; [done|]. simpl. destruct (is_digit d) eqn:Hd; [|done].
  by rewrite all_digits_cons, Hd, IH.
Qed.

Lemma digit_prefix_split (s : string) : exists tail, s = digit_prefix s ++ tail.
Proof.
  induction s as [|d s [tail IH]]; [by exists ""|]. simpl.
  destruct (is_digit d).
  - exists tail. rewrite str_app_cons. by f_equal.
  - by exists (String d s).
Qed.

(** X11.  A key of the shape [v<id>_<codec>_<digits>p_<digits>] is read
    back into its parts: the format id is [<codec>_<res>_<bitrate>], the
    codec is the key's with [bytevc1] called [h265], the bitrate is given
    in thousands ([None] below one thousand), the quality is the rank of
    the tag, and the tag is handed on. *)
Theorem parse_url_key_canonical (vid codec res bitrate : string) :
  str_truthy vid = true -> no_underscore vid = true ->
  str_truthy codec = true -> no_underscore codec = true ->
  is_res res = true ->
  str_truthy bitrate = true -> all_digits bitrate = true ->
  parse_url_key ("v" ++ vid ++ "_" ++ codec ++ "_" ++ res ++ "_" ++ bitrate)
  = (list_to_map
       [ ("format_id", VStr (codec ++ "_" ++ res ++ "_" ++ bitrate));
         ("vcodec", VStr (if String.eqb codec "bytevc1" then "h265" else codec));
         ("tbr", if Z.eqb (int_of_digits bitrate / 1000) 0 then VNone
                 else VInt (int_of_digits bitrate / 1000));
         ("quality", VInt (qualities QUALITIES res)) ],
     Some res).
Proof.
  intros Hv1 Hv2 Hc1 Hc2 Hr Hb1 Hb2. unfold parse_url_key.
  change ("v" ++ vid ++ "_" ++ codec ++ "_" ++ res ++ "_" ++ bitrate)
    with (String "v" vid ++ "_" ++ codec ++ "_" ++ res ++ "_" ++ bitrate).
  rewrite split_underscore_app by (rewrite no_underscore_cons; by rewrite Hv2).
  rewrite split_underscore_app by done.
  rewrite split_underscore_app by (by apply is_res_no_underscore).
  rewrite split_underscore_one by (by apply all_digits_no_underscore).
  cbn [search_url_key v_then_more]. rewrite Hv1, Hc1, Hr.
  rewrite (digit_prefix_all_digits bitrate Hb2), Hb1. reflexivity.
Qed.

Lemma search_url_key_sound (segs : list string) (c r b : string) :
  search_url_key segs = Some (c, r, b) ->
  exists pre a bfull post,
    segs = (pre ++ a :: c :: r :: bfull :: post)%list
    /\ str_truthy c = true /\ is_res r = true
    /\ b = digit_prefix bfull /\ str_truthy b = true.
Proof.
  induction segs as [|a rest IH]; [done|]. simpl.
  destruct rest as [|c' [|r' [|b' rest']]]; try done.
  destruct (v_then_more a && str_truthy c' && is_res r' && str_truthy (digit_prefix b'))
    eqn:Hm.
  - intros [= <- <- <-].
    apply andb_true_iff in Hm as [Hm Hb]. apply andb_true_iff in Hm as [Hm Hr].
    apply andb_true_iff in Hm as [_ Hc].
    by exists [], a, b', rest'.
  - intros Hs. destruct (IH Hs) as (pre & a' & bfull & post & E & H1 & H2 & H3 & H4).
    exists (a :: pre), a', bfull, post. by rewrite E.
Qed.

Lemma split_underscore_segments (s : string) :
  Forall (fun seg => no_underscore seg = true) (split_underscore s).
Proof.
  induction s as [|c s IH]; simpl; [by repeat constructor|].
  destruct (Ascii.eqb c "_") eqn:Hc; [by constructor|].
  destruct (split_underscore s) as [|seg more].
  - constructor; [by rewrite no_underscore_cons, Hc | constructor].
  - inversion IH as [|? ? Hseg Hmore]; subst. constructor; [|done].
    by rewrite no_underscore_cons, Hc, Hseg.
Qed.

Lemma str_join_cons (delim p q : string) (rest : list string) :
  str_join delim (p :: q :: rest) = p ++ delim ++ str_join delim (q :: rest).
Proof. reflexivity. Qed.

Lemma str_join_split (s : string) : str_join "_" (split_underscore s) = s.
Proof.
  induction s as [|c s IH]; [done|]. simpl.
  pose proof (split_underscore_nonempty s) as Hne.
  destruct (split_underscore s) as [|seg more]; [done|].
  destruct (Ascii.eqb_spec c "_") as [->|_].
  - rewrite str_join_cons, IH. reflexivity.
  - destruct more as [|q more].
    + simpl in *. by subst.
    + rewrite str_join_cons in *. rewrite str_app_cons. by f_equal.
Qed.

Lemma str_join_app (pre : list string) (x : string) (rest : list string) :
  exists front, str_join "_" (pre ++ x :: rest) = front ++ str_join "_" (x :: rest).
Proof.
  induction pre as [|p pre [front IH]]; [by exists ""|].
  exists (p ++ "_" ++ front). simpl app.
  destruct (pre ++ x :: rest)%list as [|q more] eqn:E; [by destruct pre|].
  rewrite str_join_cons, IH. by rewrite !str_app_assoc.
Qed.

Lemma int_of_digits_nonneg (s : string) : 0 <= int_of_digits s.
Proof.
  unfold int_of_digits. generalize (list_ascii_of_string s). intros l.
  assert (H : forall acc, 0 <= acc ->
            0 <= fold_left (fun acc c => 10 * acc + Z.of_nat (nat_of_ascii c - 48)) l acc).
  { induction l as [|c l IH]; intros acc Hacc; simpl; [done|]. apply IH. lia. }
  by apply H.
Qed.

(** X12.  Whatever [parse_url_key] reads off a key was in the key: when it
    yields a tag [r], the format id is [<codec>_<r>_<bitrate>] for a codec
    and a bitrate such that [_<codec>_<r>_<bitrate>] occurs in the key; the
    codec is not empty and holds no underscore, the tag is digits followed
    by [p], the bitrate is a non-empty string of digits.  The codec entry
    is never [bytevc1], and the bitrate entry is [None] or positive. *)
Theorem parse_url_key_sound (key : string) (pm : Meta) (r : string) :
  parse_url_key key = (pm, Some r) ->
  exists codec bitrate,
    pm !! "format_id" = Some (VStr (codec ++ "_" ++ r ++ "_" ++ bitrate))
    /\ str_contains ("_" ++ codec ++ "_" ++ r ++ "_" ++ bitrate) key = true
    /\ str_truthy codec = true /\ no_underscore codec = true
    /\ is_res r = true
    /\ str_truthy bitrate = true /\ all_digits bitrate = true
    /\ pm !! "vcodec" = Some (VStr (if String.eqb codec "bytevc1" then "h265" else codec))
    /\ pm !! "vcodec" <> Some (VStr "bytevc1")
    /\ (pm !! "tbr" = Some VNone \/ exists t, 0 < t /\ pm !! "tbr" = Some (VInt t)).
Proof.
  unfold parse_url_key.
  destruct (search_url_key (split_underscore key)) as [[[c r'] b]|] eqn:Hs; [|done].
  intros [= <- <-].
  destruct (search_url_key_sound _ _ _ _ Hs)
    as (pre & a & bfull & post & Esegs & Hc & Hr & Hb & Hbt).
  pose proof (split_underscore_segments key) as Hsegs. rewrite Esegs in Hsegs.
  apply Forall_app in Hsegs as [_ Hsegs].
  inversion Hsegs as [|? ? _ Hsegs1]; subst.
  inversion Hsegs1 as [|? ? Hcu _]; subst.
  exists c, (digit_prefix bfull).
  split; [reflexivity|]. split.
  { rewrite <- (str_join_split key), Esegs.
    destruct (str_join_app pre a (c :: r' :: bfull :: post)) as [front ->].
    destruct (digit_prefix_split bfull) as [tail Htail].
    assert (Hlast : exists y, str_join "_" (bfull :: post) = digit_prefix bfull ++ y).
    { destruct post as [|q post].
      - exists tail. simpl. exact Htail.
      - exists (tail ++ "_" ++ str_join "_" (q :: post)).
        rewrite str_join_cons. rewrite Htail at 1. by rewrite str_app_assoc. }
    destruct Hlast as [y Hy].
    rewrite !str_join_cons, Hy.
    replace (front ++ a ++ "_" ++ c ++ "_" ++ r' ++ "_" ++ digit_prefix bfull ++ y)
      with ((front ++ a) ++ ("_" ++ c ++ "_" ++ r' ++ "_" ++ digit_prefix bfull) ++ y)
      by (by rewrite !str_app_assoc).
    apply str_contains_app. }
  split; [exact Hc|]. split; [exact Hcu|]. split; [exact Hr|].
  split; [exact Hbt|]. split; [apply digit_prefix_digits|].
  split; [reflexivity|]. split.
  { change (Some (VStr (if String.eqb c "bytevc1" then "h265" else c))
            <> Some (VStr "bytevc1")).
    destruct (String.eqb_spec c "bytevc1"); congruence. }
  set (t := int_or_none_str (digit_prefix bfull) 1000).
  change (Some (if Z.eqb t 0 then VNone else VInt t) = Some VNone
          \/ exists t', 0 < t' /\ Some (if Z.eqb t 0 then VNone else VInt t) = Some (VInt t')).
  destruct (Z.eqb_spec t 0) as [|Hne]; [by left|].
  right. exists t. split; [|reflexivity].
  subst t. unfold int_or_none_str in *.
  pose proof (int_of_digits_nonneg (digit_prefix bfull)).
  assert (0 <= int_of_digits (digit_prefix bfull) / 1000) by (apply Z.div_pos; lia). lia.
Qed.

Lemma parse_url_key_canonical_witness :
  parse_url_key "v09044g40000c6a1b2c3_bytevc1_540p_412345"
  = (list_to_map [ ("format_id", VStr "bytevc1_540p_412345"); ("vcodec", VStr "h265");
                   ("tbr", VInt 412); ("quality", VInt 1) ],
     Some "540p").
Proof.
  apply (parse_url_key_canonical "09044g40000c6a1b2c3" "bytevc1" "540p" "412345");
    reflexivity.
Defined.

Lemma parse_url_key_sound_witness :
  exists codec bitrate,
    str_contains ("_" ++ codec ++ "_" ++ "540p" ++ "_" ++ bitrate)
                 "v09044g40000c6a1b2c3_bytevc1_540p_412345&x" = true
    /\ all_digits bitrate = true.
Proof.
  destruct (parse_url_key_sound "v09044g40000c6a1b2c3_bytevc1_540p_412345&x"
              (fst (parse_url_key "v09044g40000c6a1b2c3_bytevc1_540p_412345&x")) "540p")
    as (codec & bitrate & _ & Hin & _ & _ & _ & _ & Hd & _).
  - vm_compute. reflexivity.
  - exists codec, bitrate. by split.
Defined.

(* ===================================================================== *)
(** * The URL patterns                                                     *)
(* ===================================================================== *)

Lemma all_user_chars_cons (c : ascii) (s : string) :
  all_user_chars (String c s) = is_user_char c && all_user_chars s.
Proof. reflexivity. Qed.

Lemma span_chars_app (p : ascii -> bool) (a : string) (c : ascii) (rest : string) :
  forallb p (list_ascii_of_string a) = true ->
  p c = false ->
  span_chars p (a ++ String c rest) = (a, String c rest).
Proof.
  intros Ha Hc. induction a as [|x a IH].
  - rewrite str_app_nil_l. simpl. by rewrite Hc.
  - simpl in Ha. apply andb_true_iff in Ha as [Hx Ha].
    rewrite str_app_cons. simpl. by rewrite Hx, (IH Ha).
Qed.

Lemma span_chars_taken (p : ascii -> bool) (s : string) :
  forallb p (list_ascii_of_string (fst (span_chars p s))) = true.
Proof.
  induction s as [|c s IH]; [done|]. simpl. destruct (p c) eqn:Hc; [|done].
  destruct (span_chars p s) as [taken left]. simpl in *. by rewrite Hc, IH.
Qed.

Lemma digit_prefix_nil_r (b : string) : all_digits b = true -> digit_prefix (b ++ "") = b.
Proof. intros Hb. by rewrite str_app_nil_r, digit_prefix_all_digits. Qed.

Lemma create_url_matches (user_id : option string) (video_id : string) :
  all_user_chars (default "" user_id) = true ->
  str_truthy video_id = true -> all_digits video_id = true ->
  tiktok_match_valid_url (_create_url user_id video_id)
  = Some (video_id, Some (default "_" (str_or user_id None))).
Proof.
  intros Hu Hv Hd. unfold _create_url.
  set (u := default "_" (str_or user_id None)).
  assert (Hu1 : all_user_chars u = true).
  { subst u. destruct user_id as [[|c s]|]; try reflexivity. exact Hu. }
  assert (Hu2 : str_truthy u = true).
  { subst u. by destruct user_id as [[|c s]|]. }
  unfold tiktok_match_valid_url.
  change ("https://www.tiktok.com/@" ++ u ++ "/video/" ++ video_id)
    with ("http" ++ "s://" ++ "www.tiktok.com/" ++ "@" ++ u ++ String "/" ("video/" ++ video_id)).
  rewrite strip_prefix_app. cbn [mbind option_bind].
  rewrite strip_prefix_app. cbn [mbind option_bind].
  rewrite strip_prefix_app. cbn [mbind option_bind].
  replace (strip_prefix "embed" ("@" ++ u ++ String "/" ("video/" ++ video_id)))
    with (@None string) by reflexivity.
  rewrite strip_prefix_app. cbn [mbind option_bind].
  rewrite (span_chars_app is_user_char u "/" ("video/" ++ video_id) Hu1 eq_refl).
  rewrite Hu2.
  change (String "/" ("video/" ++ video_id)) with ("/video" ++ "/" ++ video_id).
  rewrite strip_prefix_app. cbn [mbind option_bind].
  rewrite strip_prefix_app. cbn [mbind option_bind].
  by rewrite (digit_prefix_all_digits video_id Hd), Hv.
Qed.

Example tiktok_match_embed :
  tiktok_match_valid_url "https://www.tiktok.com/embed/6748451240264420610?x=1"
  = Some ("6748451240264420610", None).
Proof. vm_compute. reflexivity. Qed.

Example tiktok_match_video :
  tiktok_match_valid_url "http://www.tiktok.com/@leena.bhushan-1/video/6748451240264420610"
  = Some ("6748451240264420610", Some "leena.bhushan-1").
Proof. vm_compute. reflexivity. Qed.

Example tiktok_match_rejects :
  map tiktok_match_valid_url
      [ "https://www.tiktok.com/@/video/1"; "https://www.tiktok.com/@a/video/";
        "https://tiktok.com/@a/video/1"; "https://www.tiktok.com/embed/@a/video/1";
        "https://vm.tiktok.com/ZSe4FqkKd" ]
  = [None; None; None; None; None].
Proof. vm_compute. reflexivity. Qed.

(** The two patterns share no URL. *)
Lemma tiktok_url_is_no_short_link (url : string) (parts : string * option string) :
  tiktok_match_valid_url url = Some parts -> vm_suitable url = false.
Proof.
  unfold tiktok_match_valid_url, vm_suitable, vm_match_valid_url.
  destruct (strip_prefix "http" url) as [after_http|]; [|done]. cbn [mbind option_bind].
  destruct (match strip_prefix "s://" after_http with
            | Some r => Some r
            | None => strip_prefix "://" after_http
            end) as [after_scheme|]; [|done]. cbn [mbind option_bind].
  destruct (strip_prefix "www.tiktok.com/" after_scheme) as [after_host|] eqn:E; [|done].
  apply strip_prefix_Some in E as ->. intros _.
  replace (strip_prefix "vm" ("www.tiktok.com/" ++ after_host)) with (@None string)
    by reflexivity.
  replace (strip_prefix "vt" ("www.tiktok.com/" ++ after_host)) with (@None string)
    by reflexivity.
  reflexivity.
Qed.

(** X14.  The page URL the extractor builds for a video is one its own
    pattern accepts, and matching it gives back the parts it was built
    from: the video id, and the user id, which is ['_'] when the URL was
    built without one.  The short-link pattern does not accept it. *)
Theorem create_url_is_matched_back (user_id : option string) (video_id : string) :
  all_user_chars (default "" user_id) = true ->
  str_truthy video_id = true -> all_digits video_id = true ->
  tiktok_match_valid_url (_create_url user_id video_id)
  = Some (video_id, Some (default "_" (str_or user_id None)))
  /\ vm_suitable (_create_url user_id video_id) = false.
Proof.
  intros Hu Hv Hd.
  pose proof (create_url_matches user_id video_id Hu Hv Hd) as Hm.
  split; [exact Hm|]. by eapply tiktok_url_is_no_short_link.
Qed.

Lemma create_url_is_matched_back_witness :
  tiktok_match_valid_url (_create_url None "7023491746608712966")
  = Some ("7023491746608712966", Some "_")
  /\ tiktok_match_valid_url (_create_url (Some "susmandem") "7023491746608712966")
     = Some ("7023491746608712966", Some "susmandem")
  /\ vm_suitable (_create_url (Some "susmandem") "7023491746608712966") = false.
Proof.
  split.
  - apply (create_url_is_matched_back None "7023491746608712966"); reflexivity.
  - apply (create_url_is_matched_back (Some "susmandem") "7023491746608712966"); reflexivity.
Defined.

(** X15.  A short link that resolves to a video page, that is to a URL
    the pattern of [TikTokIE] accepts, is always handed on as the new
    extraction target: the guard against a link that resolves to another
    short link never rejects it. *)
Theorem short_link_to_video_is_handed_on `{Host}
    (url new_url : string) (parts : string * option string) (s : State) :
  vm_suitable url = true ->
  fst (_head_geturl url (world s)) = Return new_url ->
  tiktok_match_valid_url new_url = Some parts ->
  fst (vm_real_extract url s) = Return {| result_url := new_url |}.
Proof.
  intros Hs Hhead Hmatch. unfold vm_real_extract. unfold vm_suitable in Hs.
  destruct (vm_match_valid_url url); [|discriminate].
  unfold bind, lift_world_result.
  destruct (_head_geturl url (world s)) as [res w']. simpl in Hhead. subst res.
  by rewrite (tiktok_url_is_no_short_link new_url parts Hmatch).
Qed.

Lemma short_link_to_video_is_handed_on_witness :
  fst (vm_real_extract "https://vt.tiktok.com/ZSe4FqkKd"
         (start_state
            (head_script
               [Return "https://www.tiktok.com/@susmandem/video/7023491746608712966?_r=1"])))
  = Return {| result_url :=
                "https://www.tiktok.com/@susmandem/video/7023491746608712966?_r=1" |}.
Proof.
  apply (short_link_to_video_is_handed_on
           "https://vt.tiktok.com/ZSe4FqkKd"
           "https://www.tiktok.com/@susmandem/video/7023491746608712966?_r=1"
           ("7023491746608712966", Some "susmandem")).
  - vm_compute. reflexivity.
  - vm_compute. reflexivity.
  - vm_compute. reflexivity.
Defined.

(* ===================================================================== *)
(** * TikTokIE: one video                                                  *)
(* ===================================================================== *)

Lemma tiktok_match_parts (url vid : string) (user : option string) :
  tiktok_match_valid_url url = Some (vid, user) ->
  str_truthy vid = true /\ all_digits vid = true
  /\ all_user_chars (default "" user) = true.
Proof.
  unfold tiktok_match_valid_url.
  destruct (strip_prefix "http" url) as [after_http|]; [|done]. cbn [mbind option_bind].
  destruct (match strip_prefix "s://" after_http with
            | Some r => Some r
            | None => strip_prefix "://" after_http
            end) as [after_scheme|]; [|done]. cbn [mbind option_bind].
  destruct (strip_prefix "www.tiktok.com/" after_scheme) as [after_host|]; [|done].
  cbn [mbind option_bind].
  destruct (strip_prefix "embed" after_host) as [after_embed|].
  - destruct (strip_prefix "/" after_embed) as [after_slash|]; [|done].
    cbn [mbind option_bind].
    destruct (str_truthy (digit_prefix after_slash)) eqn:Ht; [|done].
    intros [= <- <-]. split; [done|]. split; [apply digit_prefix_digits | done].
  - destruct (strip_prefix "@" after_host) as [after_at|]; [|done]. cbn [mbind option_bind].
    pose proof (span_chars_taken is_user_char after_at) as Htaken.
    destruct (span_chars is_user_char after_at) as [user_id after_user]. simpl in Htaken.
    destruct (str_truthy user_id); [|done].
    destruct (strip_prefix "/video" after_user) as [after_video|]; [|done].
    cbn [mbind option_bind].
    destruct (strip_prefix "/" after_video) as [after_slash|]; [|done].
    cbn [mbind option_bind].
    destruct (str_truthy (digit_prefix after_slash)) eqn:Ht; [|done].
    intros [= <- <-]. split; [done|]. split; [apply digit_prefix_digits | done].
Qed.

Lemma find_aweme_first (vid : string) (feed_list : list AwemeDetail) (item : AwemeDetail) :
  find_aweme vid feed_list = Some item ->
  exists before after,
    feed_list = (before ++ item :: after)%list
    /\ Forall (fun aweme => aweme_id aweme <> vid) before
    /\ aweme_id item = vid.
Proof.
  unfold find_aweme. induction feed_list as [|a rest IH]; [done|]. simpl.
  destruct (String.eqb_spec (aweme_id a) vid) as [Heq|Hne].
  - intros [= <-]. by exists [], rest.
  - intros Hf. destruct (IH Hf) as (before & after & -> & Hb & Hi).
    exists (a :: before), after. split; [done|]. split; [by constructor | done].
Qed.

Lemma find_aweme_none (vid : string) (feed_list : list AwemeDetail) :
  Forall (fun aweme => aweme_id aweme <> vid) feed_list -> find_aweme vid feed_list = None.
Proof.
  unfold find_aweme. induction 1 as [|a rest Ha _ IH]; [done|]. simpl.
  by destruct (String.eqb_spec (aweme_id a) vid).
Qed.

Section OneVideo.
Context `{PageHost}.

Lemma extract_aweme_app_id
    (self : Self) (vid : string) (s s' : State) (info : InfoDict) :
  _extract_aweme_app self vid s = (Return info, s') -> info_id info = vid.
Proof.
  unfold _extract_aweme_app, bind.
  destruct (_call_api self (feed_call vid) s) as [[[feed|]|e] s1]; try discriminate.
  destruct (find_aweme vid (aweme_list feed)) as [item|] eqn:Efind; [|discriminate].
  destruct (find_aweme_first _ _ _ Efind) as (_ & _ & _ & _ & Hid).
  intros Hparse.
  destruct (parse_aweme_video_app_fields self item s1 s' info Hparse) as (Hi & _).
  congruence.
Qed.

(** X16.  What [_extract_aweme_app] returns is built from the first item
    of the feed whose id is the requested one: items before it (the feed
    may hold other videos) are passed over, and the id of the result is
    the requested id. *)
Theorem extract_aweme_app_returns_the_video
    (self : Self) (vid : string) (s s' : State) (info : InfoDict) :
  _extract_aweme_app self vid s = (Return info, s') ->
  info_id info = vid
  /\ exists feed before item after,
       fst (_call_api self (feed_call vid) s) = Return (Some feed)
       /\ aweme_list feed = (before ++ item :: after)%list
       /\ Forall (fun aweme => aweme_id aweme <> vid) before
       /\ aweme_id item = vid
       /\ info_title info = desc item
       /\ info_thumbnails info = thumbnails_of (video item)
       /\ info_webpage_url info = _create_url (author_uid item) vid.
Proof.
  unfold _extract_aweme_app, bind.
  destruct (_call_api self (feed_call vid) s) as [[[feed|]|e] s1] eqn:Ecall; try discriminate.
  destruct (find_aweme vid (aweme_list feed)) as [item|] eqn:Efind; [|discriminate].
  destruct (find_aweme_first _ _ _ Efind) as (before & after & Hlist & Hbefore & Hid).
  intros Hparse.
  destruct (parse_aweme_video_app_fields self item s1 s' info Hparse)
    as (Hi & Hf & Ht & _ & _).
  assert (Hmore : info_title info = desc item
                  /\ info_webpage_url info = _create_url (author_uid item) (aweme_id item)).
  { revert Hparse. unfold _parse_aweme_video_app, bind.
    destruct (lift_world _ s1) as [[auth|e] s2]; [|discriminate].
    match goal with
    | |- (let (_, _) := ?m s2 in _) = _ -> _ =>
        destruct (m s2) as [[[]|e] s3]; [|discriminate]
    end.
    destruct (extract_subtitles self item (aweme_id item) s3) as [[subs|e] s4];
      [|discriminate].
    unfold ret. by intros [= <- _]. }
  destruct Hmore as [Htitle Hurl].
  split; [congruence|].
  exists feed, before, item, after. repeat split; try done.
  by rewrite Hurl, Hid.
Qed.

(** X17.  Which failures of the app path reach the web page.  When the
    feed the API returns does not hold the requested video (an empty feed
    included), [_real_extract] prints one warning and goes on with the web
    page of the video, from the state the API call left (the candidate that
    answered stays pinned).  When the API call returns a falsy response
    instead, the failure is not an [ExtractorError]: it ends the
    extraction, and no page is downloaded. *)
Theorem real_extract_fallback
    (self : Self) (url vid : string) (user : option string) (s s1 : State)
    (res : option ApiJson) :
  tiktok_match_valid_url url = Some (vid, user) ->
  _call_api self (feed_call vid) s = (Return res, s1) ->
  match res with
  | Some feed =>
      Forall (fun aweme => aweme_id aweme <> vid) (aweme_list feed) ->
      tiktok_real_extract self url s
      = extract_from_webpage vid user
          {| world := world s1; objects := objects s1;
             events := events s1
                       ++ [EvWarning (str_of_error not_in_feed ++ "; trying with webpage")
                                     false] |}
  | None =>
      tiktok_real_extract self url s = (Raise (EOtherError "AttributeError"), s1)
  end.
Proof.
  intros Hm Hcall. unfold tiktok_real_extract. rewrite Hm.
  destruct res as [feed|].
  - intros Hnone.
    assert (Eapp : _extract_aweme_app self vid s = (Raise not_in_feed, s1)).
    { unfold _extract_aweme_app, bind. rewrite Hcall.
      by rewrite (find_aweme_none vid _ Hnone). }
    unfold try_except, bind. rewrite Eapp. reflexivity.
  - assert (Eapp : _extract_aweme_app self vid s = (Raise (EOtherError "AttributeError"), s1)).
    { unfold _extract_aweme_app, bind. by rewrite Hcall. }
    unfold try_except, bind. rewrite Eapp. reflexivity.
Qed.

(** X18.  Whatever [_real_extract] returns belongs to the video of the
    URL: a result of the app path has the id the URL names; a result of
    the web path names as its [Referer] the page URL rebuilt from the parts
    of the URL, and the extractor's own pattern reads the same id off that
    page URL (with ['_'] for a missing user). *)
Theorem real_extract_result_is_the_urls_video
    (self : Self) (url : string) (s s' : State) (r : Extracted) :
  tiktok_real_extract self url s = (Return r, s') ->
  exists vid user,
    tiktok_match_valid_url url = Some (vid, user)
    /\ match r with
       | FromApp info => info_id info = vid
       | FromWeb info =>
           web_referer info = _create_url user vid
           /\ tiktok_match_valid_url (web_referer info)
              = Some (vid, Some (default "_" (str_or user None)))
       end.
Proof.
  unfold tiktok_real_extract.
  destruct (tiktok_match_valid_url url) as [[vid user]|] eqn:Hm; [|discriminate].
  destruct (tiktok_match_parts url vid user Hm) as (Hv & Hd & Hu).
  intros Hrun. exists vid, user. split; [done|].
  revert Hrun. unfold try_except, bind at 1.
  destruct (_extract_aweme_app self vid s) as [[info|e] s1] eqn:Eapp.
  - unfold ret. intros [= <- <-].
    exact (extract_aweme_app_id self vid s s1 info Eapp).
  - destruct (is_extractor_error e); [|discriminate].
    unfold bind at 1.
    destruct (report_warning self _ false s1) as [[[]|e'] s2]; [|discriminate].
    unfold extract_from_webpage, bind at 1.
    destruct (lift_world_result _ s2) as [[webpage|e1] s3]; [|discriminate].
    unfold bind at 1, lift_result at 1.
    destruct (_search_nextjs_data webpage vid) as [next_data|e2]; [|discriminate].
    unfold bind at 1.
    match goal with
    | |- (let (_, _) := ?m s3 in _) = _ -> _ =>
        destruct (m s3) as [[[status video_data]|e3] s4]; [|discriminate]
    end.
    destruct (Z.eqb status 0); [|destruct (Z.eqb status 10216); discriminate].
    unfold bind, lift_result.
    destruct (_parse_aweme_video_web video_data (_create_url user vid)) as [info|e4] eqn:Ep;
      [|discriminate].
    unfold ret. intros [= <- <-].
    assert (Href : web_referer info = _create_url user vid).
    { unfold _parse_aweme_video_web in Ep. destruct video_data as [item|]; [|discriminate].
      destruct (wi_video item); [|discriminate]. by injection Ep as <-. }
    split; [exact Href|]. rewrite Href. by apply create_url_matches.
Qed.

End OneVideo.

Lemma extract_aweme_app_returns_the_video_witness :
  let s := start_state (script_of [Return (Some (feed_page [plain_item "7059698374567611694";
                                                            plain_item "7023491746608712966";
                                                            plain_item "7059698374567611696"]))]) in
  exists info,
    fst (_extract_aweme_app tiktok_ie "7023491746608712966" s) = Return info
    /\ info_id info = "7023491746608712966".
Proof.
  intros s.
  assert (Hrun : exists info s',
             _extract_aweme_app tiktok_ie "7023491746608712966" s = (Return info, s')).
  { vm_compute. eexists _, _. reflexivity. }
  destruct Hrun as (info & s' & E). exists info. split; [by rewrite E|].
  by destruct (extract_aweme_app_returns_the_video
                 tiktok_ie "7023491746608712966" s s' info E).
Defined.

Lemma real_extract_fallback_witness :
  let s := start_state (script_of [Return (Some (feed_page [plain_item "7059698374567611694"]))]) in
  exists info,
    fst (tiktok_real_extract tiktok_ie "https://www.tiktok.com/embed/7023491746608712966" s)
    = Return (FromWeb info)
    /\ web_referer info = "https://www.tiktok.com/@_/video/7023491746608712966"
    /\ web_id info = Some "7023491746608712966".
Proof.
  intros s.
  pose proof (real_extract_fallback
                tiktok_ie "https://www.tiktok.com/embed/7023491746608712966"
                "7023491746608712966" None s
                (snd (_call_api tiktok_ie (feed_call "7023491746608712966") s))
                (Some (feed_page [plain_item "7059698374567611694"]))) as Hfb.
  cbv beta iota in Hfb. rewrite Hfb.
  - vm_compute. eexists. repeat split; reflexivity.
  - vm_compute. reflexivity.
  - vm_compute. reflexivity.
  - repeat constructor. vm_compute. discriminate.
Defined.

Lemma real_extract_result_is_the_urls_video_witness :
  let s := start_state (script_of [Return (Some (feed_page [plain_item "7023491746608712966"]))]) in
  exists info,
    fst (tiktok_real_extract tiktok_ie
           "https://www.tiktok.com/@susmandem/video/7023491746608712966" s)
    = Return (FromApp info)
    /\ info_id info = "7023491746608712966".
Proof.
  intros s.
  assert (Hrun : exists info s',
             tiktok_real_extract tiktok_ie
               "https://www.tiktok.com/@susmandem/video/7023491746608712966" s
             = (Return (FromApp info), s')).
  { vm_compute. eexists _, _. reflexivity. }
  destruct Hrun as (info & s' & E). exists info. split; [by rewrite E|].
  destruct (real_extract_result_is_the_urls_video
              tiktok_ie "https://www.tiktok.com/@susmandem/video/7023491746608712966"
              s s' (FromApp info) E) as (vid & user & Hm & Hid).
  simpl in Hid. rewrite Hid.
  assert (Hc : tiktok_match_valid_url
                 "https://www.tiktok.com/@susmandem/video/7023491746608712966"
               = Some ("7023491746608712966", Some "susmandem")) by (vm_compute; reflexivity).
  rewrite Hc in Hm. by injection Hm as <- _.
Defined.

(* ===================================================================== *)
(** * The web item's thumbnail                                             *)
(* ===================================================================== *)

Section WebThumbnails.
Context `{PageHost}.

Lemma thumbnails_fold (aweme_detail : WebItem) (width height : option Z)
    (fields : list (option string)) (names : list string) :
  map (web_item_get aweme_detail) names = fields ->
  forall thumbnails,
    fold_left
      (fun thumbnails thumbnail_name =>
         match web_item_get aweme_detail thumbnail_name with
         | Some u =>
             if str_truthy u
             then [ {| wt_url := _proto_relative_url u; wt_width := width;
                       wt_height := height |} ]
             else thumbnails
         | None => thumbnails
         end)
      names thumbnails
    = match last (filter (fun u => str_truthy u = true) (omap id fields)) with
      | Some u => [ {| wt_url := _proto_relative_url u; wt_width := width;
                       wt_height := height |} ]
      | None => thumbnails
      end.
Proof.
  intros <-. induction names as [|name names IH]; intros thumbnails; [done|].
  simpl. rewrite IH.
  destruct (web_item_get aweme_detail name) as [u|]; simpl; [|done].
  rewrite filter_cons. destruct (str_truthy u) eqn:Hu; simpl.
  - destruct (decide (true = true)); [|done].
    rewrite last_cons. by destruct (last (filter _ _)).
  - by destruct (decide (false = true)).
Qed.

(** X19.  The web path keeps at most one thumbnail: of the fields
    [thumbnail], [cover], [dynamicCover] and [originCover] that are present
    and not empty, the last one gives it; when none is, there is no
    thumbnail.  (The app path lists the URLs of every cover field.) *)
Theorem web_thumbnail_is_the_last_field (aweme_detail : WebItem) (width height : option Z) :
  web_thumbnails_of aweme_detail width height
  = match last (web_thumbnail_urls aweme_detail) with
    | Some u => [ {| wt_url := _proto_relative_url u; wt_width := width;
                     wt_height := height |} ]
    | None => []
    end
  /\ (length (web_thumbnails_of aweme_detail width height) <= 1)%nat.
Proof.
  assert (E : web_thumbnails_of aweme_detail width height
              = match last (web_thumbnail_urls aweme_detail) with
                | Some u => [ {| wt_url := _proto_relative_url u; wt_width := width;
                                 wt_height := height |} ]
                | None => []
                end).
  { unfold web_thumbnails_of, web_thumbnail_urls. by apply thumbnails_fold. }
  split; [exact E|]. rewrite E. destruct (last _); simpl; lia.
Qed.

End WebThumbnails.

Example sample_web_item_parsed :
  _parse_aweme_video_web (Some sample_web_item)
    "https://www.tiktok.com/@_/video/7023491746608712966"
  = Return {| web_id := Some "7023491746608712966"; web_title := Some "";
              web_formats :=
                [ list_to_map [ ("url", VStr "https://v16-web.example/play");
                                ("ext", VStr "mp4"); ("width", VInt 576);
                                ("height", VInt 1024) ];
                  list_to_map [ ("format_id", VStr "download");
                                ("url", VStr "https://v16-web.example/download");
                                ("ext", VStr "mp4"); ("width", VInt 576);
                                ("height", VInt 1024) ] ];
              web_thumbnails := [ {| wt_url := "https://p16.example/origin.jpeg";
                                     wt_width := Some 576; wt_height := Some 1024 |} ];
              web_referer := "https://www.tiktok.com/@_/video/7023491746608712966" |}.
Proof. vm_compute. reflexivity. Qed.

(* ===================================================================== *)
(** * TikTokUserIE._entries_api                                            *)
(* ===================================================================== *)

Section EntriesApiExtras.
Context `{Host}.

(** X20.  The entries of a user's list follow the list: the k-th entry
    has the id and carries the page URL of the k-th video.  When a video
    cannot be extracted the listing ends there with that error, after the
    entries of the videos before it; otherwise there is one entry per
    video. *)
Theorem entries_api_follow_the_list (self : Self) (videos : list VideoRef) :
  forall (s s' : State) (entries : list InfoDict) (failure : option Exn),
    _entries_api self videos s = (entries, failure, s') ->
    Forall2 (fun entry video =>
               info_id entry = ref_id video
               /\ info_webpage_url entry = ref_url video
               /\ info_extractor_key entry = "TikTok")
            entries (take (length entries) videos)
    /\ match failure with
       | None => length entries = length videos
       | Some e =>
           (length entries < length videos)%nat
           /\ exists video s0,
                videos !! length entries = Some video
                /\ fst (_extract_aweme_app self (ref_id video) s0) = Raise e
       end.
Proof.
  induction videos as [|video rest IH]; intros s s' entries failure; simpl.
  - intros [= <- <- _]. split; [constructor | done].
  - destruct (_extract_aweme_app self (ref_id video) s) as [[info|e] s1] eqn:Eapp.
    + destruct (_entries_api self rest s1) as [[more oe] s2] eqn:Erest.
      intros [= <- <- <-].
      destruct (IH s1 s2 more oe Erest) as [Hall Hend].
      pose proof (extract_aweme_app_id self (ref_id video) s s1 info Eapp) as Hid.
      split; [simpl; constructor; [done | exact Hall]|].
      destruct oe as [e|]; simpl.
      * destruct Hend as (Hlt & v & s0 & Hv & He). split; [lia|]. by exists v, s0.
      * by rewrite Hend.
    + intros [= <- <- <-]. split; [constructor|]. simpl. split; [lia|].
      exists video, s. split; [done|]. by rewrite Eapp.
Qed.

End EntriesApiExtras.

Lemma entries_api_follow_the_list_witness :
  let videos := [ {| ref_id := "7059698374567611694";
                     ref_url := "https://www.tiktok.com/@meme/video/7059698374567611694" |};
                  {| ref_id := "7059698374567611695";
                     ref_url := "https://www.tiktok.com/@meme/video/7059698374567611695" |} ] in
  let s := start_state
             (script_of [Return (Some (feed_page [plain_item "7059698374567611694"]));
                         Return (Some (feed_page []))]) in
  let run := _entries_api tiktok_ie videos s in
  Forall2 (fun entry video =>
             info_id entry = ref_id video
             /\ info_webpage_url entry = ref_url video
             /\ info_extractor_key entry = "TikTok")
          (fst (fst run)) (take 1 videos)
  /\ snd (fst run) = Some not_in_feed.
Proof.
  intros videos s run.
  destruct (entries_api_follow_the_list tiktok_ie videos s (snd run) (fst (fst run))
              (snd (fst run))) as [Hall _].
  - vm_compute. reflexivity.
  - split; [|vm_compute; reflexivity].
    replace 1%nat with (length (fst (fst run))) by (vm_compute; reflexivity). exact Hall.
Defined.

(* ===================================================================== *)
(** * The list driver: how a listing can break off                         *)
(* ===================================================================== *)

Section EntriesExtras.
Context `{Host}.

Lemma pages_read_le (self : Self) (display_id : string) page query s yielded page' query' s' :
  pages_read self display_id page query s yielded page' query' s' -> (page <= page')%nat.
Proof. induction 1; lia. Qed.

(** After the pages read, the driver goes on as it would from the page it
    stands at. *)
Lemma entries_from_read (self : Self) (display_id : string)
    page query s yielded page' query' s' :
  pages_read self display_id page query s yielded page' query' s' ->
  forall fuel more ending s_end,
    entries_from fuel self display_id page' query' s' = (more, ending, s_end) ->
    entries_from ((page' - page) + fuel) self display_id page query s
    = ((yielded ++ more)%list, ending, s_end).
Proof.
  induction 1 as [page query s
                 |page query s p s1 infos s2 c yielded page' query' s3 Hcall Hy Hm Hc Hrest IH];
    intros fuel more ending s_end Hgo.
  - by rewrite Nat.sub_diag.
  - pose proof (pages_read_le _ _ _ _ _ _ _ _ _ Hrest) as Hle.
    replace (page' - page + fuel)%nat with (S ((page' - S page) + fuel)) by lia.
    simpl. rewrite Hcall, Hy, Hm, Hc. simpl.
    rewrite (IH fuel more ending s_end Hgo). by rewrite app_assoc.
Qed.

(** X21.  When a page call fails with anything but the empty-body error,
    the listing ends with that error: the call is not repeated, and the
    entries of the pages read before it have been yielded. *)
Theorem entries_keep_earlier_pages
    (self : Self) (list_id display_id device_id : string) (s s0 s1 s2 : State)
    (yielded : list InfoDict) (page : nat) (query : gmap string Val) (e : Exn) :
  random_string string_digits 19 s = (Return device_id, s0) ->
  pages_read self display_id 1 (first_query self list_id device_id) s0 yielded page query s1 ->
  _call_api self (page_args self display_id page query) s1 = (Raise e, s2) ->
  is_empty_body_error e = false ->
  forall fuel, (page <= fuel)%nat ->
    _entries fuel self list_id display_id s = (yielded, Raised e, s2).
Proof.
  intros Hdev Hread Hcall He fuel Hfuel. unfold _entries. rewrite Hdev.
  pose proof (pages_read_le _ _ _ _ _ _ _ _ _ Hread) as Hle.
  replace fuel with ((page - 1) + S (fuel - page))%nat by lia.
  rewrite (entries_from_read _ _ _ _ _ _ _ _ _ Hread (S (fuel - page)) [] (Raised e) s2).
  - by rewrite app_nil_r.
  - simpl. rewrite Hcall. destruct e as [ee| | |]; try reflexivity.
    simpl in He. by rewrite He.
Qed.

(** X22.  A page that reports more pages and names no cursor ends the
    listing with a [KeyError], after the entries of that page and of the
    pages before it have been yielded. *)
Theorem entries_need_a_cursor
    (self : Self) (list_id display_id device_id : string) (s s0 s1 s2 s3 : State)
    (yielded infos : list InfoDict) (page : nat) (query : gmap string Val) (p : ApiJson) :
  random_string string_digits 19 s = (Return device_id, s0) ->
  pages_read self display_id 1 (first_query self list_id device_id) s0 yielded page query s1 ->
  _call_api self (page_args self display_id page query) s1 = (Return (Some p), s2) ->
  yield_entries self (aweme_list p) s2 = (infos, None, s3) ->
  has_more p = true ->
  cursor p = None ->
  forall fuel, (page <= fuel)%nat ->
    _entries fuel self list_id display_id s
    = ((yielded ++ infos)%list, Raised (EKeyError "cursor"), s3).
Proof.
  intros Hdev Hread Hcall Hy Hm Hc fuel Hfuel. unfold _entries. rewrite Hdev.
  pose proof (pages_read_le _ _ _ _ _ _ _ _ _ Hread) as Hle.
  replace fuel with ((page - 1) + S (fuel - page))%nat by lia.
  apply (entries_from_read _ _ _ _ _ _ _ _ _ Hread).
  simpl. by rewrite Hcall, Hy, Hm, Hc.
Qed.

End EntriesExtras.

Lemma entries_keep_earlier_pages_witness :
  let s := start_state (script_of [Return (Some page_one); forbidden;
                                   Return (Some page_three)]) in
  exists yielded s_end,
    _entries 5 tiktok_sound_ie "6956990112127585029" "6956990112127585029" s
    = (yielded, Raised (EExtractorError
                          {| msg := "Unable to download video feed: HTTP Error 403: Forbidden";
                             cause := Some (OtherCause "HTTP Error 403: Forbidden") |}), s_end)
    /\ map info_id yielded = ["7059698374567611694"]
    /\ api_replies (world s_end) = [Return (Some page_three)].
Proof.
  intros s.
  pose (first := _call_api tiktok_sound_ie
                   (page_args tiktok_sound_ie "6956990112127585029" 1 sound_query) s).
  pose (items := yield_entries tiktok_sound_ie (aweme_list page_one) (snd first)).
  pose (second := _call_api tiktok_sound_ie
                    (page_args tiktok_sound_ie "6956990112127585029" 2
                       (<["cursor" := VInt 20]> sound_query)) (snd items)).
  exists (fst (fst items)), (snd second).
  assert (Hread : pages_read tiktok_sound_ie "6956990112127585029" 1 sound_query s
                    (fst (fst items) ++ []) 2 (<["cursor" := VInt 20]> sound_query)
                    (snd items)).
  { eapply (read_more tiktok_sound_ie "6956990112127585029" 1 sound_query s page_one
              (snd first) (fst (fst items)) (snd items) (VInt 20)).
    - vm_compute. reflexivity.
    - vm_compute. reflexivity.
    - reflexivity.
    - reflexivity.
    - apply read_none. }
  rewrite app_nil_r in Hread.
  split; [|split; vm_compute; reflexivity].
  apply (entries_keep_earlier_pages tiktok_sound_ie "6956990112127585029"
           "6956990112127585029" "0000000000000000000" s s (snd items) (snd second)
           (fst (fst items)) 2 (<["cursor" := VInt 20]> sound_query)).
  - vm_compute. reflexivity.
  - exact Hread.
  - vm_compute. reflexivity.
  - reflexivity.
  - lia.
Defined.

Lemma entries_need_a_cursor_witness :
  let s := start_state (script_of [Return (Some page_one); Return (Some page_without_cursor);
                                   Return (Some page_three)]) in
  exists yielded s_end,
    _entries 5 tiktok_sound_ie "6956990112127585029" "6956990112127585029" s
    = (yielded, Raised (EKeyError "cursor"), s_end)
    /\ map info_id yielded = ["7059698374567611694"; "7059698374567611695"]
    /\ api_replies (world s_end) = [Return (Some page_three)].
Proof.
  intros s.
  pose (first := _call_api tiktok_sound_ie
                   (page_args tiktok_sound_ie "6956990112127585029" 1 sound_query) s).
  pose (items := yield_entries tiktok_sound_ie (aweme_list page_one) (snd first)).
  pose (second := _call_api tiktok_sound_ie
                    (page_args tiktok_sound_ie "6956990112127585029" 2
                       (<["cursor" := VInt 20]> sound_query)) (snd items)).
  pose (items2 := yield_entries tiktok_sound_ie (aweme_list page_without_cursor) (snd second)).
  exists (fst (fst items) ++ fst (fst items2))%list, (snd items2).
  assert (Hread : pages_read tiktok_sound_ie "6956990112127585029" 1 sound_query s
                    (fst (fst items) ++ []) 2 (<["cursor" := VInt 20]> sound_query)
                    (snd items)).
  { eapply (read_more tiktok_sound_ie "6956990112127585029" 1 sound_query s page_one
              (snd first) (fst (fst items)) (snd items) (VInt 20)).
    - vm_compute. reflexivity.
    - vm_compute. reflexivity.
    - reflexivity.
    - reflexivity.
    - apply read_none. }
  rewrite app_nil_r in Hread.
  split; [|split; vm_compute; reflexivity].
  apply (entries_need_a_cursor tiktok_sound_ie "6956990112127585029"
           "6956990112127585029" "0000000000000000000" s s (snd items) (snd second)
           (snd items2) (fst (fst items)) (fst (fst items2)) 2
           (<["cursor" := VInt 20]> sound_query) page_without_cursor).
  - vm_compute. reflexivity.
  - exact Hread.
  - vm_compute. reflexivity.
  - vm_compute. reflexivity.
  - reflexivity.
  - reflexivity.
  - lia.
Defined.

(* ===================================================================== *)
(** * What parsing one item can end in                                     *)
(* ===================================================================== *)

Section ParseAppExtras.
Context `{Host}.

Lemma mirror_auth_cookie_quiet (value : string) (formats : list Format) :
  forall s, exists w,
    mirror_auth_cookie value formats s
    = (Return tt, {| world := w; objects := objects s; events := events s |}).
Proof.
  induction formats as [|f rest IH]; intros s; simpl.
  - exists (world s). unfold ret. by destruct s.
  - unfold bind, lift_world. simpl.
    match goal with
    | |- context [mirror_auth_cookie value rest ?s1] => destruct (IH s1) as [w ->]
    end.
    by exists w.
Qed.

(** X23.  Parsing an item of the app API makes no API call and touches
    no extractor object, however it ends.  When it returns, the dictionary
    has the item's id, the page URL built from the author's [uid] and that
    id, the item's [desc] as title and description and the thumbnails of
    its covers, and it has no subtitles unless subtitles were asked for. *)
Theorem parse_aweme_video_app_outcome (self : Self) (item : AwemeDetail) (s : State) :
  let run := _parse_aweme_video_app self item s in
  objects (snd run) = objects s
  /\ events (snd run) = events s
  /\ (forall info,
        fst run = Return info ->
        info_id info = aweme_id item
        /\ info_webpage_url info = _create_url (author_uid item) (aweme_id item)
        /\ info_title info = desc item
        /\ info_description info = desc item
        /\ info_thumbnails info = thumbnails_of (video item)
        /\ (want_subtitles (params self) = false -> info_subtitles info = ∅)).
Proof.
  intros run. subst run.
  destruct (_parse_aweme_video_app self item s) as [res s'] eqn:E. simpl.
  revert E. unfold _parse_aweme_video_app. unfold bind at 1. unfold lift_world at 1.
  cbv beta iota zeta.
  set (s1 := {| world := world s; objects := objects s; events := events s |}).
  assert (Hcookie : exists w,
            match _get_cookie (_WEBPAGE_HOST (cls self)) "sid_tt" (world s) with
            | Some value =>
                mirror_auth_cookie value (_remove_duplicate_formats (extracted_formats (video item)))
            | None => ret tt
            end s1
            = (Return tt, {| world := w; objects := objects s; events := events s |})).
  { destruct (_get_cookie _ _ _) as [value|].
    - apply (mirror_auth_cookie_quiet value _ s1).
    - by exists (world s). }
  destruct Hcookie as [w Ec]. unfold bind at 1. rewrite Ec.
  set (s2 := {| world := w; objects := objects s; events := events s |}).
  unfold bind, extract_subtitles.
  destruct (want_subtitles (params self)) eqn:Hwant.
  - destruct (subtitles_loop_outcome (aweme_id item) (concat (interaction_stickers item))
                (concat (interaction_stickers item)) ∅ s2) as (Ho & He & Hres).
    { done. }
    { intros lang entries. by rewrite lookup_empty. }
    unfold _get_subtitles.
    destruct (subtitles_loop (aweme_id item) (concat (interaction_stickers item)) ∅ s2)
      as [[subs|e] s3]; simpl in *.
    + unfold ret. intros [= <- <-]. simpl. split; [done|]. split; [done|].
      intros info [= <-]. by repeat split.
    + intros [= <- <-]. by repeat split.
  - unfold ret. intros [= <- <-]. simpl. split; [done|]. split; [done|].
    intros info [= <-]. by repeat split.
Qed.

End ParseAppExtras.

(* ===================================================================== *)
(** * The descriptors of the web path                                      *)
(* ===================================================================== *)

Lemma omap_length_le {A B} (f : A -> option B) (l : list A) :
  (length (omap f l) <= length l)%nat.
Proof.
  induction l as [|x l IH]; simpl; [done|].
  change (list_omap A B f l) with (omap f l). destruct (f x); simpl; lia.
Qed.

Section WebFormats.
Context `{PageHost}.

(** X24.  The descriptors the web path builds: every one is an [mp4] with
    the item's [width] and [height]; the play descriptors carry no format
    id; at most one download descriptor follows them, and it is the one
    with the format id ['download'].  A [playAddr] that is a string gives
    exactly one play descriptor, one that is neither a string nor a list
    gives none. *)
Theorem web_formats_shape (video_info : WebVideo) :
  exists plays download,
    web_formats_of video_info = (plays ++ download)%list
    /\ Forall (fun f => f !! "format_id" = None) plays
    /\ (download = []
        \/ exists u, download = [ <["format_id" := VStr "download"]>
                                    (web_format u (wv_width video_info)
                                                (wv_height video_info)) ])
    /\ Forall (fun f => f !! "ext" = Some (VStr "mp4")
                        /\ f !! "width" = Some (val_of_int (wv_width video_info))
                        /\ f !! "height" = Some (val_of_int (wv_height video_info)))
              (plays ++ download)
    /\ match wv_playAddr video_info with
       | PlayStr play_url =>
           plays = [ web_format play_url (wv_width video_info) (wv_height video_info) ]
       | PlayList srcs => (length plays <= length srcs)%nat
       | PlayOther => plays = []
       end.
Proof.
  unfold web_formats_of.
  set (plays := match wv_playAddr video_info with
                | PlayStr play_url => _
                | PlayList play_url => _
                | PlayOther => _
                end).
  assert (Hplays : Forall (fun f => f !! "format_id" = None
                                    /\ f !! "ext" = Some (VStr "mp4")
                                    /\ f !! "width" = Some (val_of_int (wv_width video_info))
                                    /\ f !! "height" = Some (val_of_int (wv_height video_info)))
                          plays).
  { subst plays. destruct (wv_playAddr video_info) as [u|srcs|].
    - by repeat constructor.
    - apply Forall_forall. intros f Hf. apply list_elem_of_In in Hf.
      apply in_map_iff in Hf as (u & <- & _). by repeat split.
    - constructor. }
  assert (Hshape : match wv_playAddr video_info with
                   | PlayStr play_url =>
                       plays = [ web_format play_url (wv_width video_info)
                                            (wv_height video_info) ]
                   | PlayList srcs => (length plays <= length srcs)%nat
                   | PlayOther => plays = []
                   end).
  { subst plays. destruct (wv_playAddr video_info) as [u|srcs|]; try reflexivity.
    rewrite length_map.
    etransitivity; [apply length_filter|]. apply omap_length_le. }
  clearbody plays.
  set (download_url := str_or _ _).
  assert (Hall : forall download,
            (download = []
             \/ exists u, download = [ <["format_id" := VStr "download"]>
                                         (web_format u (wv_width video_info)
                                                     (wv_height video_info)) ]) ->
            Forall (fun f => f !! "ext" = Some (VStr "mp4")
                             /\ f !! "width" = Some (val_of_int (wv_width video_info))
                             /\ f !! "height" = Some (val_of_int (wv_height video_info)))
                   (plays ++ download)).
  { intros download Hd. apply Forall_app. split.
    - eapply Forall_impl; [exact Hplays|]. by intros f (_ & ? & ? & ?).
    - destruct Hd as [-> | [u ->]]; by repeat constructor. }
  assert (Hfid : Forall (fun f => f !! "format_id" = None) plays).
  { eapply Forall_impl; [exact Hplays|]. by intros f (? & _). }
  destruct download_url as [u|].
  - destruct (str_truthy u).
    + eexists plays, _. split; [reflexivity|]. split; [exact Hfid|].
      split; [right; by exists u|]. split; [apply Hall; right; by exists u | exact Hshape].
    + exists plays, []. rewrite app_nil_r. split; [reflexivity|]. split; [exact Hfid|].
      split; [by left|]. split; [|exact Hshape].
      specialize (Hall [] (or_introl eq_refl)). by rewrite app_nil_r in Hall.
  - exists plays, []. rewrite app_nil_r. split; [reflexivity|]. split; [exact Hfid|].
    split; [by left|]. split; [|exact Hshape].
    specialize (Hall [] (or_introl eq_refl)). by rewrite app_nil_r in Hall.
Qed.

End WebFormats.
